(** * magiclick: the game-state update loop of [main.go]

    A shallow embedding of the simulation part of the program: the [Game] and
    [Generator] structs, [NewGame], [calculateManaPerSec], the body of
    [Update] and the purchase branch of [handleGeneratorClicks].

    The program computes on Go [float64] values.  The embedding is written
    over an interface [Float64] of the operations the source uses; its
    instance [IEEE] is Rocq's primitive binary64 floats, bit for bit what the
    Go program computes (round to nearest even, signed zeros, infinities,
    NaN).  Theorems stated for every instance hold in particular at [IEEE];
    the concrete runs and the invariants of the reachable states are stated
    and proved at [IEEE] itself.

    The later parts add the click dispatch of [handleGeneratorClicks], the
    frame function [Update] as a whole, [isMouseOverOrb], [Layout] and the
    text positions of [drawCircularGenerators], and prove the invariants of
    the reachable states from the IEEE 754 specification of Rocq's primitive
    floats (module [Binary64]). *)

From Stdlib Require Import ZArith Lia Bool String List.
From Stdlib Require Import Floats.PrimFloat Floats.SpecFloat Floats.FloatOps Floats.FloatAxioms.
From Stdlib Require Uint63.
From stdpp Require Import base option list.

Local Open Scope Z_scope.

(** ** Go's [int] (64 bits on the platforms the game targets) *)

Definition min_int64 : Z := - 2 ^ 63.
Definition max_int64 : Z := 2 ^ 63 - 1.

(** Two's-complement wrap-around of an [int] result. *)
Definition wrap_int (z : Z) : Z := (z + 2 ^ 63) mod 2 ^ 64 - 2 ^ 63.

(** Range check of the conversion [int64(x)]: a truncated value that does not
    fit is implementation-defined in Go; amd64 yields the minimum [int64]. *)
Definition clamp_int64 (z : Z) : Z :=
  if (min_int64 <=? z) && (z <=? max_int64) then z else min_int64.

(** ** The [float64] operations of the source *)

Class Float64 := {
  F : Type;
  fadd : F -> F -> F;                 (* x + y *)
  fsub : F -> F -> F;                 (* x - y *)
  fmul : F -> F -> F;                 (* x * y *)
  fdiv : F -> F -> F;                 (* x / y *)
  fltb : F -> F -> bool;              (* x < y *)
  fleb : F -> F -> bool;              (* x <= y *)
  fconst : Z -> positive -> F;        (* the constant n/d converted to float64 *)
  fpi : F;                            (* math.Pi converted to float64 *)
  of_int : Z -> F;                    (* float64(n) *)
  to_int64 : F -> Z;                  (* int64(x) *)
  flt_not_ge : forall a b, fltb a b = true -> fleb b a = false
}.

(** *** Bit-exact instance: binary64 *)

Module IEEE754.

(** [float64(n)] for an [int] n: exact below 2^53, rounded to nearest
    above. *)
Definition of_Z (z : Z) : float :=
  if z =? min_int64 then (- 0x1p63)%float
  else if z <? 0 then (- PrimFloat.of_uint63 (Uint63.of_Z (- z)))%float
  else PrimFloat.of_uint63 (Uint63.of_Z z).

(** A decimal constant [n/d] of the source: both parts are small integers,
    exact as floats, and the division rounds their quotient correctly. *)
Definition const (n : Z) (d : positive) : float :=
  (of_Z n / of_Z (Zpos d))%float.

(** [math.Pi] rounded to binary64. *)
Definition pi : float := 0x1.921fb54442d18p+1%float.

(** [int64(x)]: truncation toward zero. *)
Definition trunc (x : float) : Z :=
  match Prim2SF x with
  | S754_zero _ => 0
  | S754_finite s m e =>
      let v := Z.shiftl (Zpos m) e in
      clamp_int64 (if s then - v else v)
  | S754_infinity _ | S754_nan => min_int64
  end.

(** [|a - b| < eps], the comparison within a floating tolerance. *)
Definition within (eps a b : float) : bool :=
  PrimFloat.ltb (PrimFloat.abs (a - b)) eps.

End IEEE754.

(** ** Antisymmetry of the binary64 comparison *)

Lemma SFcompare_Lt_Gt (x y : spec_float) :
  SFcompare x y = Some Lt -> SFcompare y x = Some Gt.
Proof.
  destruct x as [sx|sx| |sx mx ex], y as [sy|sy| |sy my ey]; simpl;
    try discriminate;
    try (destruct sx; simpl; congruence);
    try (destruct sy; simpl; congruence);
    try (destruct sx, sy; simpl; congruence).
  rewrite (Z.compare_antisym ex ey).
  pose proof (Pos.compare_cont_antisym mx my Eq) as Hm; simpl in Hm.
  rewrite <- Hm.
  destruct sx, sy; try congruence;
    destruct (ex ?= ey); simpl; try congruence;
    destruct (Pos.compare_cont Eq mx my); simpl; congruence.
Qed.

Lemma float_ltb_not_geb (a b : float) :
  PrimFloat.ltb a b = true -> PrimFloat.leb b a = false.
Proof.
  rewrite FloatAxioms.ltb_spec, FloatAxioms.leb_spec. unfold SFltb, SFleb.
  destruct (SFcompare (Prim2SF a) (Prim2SF b)) as [[]|] eqn:E; try discriminate.
  intros _. now rewrite (SFcompare_Lt_Gt _ _ E).
Qed.

#[export] Instance IEEE : Float64 := {|
  F := float;
  fadd := PrimFloat.add;
  fsub := PrimFloat.sub;
  fmul := PrimFloat.mul;
  fdiv := PrimFloat.div;
  fltb := PrimFloat.ltb;
  fleb := PrimFloat.leb;
  fconst := IEEE754.const;
  fpi := IEEE754.pi;
  of_int := IEEE754.of_Z;
  to_int64 := IEEE754.trunc;
  flt_not_ge := float_ltb_not_geb
|}.

(** ** The game state *)

Definition screenWidth : Z := 1920.
Definition screenHeight : Z := 1080.
Definition orbSize : Z := 100.

(** The two structs, over the type [T] that stands for [float64]. *)
Section State.

Context {T : Type}.

(** [type Generator struct]. *)
Record Generator := mkGenerator {
  name : string;
  cost : T;
  speedPerLevel : T;
  level : Z;
  description : string;
  timer : Z;
  manaMultiplier : T
}.

(** [type Game struct], without the font handle, which the simulation
    never reads. *)
Record Game := mkGame {
  mana : T;
  manaPerSec : Z;
  orbX : T;
  orbY : T;
  orbClicked : bool;
  clickAnimation : Z;
  generators : list Generator;
  tickCounter : Z;
  animationTime : T;
  rotationAngles : list T;
  totalMultiplier : T
}.

End State.

Arguments Generator : clear implicits.
Arguments Game : clear implicits.

Section Game.

Context {FL : Float64}.

(** Field updates, one per assignment target of the source. *)
Definition set_mana (v : F) (g : Game F) : Game F :=
  mkGame v (manaPerSec g) (orbX g) (orbY g) (orbClicked g) (clickAnimation g)
         (generators g) (tickCounter g) (animationTime g) (rotationAngles g)
         (totalMultiplier g).
Definition set_manaPerSec (v : Z) (g : Game F) : Game F :=
  mkGame (mana g) v (orbX g) (orbY g) (orbClicked g) (clickAnimation g)
         (generators g) (tickCounter g) (animationTime g) (rotationAngles g)
         (totalMultiplier g).
Definition set_orbClicked (v : bool) (g : Game F) : Game F :=
  mkGame (mana g) (manaPerSec g) (orbX g) (orbY g) v (clickAnimation g)
         (generators g) (tickCounter g) (animationTime g) (rotationAngles g)
         (totalMultiplier g).
Definition set_clickAnimation (v : Z) (g : Game F) : Game F :=
  mkGame (mana g) (manaPerSec g) (orbX g) (orbY g) (orbClicked g) v
         (generators g) (tickCounter g) (animationTime g) (rotationAngles g)
         (totalMultiplier g).
Definition set_generators (v : list (Generator F)) (g : Game F) : Game F :=
  mkGame (mana g) (manaPerSec g) (orbX g) (orbY g) (orbClicked g)
         (clickAnimation g) v (tickCounter g) (animationTime g)
         (rotationAngles g) (totalMultiplier g).
Definition set_tickCounter (v : Z) (g : Game F) : Game F :=
  mkGame (mana g) (manaPerSec g) (orbX g) (orbY g) (orbClicked g)
         (clickAnimation g) (generators g) v (animationTime g)
         (rotationAngles g) (totalMultiplier g).
Definition set_animationTime (v : F) (g : Game F) : Game F :=
  mkGame (mana g) (manaPerSec g) (orbX g) (orbY g) (orbClicked g)
         (clickAnimation g) (generators g) (tickCounter g) v
         (rotationAngles g) (totalMultiplier g).
Definition set_rotationAngles (v : list F) (g : Game F) : Game F :=
  mkGame (mana g) (manaPerSec g) (orbX g) (orbY g) (orbClicked g)
         (clickAnimation g) (generators g) (tickCounter g) (animationTime g)
         v (totalMultiplier g).
Definition set_totalMultiplier (v : F) (g : Game F) : Game F :=
  mkGame (mana g) (manaPerSec g) (orbX g) (orbY g) (orbClicked g)
         (clickAnimation g) (generators g) (tickCounter g) (animationTime g)
         (rotationAngles g) v.

Definition set_cost (v : F) (p : Generator F) : Generator F :=
  mkGenerator (name p) v (speedPerLevel p) (level p) (description p)
              (timer p) (manaMultiplier p).
Definition set_level (v : Z) (p : Generator F) : Generator F :=
  mkGenerator (name p) (cost p) (speedPerLevel p) v (description p)
              (timer p) (manaMultiplier p).
Definition set_manaMultiplier (v : F) (p : Generator F) : Generator F :=
  mkGenerator (name p) (cost p) (speedPerLevel p) (level p) (description p)
              (timer p) v.

(** The constant expression [2*math.Pi]: doubling is exact in binary64, so
    it is the double of the converted [math.Pi]. *)
Definition two_pi : F := fmul (fconst 2 1) fpi.

(** The product that [calculateManaPerSec] accumulates, left to right from
    1.0. *)
Definition product (gs : list (Generator F)) : F :=
  fold_left (fun acc p => fmul acc (manaMultiplier p)) gs (fconst 1 1).

(** [func (g *Game) calculateManaPerSec()]. *)
Definition calculateManaPerSec (g : Game F) : Game F :=
  let g1 := set_totalMultiplier (product (generators g)) g in
  set_manaPerSec
    (to_int64 (fadd (fmul (totalMultiplier g1) (fconst 100 1)) (fconst 5 10)))
    g1.

(** [func NewGame() *Game]. *)
Definition NewGame : Game F :=
  calculateManaPerSec
    {| mana := fconst 0 1;
       manaPerSec := 0;
       orbX := of_int (screenWidth / 2 - orbSize / 2);
       orbY := of_int (screenHeight / 2 - orbSize / 2);
       orbClicked := false;
       clickAnimation := 0;
       generators :=
         [ mkGenerator "Mana Crystal" (fconst 3 1) (fconst 1 10) 5
             "Basic mana generation crystal" 0 (fconst 1 1);
           mkGenerator "Arcane Tower" (fconst 50 1) (fconst 8 100) 0
             "Mystical mana channeling tower" 0 (fconst 1 1);
           mkGenerator "Ley Line Node" (fconst 250 1) (fconst 5 100) 0
             "Powerful magical energy nexus" 0 (fconst 1 1);
           mkGenerator "Elder Artifact" (fconst 1000 1) (fconst 2 100) 0
             "Ancient relic of immense power" 0 (fconst 1 1) ];
       tickCounter := 0;
       animationTime := fconst 0 1;
       rotationAngles := replicate 4 (fconst 0 1);
       totalMultiplier := fconst 0 1 |}.

(** *** [Update], after the click handling: one simulation tick *)

(** Lines 96-117: the click animation, the animation clock and the
    one-second accrual.  [clickAnimation--] runs under [clickAnimation > 0]
    and cannot wrap; [tickCounter++] is unguarded. *)
Definition tickStep (g : Game F) : Game F :=
  let g1 := if 0 <? clickAnimation g
            then set_clickAnimation (clickAnimation g - 1) g
            else g in
  let g2 := if clickAnimation g1 =? 0 then set_orbClicked false g1 else g1 in
  let g3 := set_animationTime (fadd (animationTime g2) (fconst 16 1000)) g2 in
  let g4 := set_tickCounter (wrap_int (tickCounter g3 + 1)) g3 in
  if 60 <=? tickCounter g4 then
    let g5 := calculateManaPerSec g4 in
    let g6 := if fltb (fconst 0 1) (totalMultiplier g5)
              then set_mana (fadd (mana g5) (totalMultiplier g5)) g5
              else g5 in
    set_tickCounter 0 g6
  else g4.

(** The radians one tick adds to the indicator of a generator. *)
Definition rotationSpeed (p : Generator F) : F :=
  let totalSpeed := fmul (speedPerLevel p) (of_int (level p)) in
  fdiv (fmul (fmul totalSpeed (fconst 2 1)) fpi) (fconst 60 1).

(** Lines 121-140: the body of the loop for index [i].  An index outside
    [rotationAngles] panics in Go: [None]. *)
Definition rotateGenerator (i : nat) (g : Game F) : option (Game F) :=
  p ← generators g !! i;
  if 0 <? level p then
    oldAngle ← rotationAngles g !! i;
    let newAngle := fadd oldAngle (rotationSpeed p) in
    let g1 := set_rotationAngles (<[i := newAngle]> (rotationAngles g)) g in
    let g2 :=
      if fltb oldAngle two_pi && fleb two_pi newAngle
      then set_generators
             (<[i := set_manaMultiplier
                       (fadd (manaMultiplier p) (fconst 1 100)) p]>
                (generators g1)) g1
      else g1 in
    let g3 :=
      if fleb two_pi newAngle
      then set_rotationAngles
             (<[i := fsub newAngle two_pi]> (rotationAngles g2)) g2
      else g2 in
    Some g3
  else Some g.

(** [for i := range g.generators]. *)
Fixpoint rotateLoop (idx : list nat) (g : Game F) : option (Game F) :=
  match idx with
  | [] => Some g
  | i :: rest => g' ← rotateGenerator i g; rotateLoop rest g'
  end.

(** The spec's [advance()]: [Update] from line 96 on. *)
Definition advance (g : Game F) : option (Game F) :=
  let g1 := tickStep g in
  rotateLoop (seq 0 (length (generators g1))) g1.

(** *** [handleGeneratorClicks] *)

(** [scalingFactor := []float64{1.15, 1.2, 1.2, 1.2}[i]]. *)
Definition scalingFactors : list F :=
  [fconst 115 100; fconst 12 10; fconst 12 10; fconst 12 10].

(** The spec's [purchase(i)]: lines 340-356.  Indexing outside [generators]
    or, on success, outside the four scaling factors panics: [None].
    [level++] runs under [level < 100] and cannot wrap. *)
Definition purchase (i : nat) (g : Game F) : option (Game F) :=
  p ← generators g !! i;
  if fleb (cost p) (mana g) then
    if level p <? 100 then
      let g1 := set_mana (fsub (mana g) (cost p)) g in
      let g2 := set_generators
                  (<[i := set_level (level p + 1) p]>
                     (generators g1)) g1 in
      let g3 := calculateManaPerSec g2 in
      scalingFactor ← scalingFactors !! i;
      p3 ← generators g3 !! i;
      Some (set_generators
              (<[i := set_cost (fmul (cost p3) scalingFactor) p3]>
                 (generators g3)) g3)
    else Some g
  else Some g.

(** The [switch i] that places the text block of generator [i]. *)
Definition textOrigin (i : nat) : Z * Z :=
  match i with
  | 0%nat => (30, 120)
  | 1%nat => (screenWidth - 400, 120)
  | 2%nat => (30, screenHeight - 200)
  | 3%nat => (screenWidth - 400, screenHeight - 200)
  | _ => (0, 0)
  end.

Definition inTextArea (i : nat) (x y : Z) : bool :=
  let '(textX, textY) := textOrigin i in
  (textX <=? x) && (x <=? textX + 370) && (textY <=? y) && (y <=? textY + 130).

(** The loop of [handleGeneratorClicks]: the first area that contains the
    click decides, then [break]. *)
Fixpoint clickLoop (x y : Z) (idx : list nat) (g : Game F) : option (Game F) :=
  match idx with
  | [] => Some g
  | i :: rest =>
      if inTextArea i x y then purchase i g else clickLoop x y rest g
  end.

Definition handleGeneratorClicks (x y : Z) (g : Game F) : option (Game F) :=
  clickLoop x y (seq 0 (length (generators g))) g.

(** [func (g *Game) Update() error], given the click of this frame, if
    any. *)
Definition Update (click : option (Z * Z)) (g : Game F) : option (Game F) :=
  g1 ← match click with
       | Some (x, y) => handleGeneratorClicks x y g
       | None => Some g
       end;
  advance g1.

(** Runs of the game: [n] ticks without a click. *)
Fixpoint advanceN (n : nat) (g : Game F) : option (Game F) :=
  match n with
  | O => Some g
  | S n' => g' ← advance g; advanceN n' g'
  end.

(** The two operations of the simulation, and the states the program can
    be in: those a run of operations from [NewGame] leads to. *)
Inductive Op := Advance | Purchase (i : nat).

Definition step (op : Op) (g : Game F) : option (Game F) :=
  match op with
  | Advance => advance g
  | Purchase i => purchase i g
  end.

Inductive reachable : Game F -> Prop :=
| reach_new : reachable NewGame
| reach_step op g g' :
    reachable g -> step op g = Some g' -> reachable g'.

(** A run of operations, in order. *)
Fixpoint run (ops : list Op) (g : Game F) : option (Game F) :=
  match ops with
  | [] => Some g
  | op :: rest => g' ← step op g; run rest g'
  end.

(** The scaling factor of generator [i] (1.0 outside the table, where
    [purchase] never succeeds). *)
Definition scalingFactor (i : nat) : F :=
  default (fconst 1 1) (scalingFactors !! i).

(** The cost of generator [i] after [n] purchases from the cost [c]. *)
Definition costAfter (i : nat) (c : F) (n : nat) : F :=
  Nat.iter n (fun c => fmul c (scalingFactor i)) c.

(** What a generator at index [i] keeps of its initial record [p0]: the
    speed; a level between the initial one and 100; a cost fixed by the
    number of purchases. *)
Definition generator_inv (i : nat) (p : Generator F) : Prop :=
  exists p0, generators NewGame !! i = Some p0 /\
    speedPerLevel p = speedPerLevel p0 /\
    level p0 <= level p <= 100 /\
    cost p = costAfter i (cost p0) (Z.to_nat (level p - level p0)).

(** The state with the display field [manaPerSec] blanked. *)
Definition without_manaPerSec (g : Game F) : Game F := set_manaPerSec 0 g.

(** What a call that touches only the two slices leaves alone. *)
Definition scalars (g : Game F) :=
  (mana g, manaPerSec g, orbX g, orbY g, orbClicked g, clickAnimation g,
   tickCounter g, animationTime g, totalMultiplier g).

(** The cache agrees with the multipliers. *)
Definition fresh (g : Game F) : Prop :=
  totalMultiplier g = product (generators g).

(** A call that runs [calculateManaPerSec]: an [advance] whose accumulator
    reaches 60, a [purchase] that succeeds. *)
Definition recomputes (op : Op) (g : Game F) : Prop :=
  match op with
  | Advance => 60 <= wrap_int (tickCounter g + 1)
  | Purchase i =>
      exists p, generators g !! i = Some p /\
                fleb (cost p) (mana g) = true /\ level p < 100
  end.

(** The result of one loop iteration on generator [p] with indicator at
    [oldAngle]. *)
Definition rotatedAngle (p : Generator F) (oldAngle : F) : F :=
  let newAngle := fadd oldAngle (rotationSpeed p) in
  if fleb two_pi newAngle then fsub newAngle two_pi else newAngle.

Definition crossing (p : Generator F) (oldAngle : F) : bool :=
  fltb oldAngle two_pi && fleb two_pi (fadd oldAngle (rotationSpeed p)).

Definition rotatedGenerator (p : Generator F) (oldAngle : F) : Generator F :=
  if crossing p oldAngle
  then set_manaMultiplier (fadd (manaMultiplier p) (fconst 1 100)) p
  else p.

(** The loop touched slot [j] once, as [rotateGenerator] prescribes. *)
Definition rotated_at (j : nat) (g g' : Game F) : Prop :=
  exists p, generators g !! j = Some p /\
    ((level p <= 0 /\ generators g' !! j = Some p /\
      rotationAngles g' !! j = rotationAngles g !! j) \/
     (0 < level p /\ exists oldAngle,
        rotationAngles g !! j = Some oldAngle /\
        generators g' !! j = Some (rotatedGenerator p oldAngle) /\
        rotationAngles g' !! j = Some (rotatedAngle p oldAngle))).

Definition untouched_at (j : nat) (g g' : Game F) : Prop :=
  generators g' !! j = generators g !! j /\
  rotationAngles g' !! j = rotationAngles g !! j.

(** ** Integers *)

Lemma wrap_int_id (z : Z) :
  min_int64 <= z <= max_int64 -> wrap_int z = z.
Proof.
  unfold min_int64, max_int64, wrap_int. intros H.
  rewrite Z.mod_small; lia.
Qed.

(** ** The product depends on the multipliers only *)

Lemma product_fmap (gs : list (Generator F)) :
  product gs = fold_left fmul (manaMultiplier <$> gs) (fconst 1 1).
Proof.
  unfold product. generalize (fconst 1 1).
  induction gs as [|p gs IH]; intros acc; simpl; [reflexivity|apply IH].
Qed.

Lemma product_ext (gs gs' : list (Generator F)) :
  manaMultiplier <$> gs' = manaMultiplier <$> gs -> product gs' = product gs.
Proof. intros H. now rewrite !product_fmap, H. Qed.

(** ** [calculateManaPerSec] and [tickStep] *)

Lemma calculateManaPerSec_fresh (g : Game F) : fresh (calculateManaPerSec g).
Proof. reflexivity. Qed.

Ltac tick_cases :=
  unfold tickStep; cbv zeta;
  match goal with
  | |- context [0 <? clickAnimation ?g] => destruct (0 <? clickAnimation g)
  end; simpl;
  match goal with
  | |- context [?a =? 0] => destruct (a =? 0)
  end; simpl;
  match goal with
  | |- context [60 <=? ?a] => destruct (60 <=? a)
  end; simpl;
  try match goal with
  | |- context [fltb ?a ?b] => destruct (fltb a b)
  end; simpl; reflexivity.

Lemma tickStep_generators (g : Game F) : generators (tickStep g) = generators g.
Proof. tick_cases. Qed.

Lemma tickStep_rotationAngles (g : Game F) :
  rotationAngles (tickStep g) = rotationAngles g.
Proof. tick_cases. Qed.

Lemma tickStep_tickCounter (g : Game F) :
  tickCounter (tickStep g) =
  if 60 <=? wrap_int (tickCounter g + 1) then 0
  else wrap_int (tickCounter g + 1).
Proof. tick_cases. Qed.

Lemma tickStep_totalMultiplier (g : Game F) :
  totalMultiplier (tickStep g) =
  if 60 <=? wrap_int (tickCounter g + 1) then product (generators g)
  else totalMultiplier g.
Proof. tick_cases. Qed.

Lemma tickStep_mana (g : Game F) :
  mana (tickStep g) =
  if (60 <=? wrap_int (tickCounter g + 1))
     && fltb (fconst 0 1) (product (generators g))
  then fadd (mana g) (product (generators g))
  else mana g.
Proof. tick_cases. Qed.

Lemma tickStep_manaPerSec (g : Game F) :
  manaPerSec (tickStep g) =
  if 60 <=? wrap_int (tickCounter g + 1)
  then to_int64 (fadd (fmul (product (generators g)) (fconst 100 1))
                      (fconst 5 10))
  else manaPerSec g.
Proof. tick_cases. Qed.

(** ** One iteration of the rotation loop *)

Lemma rotateGenerator_eq (i : nat) (g : Game F) (p : Generator F) :
  generators g !! i = Some p ->
  rotateGenerator i g =
  if 0 <? level p then
    oldAngle ← rotationAngles g !! i;
    Some (set_generators (<[i := rotatedGenerator p oldAngle]> (generators g))
            (set_rotationAngles
               (<[i := rotatedAngle p oldAngle]> (rotationAngles g)) g))
  else Some g.
Proof.
  intros Hp. unfold rotateGenerator. rewrite Hp. simpl.
  destruct (0 <? level p); [|reflexivity].
  destruct (rotationAngles g !! i) as [oldAngle|]; [|reflexivity]. simpl.
  unfold rotatedGenerator, rotatedAngle, crossing. cbv zeta.
  destruct (fltb oldAngle two_pi); simpl;
    destruct (fleb two_pi (fadd oldAngle (rotationSpeed p))); simpl;
    unfold set_generators, set_rotationAngles; simpl;
    rewrite ?list_insert_insert_eq, ?(list_insert_id _ _ _ Hp);
    try reflexivity.
  all: destruct g; reflexivity.
Qed.

Lemma rotateGenerator_scalars (i : nat) (g g' : Game F) :
  rotateGenerator i g = Some g' -> scalars g' = scalars g.
Proof.
  intros H. destruct (generators g !! i) as [p|] eqn:Hp.
  - rewrite (rotateGenerator_eq _ _ _ Hp) in H.
    destruct (0 <? level p); [|congruence].
    destruct (rotationAngles g !! i); simpl in H; [|discriminate].
    injection H as <-. reflexivity.
  - unfold rotateGenerator in H. rewrite Hp in H. discriminate.
Qed.

Lemma rotateGenerator_lengths (i : nat) (g g' : Game F) :
  rotateGenerator i g = Some g' ->
  length (generators g') = length (generators g) /\
  length (rotationAngles g') = length (rotationAngles g).
Proof.
  intros H. destruct (generators g !! i) as [p|] eqn:Hp.
  - rewrite (rotateGenerator_eq _ _ _ Hp) in H.
    destruct (0 <? level p); [|split; congruence].
    destruct (rotationAngles g !! i); simpl in H; [|discriminate].
    injection H as <-. simpl. now rewrite !length_insert.
  - unfold rotateGenerator in H. rewrite Hp in H. discriminate.
Qed.

Lemma rotateGenerator_other (i j : nat) (g g' : Game F) :
  rotateGenerator i g = Some g' -> i <> j -> untouched_at j g g'.
Proof.
  intros H Hij. unfold untouched_at.
  destruct (generators g !! i) as [p|] eqn:Hp.
  - rewrite (rotateGenerator_eq _ _ _ Hp) in H.
    destruct (0 <? level p); [|split; congruence].
    destruct (rotationAngles g !! i); simpl in H; [|discriminate].
    injection H as <-. simpl. now rewrite !list_lookup_insert_ne.
  - unfold rotateGenerator in H. rewrite Hp in H. discriminate.
Qed.

Lemma rotateGenerator_at (i : nat) (g g' : Game F) :
  rotateGenerator i g = Some g' -> rotated_at i g g'.
Proof.
  intros H. unfold rotated_at.
  destruct (generators g !! i) as [p|] eqn:Hp.
  - exists p. split; [reflexivity|].
    rewrite (rotateGenerator_eq _ _ _ Hp) in H.
    destruct (0 <? level p) eqn:Hl.
    + right. apply Z.ltb_lt in Hl. split; [exact Hl|].
      destruct (rotationAngles g !! i) as [oldAngle|] eqn:Ha;
        simpl in H; [|discriminate].
      injection H as <-. exists oldAngle. simpl.
      rewrite !list_lookup_insert_eq;
        eauto using lookup_lt_Some.
    + left. apply Z.ltb_ge in Hl. injection H as <-. auto.
  - unfold rotateGenerator in H. rewrite Hp in H. discriminate.
Qed.

Lemma rotateGenerator_total (i : nat) (g : Game F) :
  (i < length (generators g))%nat ->
  (length (generators g) <= length (rotationAngles g))%nat ->
  is_Some (rotateGenerator i g).
Proof.
  intros Hi Hlen.
  destruct (lookup_lt_is_Some_2 (generators g) i Hi) as [p Hp].
  destruct (lookup_lt_is_Some_2 (rotationAngles g) i ltac:(lia)) as [a Ha].
  rewrite (rotateGenerator_eq _ _ _ Hp), Ha. simpl.
  destruct (0 <? level p); eauto.
Qed.

(** ** The whole loop *)

Lemma rotateLoop_scalars (idx : list nat) :
  forall g g', rotateLoop idx g = Some g' -> scalars g' = scalars g.
Proof.
  induction idx as [|i idx IH]; simpl; intros g g' H.
  - congruence.
  - destruct (rotateGenerator i g) as [g1|] eqn:H1; simpl in H; [|discriminate].
    rewrite (IH _ _ H). eauto using rotateGenerator_scalars.
Qed.

Lemma rotateLoop_lengths (idx : list nat) :
  forall g g', rotateLoop idx g = Some g' ->
  length (generators g') = length (generators g) /\
  length (rotationAngles g') = length (rotationAngles g).
Proof.
  induction idx as [|i idx IH]; simpl; intros g g' H.
  - split; congruence.
  - destruct (rotateGenerator i g) as [g1|] eqn:H1; simpl in H; [|discriminate].
    destruct (IH _ _ H) as [-> ->]. eauto using rotateGenerator_lengths.
Qed.

Lemma rotateLoop_other (idx : list nat) (j : nat) :
  j ∉ idx ->
  forall g g', rotateLoop idx g = Some g' -> untouched_at j g g'.
Proof.
  induction idx as [|i idx IH]; simpl; intros Hj g g' H.
  - injection H as <-. split; reflexivity.
  - apply not_elem_of_cons in Hj as [Hne Hj].
    assert (i <> j) by congruence.
    destruct (rotateGenerator i g) as [g1|] eqn:H1; simpl in H; [|discriminate].
    destruct (IH Hj _ _ H) as [Hg Ha].
    destruct (rotateGenerator_other _ j _ _ H1 ltac:(congruence)) as [Hg1 Ha1].
    split; congruence.
Qed.

Lemma rotateLoop_at (idx : list nat) (j : nat) :
  NoDup idx -> j ∈ idx ->
  forall g g', rotateLoop idx g = Some g' -> rotated_at j g g'.
Proof.
  induction idx as [|i idx IH]; simpl; intros Hnd Hj g g' H.
  - now apply elem_of_nil in Hj.
  - apply NoDup_cons in Hnd as [Hi Hnd].
    destruct (rotateGenerator i g) as [g1|] eqn:H1; simpl in H; [|discriminate].
    destruct (decide (j = i)) as [->|Hne].
    + destruct (rotateLoop_other _ _ Hi _ _ H) as [Hg Ha].
      destruct (rotateGenerator_at _ _ _ H1) as (p & Hp & Hcase).
      exists p. split; [exact Hp|]. rewrite Hg, Ha. exact Hcase.
    + apply elem_of_cons in Hj as [?|Hj]; [contradiction|].
      destruct (rotateGenerator_other _ j _ _ H1 ltac:(congruence)) as [Hg Ha].
      destruct (IH Hnd Hj _ _ H) as (p & Hp & Hcase).
      exists p. rewrite <- Hg, <- Ha. auto.
Qed.

Lemma rotateLoop_total (idx : list nat) :
  forall g,
  (forall i, i ∈ idx -> (i < length (generators g))%nat) ->
  (length (generators g) <= length (rotationAngles g))%nat ->
  is_Some (rotateLoop idx g).
Proof.
  induction idx as [|i idx IH]; simpl; intros g Hidx Hlen.
  - eauto.
  - destruct (rotateGenerator_total i g) as [g1 H1];
      [apply Hidx; left|exact Hlen|].
    rewrite H1. simpl.
    destruct (rotateGenerator_lengths _ _ _ H1) as [Hg Ha].
    apply IH; rewrite ?Hg, ?Ha; [|exact Hlen].
    intros k Hk. apply Hidx. now right.
Qed.

(** ** [advance] *)

Lemma advance_scalars (g g' : Game F) :
  advance g = Some g' -> scalars g' = scalars (tickStep g).
Proof. apply rotateLoop_scalars. Qed.

Lemma advance_lengths (g g' : Game F) :
  advance g = Some g' ->
  length (generators g') = length (generators g) /\
  length (rotationAngles g') = length (rotationAngles g).
Proof.
  intros H. apply rotateLoop_lengths in H.
  now rewrite tickStep_generators, tickStep_rotationAngles in H.
Qed.

Lemma advance_at (j : nat) (g g' : Game F) :
  advance g = Some g' -> (j < length (generators g))%nat ->
  rotated_at j g g'.
Proof.
  intros H Hj. unfold advance in H. cbv zeta in H.
  assert (Hin : j ∈ seq 0 (length (generators (tickStep g)))).
  { rewrite tickStep_generators. apply elem_of_seq. lia. }
  pose proof (rotateLoop_at _ j (NoDup_seq _ _) Hin _ _ H) as R.
  unfold rotated_at in *.
  rewrite tickStep_generators, tickStep_rotationAngles in R. exact R.
Qed.

Lemma advance_total (g : Game F) :
  (length (generators g) <= length (rotationAngles g))%nat ->
  is_Some (advance g).
Proof.
  intros Hlen. apply rotateLoop_total.
  - intros i Hi. apply elem_of_seq in Hi. lia.
  - now rewrite tickStep_generators, tickStep_rotationAngles.
Qed.

Lemma advance_tickCounter (g g' : Game F) :
  advance g = Some g' ->
  tickCounter g' =
  if 60 <=? wrap_int (tickCounter g + 1) then 0
  else wrap_int (tickCounter g + 1).
Proof.
  intros H. apply advance_scalars in H.
  rewrite <- tickStep_tickCounter. unfold scalars in H. congruence.
Qed.

Lemma advance_totalMultiplier (g g' : Game F) :
  advance g = Some g' ->
  totalMultiplier g' =
  if 60 <=? wrap_int (tickCounter g + 1) then product (generators g)
  else totalMultiplier g.
Proof.
  intros H. apply advance_scalars in H.
  rewrite <- tickStep_totalMultiplier. unfold scalars in H. congruence.
Qed.

Lemma advance_mana (g g' : Game F) :
  advance g = Some g' ->
  mana g' =
  if (60 <=? wrap_int (tickCounter g + 1))
     && fltb (fconst 0 1) (product (generators g))
  then fadd (mana g) (product (generators g))
  else mana g.
Proof.
  intros H. apply advance_scalars in H.
  rewrite <- tickStep_mana. unfold scalars in H. congruence.
Qed.

Lemma advance_manaPerSec (g g' : Game F) :
  advance g = Some g' ->
  manaPerSec g' =
  if 60 <=? wrap_int (tickCounter g + 1)
  then to_int64 (fadd (fmul (product (generators g)) (fconst 100 1))
                      (fconst 5 10))
  else manaPerSec g.
Proof.
  intros H. apply advance_scalars in H.
  rewrite <- tickStep_manaPerSec. unfold scalars in H. congruence.
Qed.

(** ** [purchase] *)

Lemma purchase_fail (i : nat) (g : Game F) (p : Generator F) :
  generators g !! i = Some p ->
  fleb (cost p) (mana g) = false \/ 100 <= level p ->
  purchase i g = Some g.
Proof.
  intros Hp H. unfold purchase. rewrite Hp. simpl.
  destruct (fleb (cost p) (mana g)); [|reflexivity].
  destruct H as [H|H]; [discriminate|].
  apply Z.ltb_ge in H. now rewrite H.
Qed.

Lemma purchase_success (i : nat) (g : Game F) (p : Generator F) (f : F) :
  generators g !! i = Some p ->
  fleb (cost p) (mana g) = true -> level p < 100 ->
  scalingFactors !! i = Some f ->
  purchase i g =
  Some (set_generators
          (<[i := set_cost (fmul (cost p) f) (set_level (level p + 1) p)]>
             (generators g))
          (calculateManaPerSec
             (set_generators
                (<[i := set_level (level p + 1) p]> (generators g))
                (set_mana (fsub (mana g) (cost p)) g)))).
Proof.
  intros Hp Hc Hl Hf. unfold purchase. rewrite Hp. simpl. rewrite Hc.
  apply Z.ltb_lt in Hl. rewrite Hl, Hf. simpl.
  rewrite list_lookup_insert_eq by eauto using lookup_lt_Some. simpl.
  unfold set_generators. simpl. now rewrite list_insert_insert_eq.
Qed.

Lemma fmap_insert_same_multiplier (i : nat) (gs : list (Generator F))
      (p q : Generator F) :
  gs !! i = Some p -> manaMultiplier q = manaMultiplier p ->
  manaMultiplier <$> <[i := q]> gs = manaMultiplier <$> gs.
Proof.
  intros Hp Hq. rewrite list_fmap_insert. apply list_insert_id.
  now rewrite list_lookup_fmap, Hp, Hq.
Qed.

Lemma purchase_multipliers (i : nat) (g g' : Game F) :
  purchase i g = Some g' ->
  manaMultiplier <$> generators g' = manaMultiplier <$> generators g.
Proof.
  intros H. destruct (generators g !! i) as [p|] eqn:Hp;
    [|unfold purchase in H; rewrite Hp in H; discriminate].
  destruct (fleb (cost p) (mana g)) eqn:Hc;
    [|rewrite (purchase_fail _ _ _ Hp) in H by auto; congruence].
  destruct (Z.lt_ge_cases (level p) 100) as [Hl|Hl];
    [|rewrite (purchase_fail _ _ _ Hp) in H by auto; congruence].
  destruct (scalingFactors !! i) as [f|] eqn:Hf.
  - rewrite (purchase_success _ _ _ _ Hp Hc Hl Hf) in H.
    injection H as <-. simpl.
    now apply fmap_insert_same_multiplier with p.
  - unfold purchase in H. rewrite Hp in H. simpl in H. rewrite Hc in H.
    apply Z.ltb_lt in Hl. rewrite Hl, Hf in H. discriminate.
Qed.

Lemma purchase_lengths (i : nat) (g g' : Game F) :
  purchase i g = Some g' ->
  length (generators g') = length (generators g) /\
  rotationAngles g' = rotationAngles g /\
  tickCounter g' = tickCounter g.
Proof.
  intros H. destruct (generators g !! i) as [p|] eqn:Hp;
    [|unfold purchase in H; rewrite Hp in H; discriminate].
  destruct (fleb (cost p) (mana g)) eqn:Hc;
    [|rewrite (purchase_fail _ _ _ Hp) in H by auto;
      injection H as <-; auto].
  destruct (Z.lt_ge_cases (level p) 100) as [Hl|Hl];
    [|rewrite (purchase_fail _ _ _ Hp) in H by auto;
      injection H as <-; auto].
  destruct (scalingFactors !! i) as [f|] eqn:Hf.
  - rewrite (purchase_success _ _ _ _ Hp Hc Hl Hf) in H.
    injection H as <-. simpl. now rewrite length_insert.
  - unfold purchase in H. rewrite Hp in H. simpl in H. rewrite Hc in H.
    apply Z.ltb_lt in Hl. rewrite Hl, Hf in H. discriminate.
Qed.

Lemma purchase_total (i : nat) (g : Game F) :
  (i < length (generators g))%nat -> (length (generators g) <= 4)%nat ->
  is_Some (purchase i g).
Proof.
  intros Hi Hlen.
  destruct (lookup_lt_is_Some_2 (generators g) i Hi) as [p Hp].
  destruct (fleb (cost p) (mana g)) eqn:Hc;
    [|rewrite (purchase_fail _ _ _ Hp) by auto; eauto].
  destruct (Z.lt_ge_cases (level p) 100) as [Hl|Hl];
    [|rewrite (purchase_fail _ _ _ Hp) by auto; eauto].
  destruct (lookup_lt_is_Some_2 scalingFactors i) as [f Hf];
    [simpl; lia|].
  rewrite (purchase_success _ _ _ _ Hp Hc Hl Hf). eauto.
Qed.

Lemma purchase_cases (i : nat) (g g' : Game F) :
  purchase i g = Some g' ->
  g' = g \/
  exists p f,
    generators g !! i = Some p /\ fleb (cost p) (mana g) = true /\
    level p < 100 /\ scalingFactors !! i = Some f /\
    g' = set_generators
           (<[i := set_cost (fmul (cost p) f) (set_level (level p + 1) p)]>
              (generators g))
           (calculateManaPerSec
              (set_generators
                 (<[i := set_level (level p + 1) p]> (generators g))
                 (set_mana (fsub (mana g) (cost p)) g))).
Proof.
  intros H. destruct (generators g !! i) as [p|] eqn:Hp;
    [|unfold purchase in H; rewrite Hp in H; discriminate].
  destruct (fleb (cost p) (mana g)) eqn:Hc;
    [|rewrite (purchase_fail _ _ _ Hp) in H by auto; left; congruence].
  destruct (Z.lt_ge_cases (level p) 100) as [Hl|Hl];
    [|rewrite (purchase_fail _ _ _ Hp) in H by auto; left; congruence].
  destruct (scalingFactors !! i) as [f|] eqn:Hf.
  - rewrite (purchase_success _ _ _ _ Hp Hc Hl Hf) in H.
    injection H as <-. right. exists p, f. auto.
  - unfold purchase in H. rewrite Hp in H. simpl in H. rewrite Hc in H.
    apply Z.ltb_lt in Hl. rewrite Hl, Hf in H. discriminate.
Qed.

(** ** Runs *)

Lemma advanceN_reachable (n : nat) :
  forall g g', reachable g -> advanceN n g = Some g' -> reachable g'.
Proof.
  induction n as [|n IH]; simpl; intros g g' Hr H.
  - now injection H as <-.
  - destruct (advance g) as [g1|] eqn:H1; simpl in H; [|discriminate].
    eapply IH; [|exact H]. now apply reach_step with Advance g.
Qed.

(** Every reachable state has its four generators and four indicators,
    and an accumulator below 60: no operation panics. *)
Lemma reachable_shape (g : Game F) :
  reachable g ->
  length (generators g) = 4%nat /\ length (rotationAngles g) = 4%nat /\
  0 <= tickCounter g < 60.
Proof.
  induction 1 as [|op g g' _ (Hg & Ha & Ht) Hstep].
  - simpl. repeat split; lia.
  - destruct op as [|i]; simpl in Hstep.
    + destruct (advance_lengths _ _ Hstep) as [-> ->].
      rewrite (advance_tickCounter _ _ Hstep).
      rewrite (wrap_int_id (tickCounter g + 1))
        by (unfold min_int64, max_int64; lia).
      destruct (60 <=? tickCounter g + 1) eqn:E;
        [|apply Z.leb_gt in E]; repeat split; lia.
    + destruct (purchase_lengths _ _ _ Hstep) as (-> & -> & ->). auto.
Qed.

Lemma reachable_step_total (g : Game F) (op : Op) :
  reachable g ->
  match op with Advance => True
           | Purchase i => (i < 4)%nat end ->
  is_Some (step op g).
Proof.
  intros Hr Hop. destruct (reachable_shape _ Hr) as (Hg & Ha & _).
  destruct op as [|i]; simpl.
  - apply advance_total. lia.
  - apply purchase_total; lia.
Qed.

Lemma run_reachable (ops : list Op) :
  forall g g', reachable g -> run ops g = Some g' -> reachable g'.
Proof.
  induction ops as [|op ops IH]; simpl; intros g g' Hr H.
  - now injection H as <-.
  - destruct (step op g) as [g1|] eqn:H1; simpl in H; [|discriminate].
    eapply IH; [|exact H]. now apply reach_step with op g.
Qed.

(** ** [manaPerSec] is written, never read *)

Lemma tickStep_manaPerSec_irrelevant (m : Z) (g : Game F) :
  without_manaPerSec (tickStep (set_manaPerSec m g)) =
  without_manaPerSec (tickStep g).
Proof.
  unfold tickStep, without_manaPerSec; cbv zeta; simpl.
  destruct (0 <? clickAnimation g); simpl;
    match goal with |- context [?a =? 0] => destruct (a =? 0) end; simpl;
    match goal with |- context [60 <=? ?a] => destruct (60 <=? a) end; simpl;
    try match goal with |- context [fltb ?a ?b] => destruct (fltb a b) end;
    reflexivity.
Qed.

Lemma rotateGenerator_manaPerSec (i : nat) (m : Z) (g : Game F) :
  rotateGenerator i (set_manaPerSec m g) =
  set_manaPerSec m <$> rotateGenerator i g.
Proof.
  unfold rotateGenerator; simpl.
  destruct (generators g !! i) as [p|]; simpl; [|reflexivity].
  destruct (0 <? level p); [|reflexivity].
  destruct (rotationAngles g !! i) as [a|]; simpl; [|reflexivity].
  destruct (fltb a two_pi); simpl;
    destruct (fleb two_pi (fadd a (rotationSpeed p))); reflexivity.
Qed.

Lemma rotateLoop_manaPerSec (idx : list nat) (m : Z) :
  forall g,
  rotateLoop idx (set_manaPerSec m g) = set_manaPerSec m <$> rotateLoop idx g.
Proof.
  induction idx as [|i idx IH]; simpl; intros g; [reflexivity|].
  rewrite rotateGenerator_manaPerSec.
  destruct (rotateGenerator i g) as [g1|]; simpl; [apply IH|reflexivity].
Qed.

Lemma set_manaPerSec_back (a b : Game F) :
  without_manaPerSec a = without_manaPerSec b ->
  a = set_manaPerSec (manaPerSec a) b.
Proof.
  destruct a, b. unfold without_manaPerSec, set_manaPerSec. simpl.
  intros H. injection H as -> -> -> -> -> -> -> -> -> ->. reflexivity.
Qed.

Lemma advance_manaPerSec_irrelevant (m : Z) (g : Game F) :
  without_manaPerSec <$> advance (set_manaPerSec m g) =
  without_manaPerSec <$> advance g.
Proof.
  unfold advance. cbv zeta.
  rewrite (set_manaPerSec_back _ _ (tickStep_manaPerSec_irrelevant m g)).
  simpl. rewrite rotateLoop_manaPerSec.
  destruct (rotateLoop _ (tickStep g)) as [g1|]; reflexivity.
Qed.

Lemma purchase_manaPerSec_irrelevant (i : nat) (m : Z) (g : Game F) :
  without_manaPerSec <$> purchase i (set_manaPerSec m g) =
  without_manaPerSec <$> purchase i g.
Proof.
  unfold purchase; simpl.
  destruct (generators g !! i) as [p|]; simpl; [|reflexivity].
  destruct (fleb (cost p) (mana g)); [|reflexivity].
  destruct (level p <? 100); [|reflexivity].
  destruct (scalingFactors !! i) as [f|]; simpl; [|reflexivity].
  destruct (<[i:=set_level (level p + 1) p]> (generators g) !! i);
    reflexivity.
Qed.

(** ** What never changes, and what the level determines *)

Lemma advance_generator (i : nat) (g g' : Game F) (p' : Generator F) :
  advance g = Some g' -> generators g' !! i = Some p' ->
  exists p, generators g !! i = Some p /\
    (p' = p \/
     0 < level p /\
     p' = set_manaMultiplier (fadd (manaMultiplier p) (fconst 1 100)) p).
Proof.
  intros H Hp'.
  assert (Hi : (i < length (generators g))%nat).
  { destruct (advance_lengths _ _ H) as [<- _]. eauto using lookup_lt_Some. }
  destruct (advance_at i g g' H Hi)
    as (p & Hp & [(_ & Hg & _)|(Hl & a & _ & Hg & _)]);
    rewrite Hp' in Hg; injection Hg as ->; exists p; split; auto.
  unfold rotatedGenerator. destruct (crossing p a); auto.
Qed.

Lemma purchase_generator (k i : nat) (g g' : Game F) (p' : Generator F) :
  purchase k g = Some g' -> generators g' !! i = Some p' ->
  exists p, generators g !! i = Some p /\
    (p' = p \/
     exists f, i = k /\ scalingFactors !! i = Some f /\ level p < 100 /\
       fleb (cost p) (mana g) = true /\
       p' = set_cost (fmul (cost p) f) (set_level (level p + 1) p)).
Proof.
  intros H Hp'.
  destruct (purchase_cases _ _ _ H)
    as [->|(p & f & Hp & Hc & Hl & Hf & ->)]; [eauto|].
  simpl in Hp'. destruct (decide (k = i)) as [->|Hne].
  - rewrite list_lookup_insert_eq in Hp' by eauto using lookup_lt_Some.
    injection Hp' as <-. exists p. split; [exact Hp|]. right. exists f. auto.
  - rewrite list_lookup_insert_ne in Hp' by exact Hne. eauto.
Qed.

Lemma reachable_generators (g : Game F) :
  reachable g ->
  forall i p, generators g !! i = Some p -> generator_inv i p.
Proof.
  induction 1 as [|op g g' _ IH Hstep]; intros i p' Hp'.
  - exists p'. split; [exact Hp'|]. split; [reflexivity|].
    rewrite Z.sub_diag. simpl.
    destruct i as [|[|[|[|i]]]]; simpl in Hp'; try discriminate;
      injection Hp' as <-; simpl; repeat split; lia.
  - destruct op as [|k]; simpl in Hstep.
    + destruct (advance_generator _ _ _ _ Hstep Hp')
        as (p & Hp & [->|(_ & ->)]); [exact (IH i p Hp)|].
      destruct (IH i p Hp) as (p0 & H0 & Hs & Hl & Hc).
      exists p0. auto.
    + destruct (purchase_generator _ _ _ _ _ Hstep Hp')
        as (p & Hp & [->|(f & -> & Hf & Hl & _ & ->)]); [exact (IH i p Hp)|].
      destruct (IH k p Hp) as (p0 & H0 & Hs & Hl0 & Hc).
      exists p0. split; [exact H0|]. split; [exact Hs|]. simpl.
      split; [lia|].
      replace (Z.to_nat (level p + 1 - level p0))
        with (S (Z.to_nat (level p - level p0))) by lia.
      rewrite Hc. unfold costAfter, scalingFactor. rewrite Hf. reflexivity.
Qed.

(** ** Mana stays non-negative, given the order laws it rests on *)

Section NonNegativeMana.

Variable safe_cost : F -> Prop.
Hypothesis zero_nonneg : fleb (fconst 0 1) (fconst 0 1) = true.
Hypothesis add_nonneg :
  forall a t, fleb (fconst 0 1) a = true -> fltb (fconst 0 1) t = true ->
              fleb (fconst 0 1) (fadd a t) = true.
Hypothesis sub_nonneg :
  forall a c, safe_cost c -> fleb c a = true ->
              fleb (fconst 0 1) (fsub a c) = true.
Hypothesis costs_safe :
  forall i p, generator_inv i p -> safe_cost (cost p).

Lemma reachable_mana_nonneg (g : Game F) :
  reachable g -> fleb (fconst 0 1) (mana g) = true.
Proof.
  induction 1 as [|op g g' Hr IH Hstep]; [exact zero_nonneg|].
  destruct op as [|k]; simpl in Hstep.
  - rewrite (advance_mana _ _ Hstep).
    destruct (60 <=? wrap_int (tickCounter g + 1)); simpl; [|exact IH].
    destruct (fltb (fconst 0 1) (product (generators g))) eqn:E;
      [|exact IH].
    now apply add_nonneg.
  - destruct (purchase_cases _ _ _ Hstep)
      as [->|(p & f & Hp & Hc & Hl & Hf & ->)]; [exact IH|].
    simpl. apply sub_nonneg; [|exact Hc].
    eapply costs_safe, reachable_generators; eauto.
Qed.

End NonNegativeMana.

(** ** The indicators stay in [0, 2π), given the bound on one step *)

Definition in_turn (a : F) : Prop :=
  fleb (fconst 0 1) a = true /\ fltb a two_pi = true.

Section AngleRange.

Hypothesis zero_in_turn : in_turn (fconst 0 1).
Hypothesis step_in_turn :
  forall i p a, generator_inv i p -> 0 < level p -> in_turn a ->
                in_turn (rotatedAngle p a).

Lemma reachable_angles_in_turn (g : Game F) :
  reachable g ->
  forall i a, rotationAngles g !! i = Some a -> in_turn a.
Proof.
  induction 1 as [|op g g' Hr IH Hstep]; intros i a Ha.
  - destruct i as [|[|[|[|i]]]]; simpl in Ha; try discriminate;
      injection Ha as <-; exact zero_in_turn.
  - destruct op as [|k]; simpl in Hstep.
    + destruct (reachable_shape _ Hr) as (Hg & Hl & _).
      assert (Hi : (i < length (generators g))%nat).
      { destruct (advance_lengths _ _ Hstep) as [_ Hl'].
        apply lookup_lt_Some in Ha. lia. }
      destruct (advance_at i g g' Hstep Hi)
        as (p & Hp & [(_ & _ & Hr')|(Hlev & a0 & Ha0 & _ & Hr')]);
        rewrite Ha in Hr'.
      * symmetry in Hr'. exact (IH i a Hr').
      * injection Hr' as ->. apply (step_in_turn i); eauto.
        eapply reachable_generators; eauto.
    + destruct (purchase_lengths _ _ _ Hstep) as (_ & Hr' & _).
      rewrite Hr' in Ha. exact (IH i a Ha).
Qed.

End AngleRange.

End Game.


(** * The claims *)

(** The state of the purchase scenario: the initial game (generator 0 at cost
    3.0 and level 5) with 3.0 mana in the pool. *)
Definition scenario_state {FL : Float64} : Game F :=
  set_mana (fconst 3 1) NewGame.

(** ** The product of the multipliers *)

(** The product of the multipliers, as the specification speaks of it: the
    [manaMultiplier] of the generators, in order, multiplied from 1.0 on. *)
Definition multiplierProduct {FL : Float64} (g : Game F) : F :=
  foldl fmul (fconst 1 1) (manaMultiplier <$> generators g).

(** A multiplier after [n] revolutions: 1.0 incremented [n] times by 0.01. *)
Definition incremented {FL : Float64} (n : nat) : F :=
  Nat.iter n (fun m => fadd m (fconst 1 100)) (fconst 1 1).

(** A run of 2760 ticks, a purchase of generator 1 and 749 more ticks: the
    next tick, the 30th of its second, carries the indicator of generator 1
    across 2π. *)
Definition late_crossing_run : list Op :=
  replicate 2760 Advance ++ [Purchase 1] ++ replicate 749 Advance.

(** A state no run leads to, with generator 0 at level 1300: one tick turns
    its indicator by more than two revolutions. *)
Definition fast_state {FL : Float64} : Game F :=
  set_generators
    (<[0%nat := mkGenerator "Mana Crystal" (fconst 3 1) (fconst 1 10) 1300
                  "Basic mana generation crystal" 0 (fconst 1 1)]>
       (generators NewGame))
    NewGame.

Lemma product_foldl {FL : Float64} (gs : list (Generator F)) :
  product gs = foldl fmul (fconst 1 1) (manaMultiplier <$> gs).
Proof.
  unfold product. generalize (fconst 1 1).
  induction gs as [|p gs IH]; intros acc; simpl; [reflexivity|apply IH].
Qed.

Lemma product_multiplierProduct {FL : Float64} (g : Game F) :
  product (generators g) = multiplierProduct g.
Proof. apply product_foldl. Qed.

Lemma multiplierProduct_ext {FL : Float64} (g g' : Game F) :
  manaMultiplier <$> generators g' = manaMultiplier <$> generators g ->
  multiplierProduct g' = multiplierProduct g.
Proof. unfold multiplierProduct. now intros ->. Qed.

Lemma purchase_success_multipliers
    {FL : Float64} (i : nat) (g g' : Game F) (p : Generator F) :
  purchase i g = Some g' ->
  generators g !! i = Some p ->
  fleb (cost p) (mana g) = true -> level p < 100 ->
  manaMultiplier <$> generators g' = manaMultiplier <$> generators g /\
  totalMultiplier g' = multiplierProduct g.
Proof.
  intros H Hp Hc Hl.
  assert (Hf : is_Some (scalingFactors !! i)).
  { unfold purchase in H. rewrite Hp in H. simpl in H.
    rewrite Hc in H. apply Z.ltb_lt in Hl. rewrite Hl in H.
    destruct (scalingFactors !! i); [eauto|discriminate]. }
  destruct Hf as [f Hf].
  rewrite (purchase_success _ _ _ _ Hp Hc Hl Hf) in H.
  injection H as <-. simpl. split.
  - now apply fmap_insert_same_multiplier with p.
  - rewrite <- product_multiplierProduct. apply product_ext.
    now apply fmap_insert_same_multiplier with p.
Qed.

(** ** Purchases *)

(** C2, as the code has it: a [purchase(i)] called with [mana >= cost] and
    [level < 100] returns, and afterwards mana is the old mana minus the old
    cost, the level is one higher, the cost is the [float64] product of the
    old cost and the scaling factor of the index (1.15 for generator 0, 1.2
    for generators 1 to 3), the cache and [manaPerSec] have been recomputed
    from the multipliers, and nothing else of the generators, the indicators
    or the accumulator has changed.  In the scenario (cost 3.0, level 5, mana
    3.0) the result is mana 0.0, level 6 and cost 3.0 x 1.15, which in
    binary64 is 3.4499999999999997, the float just below 3.45.  After 240
    ticks from [NewGame] the cache is 1.01 while the multiplier of generator
    0 is 1.02; a purchase of generator 0 there sets the cache to 1.02. *)
Theorem purchase_success_effect :
  (forall (FL : Float64) (i : nat) (g : Game F) (p : Generator F),
      (i < 4)%nat ->
      generators g !! i = Some p ->
      fleb (cost p) (mana g) = true ->
      level p < 100 ->
      exists (g' : Game F) (p' : Generator F),
        purchase i g = Some g' /\
        mana g' = fsub (mana g) (cost p) /\
        generators g' !! i = Some p' /\
        level p' = level p + 1 /\
        cost p' =
          fmul (cost p)
               (if decide (i = 0%nat) then fconst 115 100 else fconst 12 10) /\
        name p' = name p /\ speedPerLevel p' = speedPerLevel p /\
        description p' = description p /\ timer p' = timer p /\
        manaMultiplier p' = manaMultiplier p /\
        manaMultiplier <$> generators g' = manaMultiplier <$> generators g /\
        totalMultiplier g' = multiplierProduct g' /\
        manaPerSec g' =
          to_int64 (fadd (fmul (multiplierProduct g') (fconst 100 1))
                         (fconst 5 10)) /\
        (forall j, j <> i -> generators g' !! j = generators g !! j) /\
        rotationAngles g' = rotationAngles g /\
        tickCounter g' = tickCounter g) /\
  (exists (g' : Game (@F IEEE)) (p' : Generator (@F IEEE)),
      purchase 0 scenario_state = Some g' /\
      generators g' !! 0%nat = Some p' /\
      mana g' = 0%float /\
      level p' = 6 /\
      cost p' = fmul (fconst 3 1) (fconst 115 100) /\
      cost p' = 0x1.b999999999999p+1%float /\
      PrimFloat.ltb (cost p') (IEEE754.const 345 100) = true /\
      IEEE754.within (IEEE754.const 1 (10 ^ 15))
                     (cost p') (IEEE754.const 345 100) = true) /\
  (exists g g' : Game (@F IEEE),
      advanceN 240 NewGame = Some g /\
      manaMultiplier <$> generators g =
        [incremented 2; 1%float; 1%float; 1%float] /\
      totalMultiplier g = incremented 1 /\
      manaPerSec g = 101 /\
      purchase 0 g = Some g' /\
      manaMultiplier <$> generators g' =
        [incremented 2; 1%float; 1%float; 1%float] /\
      totalMultiplier g' = incremented 2 /\
      manaPerSec g' = 102 /\
      mana g' = fsub (mana g) (fconst 3 1)).
Proof.
  split; [|split].
  - intros FL i g p Hi Hp Hc Hl.
    assert (Hf : scalingFactors !! i =
                 Some (if decide (i = 0%nat) then fconst 115 100
                       else fconst 12 10)).
    { destruct i as [|[|[|[|i]]]]; try reflexivity. lia. }
    eexists. eexists.
    split; [exact (purchase_success i g p _ Hp Hc Hl Hf)|].
    assert (Hm : forall q : Generator F,
               manaMultiplier q = manaMultiplier p ->
               manaMultiplier <$> <[i := q]> (generators g) =
               manaMultiplier <$> generators g)
      by (intros q Hq; now apply fmap_insert_same_multiplier with p).
    simpl. split; [reflexivity|].
    split; [apply list_lookup_insert_eq; eauto using lookup_lt_Some|].
    simpl. do 7 (split; [reflexivity|]).
    split; [now apply Hm|].
    split; [|split; [|split; [|split]]].
    + rewrite product_foldl. unfold multiplierProduct. simpl.
      now rewrite !Hm.
    + rewrite product_foldl. unfold multiplierProduct. simpl.
      now rewrite !Hm.
    + intros j Hj. apply list_lookup_insert_ne. congruence.
    + reflexivity.
    + reflexivity.
  - eexists; eexists. split; [vm_compute; reflexivity|].
    split; [reflexivity|]. vm_compute. repeat split.
  - eexists; eexists. split; [vm_compute; reflexivity|].
    vm_compute. repeat split.
Qed.

Lemma purchase_success_effect_witness :
  exists g g' : Game (@F IEEE),
    advanceN 240 NewGame = Some g /\
    purchase 0 g = Some g' /\
    totalMultiplier g = IEEE754.const 101 100 /\
    totalMultiplier g' = IEEE754.const 102 100 /\
    mana g' = fsub (mana g) (fconst 3 1).
Proof.
  destruct (advanceN (FL := IEEE) 240 NewGame) as [g|] eqn:E;
    [|vm_compute in E; discriminate].
  assert (Hg : generators g !! 0%nat =
               Some (mkGenerator "Mana Crystal" (fconst 3 1) (fconst 1 10) 5
                       "Basic mana generation crystal" 0
                       (IEEE754.const 102 100)) /\
               totalMultiplier g = IEEE754.const 101 100 /\
               multiplierProduct g = IEEE754.const 102 100 /\
               PrimFloat.leb 3 (mana g) = true).
  { vm_compute in E. injection E as <-. vm_compute. repeat split. }
  destruct Hg as (H0 & Htm & Hmp & Hma).
  destruct (proj1 purchase_success_effect IEEE 0%nat g _ ltac:(lia) H0)
    as (g' & p' & Hp & Hm & _ & _ & _ & _ & _ & _ & _ & _ & Hmul & Hc & _).
  - exact Hma.
  - simpl. lia.
  - exists g, g'. split; [reflexivity|]. split; [exact Hp|].
    split; [exact Htm|]. split; [|exact Hm].
    rewrite Hc, (multiplierProduct_ext _ _ Hmul). exact Hmp.
Defined.

(** C2, as the claim has it, fails in its scenario: the cost after the
    purchase is not the [float64] 3.45 (0x1.b99999999999ap+1) but the float
    below it (0x1.b999999999999p+1, printed 3.4499999999999997), because
    1.15 is not a binary64 number and the product 3.0 x 1.15 is rounded. *)
Lemma purchase_cost_below_345 :
  exists (g' : Game (@F IEEE)) (p' : Generator (@F IEEE)),
    purchase 0 scenario_state = Some g' /\
    generators g' !! 0%nat = Some p' /\
    cost p' = 0x1.b999999999999p+1%float /\
    IEEE754.const 345 100 = 0x1.b99999999999ap+1%float /\
    PrimFloat.eqb (cost p') (IEEE754.const 345 100) = false /\
    PrimFloat.ltb (cost p') (IEEE754.const 345 100) = true.
Proof.
  eexists; eexists. split; [vm_compute; reflexivity|].
  split; [reflexivity|]. vm_compute. repeat split.
Qed.

(** C3: a [purchase(i)] called with [mana < cost] or with [level >= 100]
    returns the state it was given: no field of the game changes. *)
Theorem purchase_ineligible_noop
    (FL : Float64) (i : nat) (g : Game F) (p : Generator F) :
  generators g !! i = Some p ->
  fltb (mana g) (cost p) = true \/ 100 <= level p ->
  purchase i g = Some g.
Proof.
  intros Hp [H|H]; apply purchase_fail with p; auto.
  left. now apply flt_not_ge.
Qed.

Lemma purchase_ineligible_noop_witness :
  purchase (FL := IEEE) 1 NewGame = Some NewGame.
Proof.
  apply (purchase_ineligible_noop IEEE 1 NewGame
           (mkGenerator "Arcane Tower" (fconst 50 1) (fconst 8 100) 0
              "Mystical mana channeling tower" 0 (fconst 1 1))).
  - reflexivity.
  - left. vm_compute. reflexivity.
Defined.

(** ** The cached product *)

(** C1, as the code has it: [calculateManaPerSec] runs in [NewGame], at the
    end of a successful [purchase], and in an [advance] whose accumulator
    reaches 60, there before the rotation loop.  So the cache is the product
    of the current multipliers after [NewGame] and after a successful
    [purchase]; after an [advance] at a one-second boundary it is the product
    of the multipliers as they were before the call; any other [advance], and
    a [purchase] that fails, leaves it as it was.  After an [advance] the
    cache is therefore the product of the current multipliers when the call
    incremented no multiplier and either recomputed the cache or found it
    right.  In binary64, at the end of [late_crossing_run] the multipliers
    are 1.29 (29 increments) and 1.0 while the cache is the 1.28 of the last
    boundary; the next tick takes generator 1 across 2π, after which the
    multipliers are 1.29 and 1.01 and the cache is still 1.28; 30 ticks
    later, at the boundary, the cache becomes 1.29 x 1.01. *)
Theorem totalMultiplier_cache :
  (forall FL : Float64,
      totalMultiplier (NewGame (FL := FL)) = multiplierProduct NewGame) /\
  (forall (FL : Float64) (i : nat) (g g' : Game F) (p : Generator F),
      purchase i g = Some g' ->
      generators g !! i = Some p ->
      fleb (cost p) (mana g) = true ->
      level p < 100 ->
      manaMultiplier <$> generators g' = manaMultiplier <$> generators g /\
      totalMultiplier g' = multiplierProduct g') /\
  (forall (FL : Float64) (i : nat) (g g' : Game F) (p : Generator F),
      purchase i g = Some g' ->
      generators g !! i = Some p ->
      fleb (cost p) (mana g) = false \/ 100 <= level p ->
      totalMultiplier g' = totalMultiplier g /\
      generators g' = generators g) /\
  (forall (FL : Float64) (g g' : Game F),
      advance g = Some g' ->
      totalMultiplier g' =
        (if 60 <=? wrap_int (tickCounter g + 1)
         then multiplierProduct g else totalMultiplier g)) /\
  (forall (FL : Float64) (g g' : Game F),
      advance g = Some g' ->
      60 <= wrap_int (tickCounter g + 1) \/
        totalMultiplier g = multiplierProduct g ->
      manaMultiplier <$> generators g' = manaMultiplier <$> generators g ->
      totalMultiplier g' = multiplierProduct g') /\
  (exists g g' g'' : Game (@F IEEE),
      run late_crossing_run NewGame = Some g /\
      tickCounter g = 29 /\
      manaMultiplier <$> generators g =
        [incremented 29; 1%float; 1%float; 1%float] /\
      totalMultiplier g = incremented 28 /\
      advance g = Some g' /\
      manaMultiplier <$> generators g' =
        [incremented 29; incremented 1; 1%float; 1%float] /\
      totalMultiplier g' = incremented 28 /\
      advanceN 30 g' = Some g'' /\
      tickCounter g'' = 0 /\
      manaMultiplier <$> generators g'' =
        [incremented 29; incremented 1; 1%float; 1%float] /\
      totalMultiplier g'' = fmul (incremented 29) (incremented 1) /\
      PrimFloat.ltb (incremented 28) (incremented 29) = true /\
      PrimFloat.ltb (incremented 29)
                    (fmul (incremented 29) (incremented 1)) = true).
Proof.
  split; [reflexivity|]. split; [|split; [|split; [|split]]].
  - intros FL i g g' p H Hp Hc Hl.
    destruct (purchase_success_multipliers i g g' p H Hp Hc Hl) as [Hm Ht].
    split; [exact Hm|]. now rewrite Ht, (multiplierProduct_ext _ _ Hm).
  - intros FL i g g' p H Hp Hno.
    rewrite (purchase_fail i g p Hp) in H.
    + now injection H as <-.
    + destruct Hno as [Hno|Hno]; [now left|now right].
  - intros FL g g' H.
    rewrite (advance_totalMultiplier _ _ H), product_multiplierProduct.
    reflexivity.
  - intros FL g g' H Hpre Hsame.
    rewrite (advance_totalMultiplier _ _ H), product_multiplierProduct,
      (multiplierProduct_ext _ _ Hsame).
    destruct (60 <=? wrap_int (tickCounter g + 1)) eqn:E; [reflexivity|].
    apply Z.leb_gt in E. destruct Hpre as [Hpre|Hpre]; [lia|exact Hpre].
  - eexists; eexists; eexists. split; [vm_compute; reflexivity|].
    do 3 (split; [vm_compute; reflexivity|]).
    split; [vm_compute; reflexivity|].
    do 2 (split; [vm_compute; reflexivity|]).
    split; [vm_compute; reflexivity|].
    vm_compute. repeat split.
Qed.

Lemma totalMultiplier_cache_witness :
  exists g g' : Game (@F IEEE),
    advanceN 179 NewGame = Some g /\
    advance g = Some g' /\
    totalMultiplier g = 1%float /\
    totalMultiplier g' = IEEE754.const 101 100.
Proof.
  destruct (advanceN (FL := IEEE) 179 NewGame) as [g|] eqn:E;
    [|vm_compute in E; discriminate].
  assert (Hg : tickCounter g = 59 /\ totalMultiplier g = 1%float /\
               multiplierProduct g = IEEE754.const 101 100).
  { vm_compute in E. injection E as <-. vm_compute. repeat split. }
  destruct Hg as (Ht & Htm & Hmp).
  destruct (advance g) as [g'|] eqn:E'.
  - exists g, g'. split; [reflexivity|]. split; [exact E'|].
    split; [exact Htm|].
    rewrite (proj1 (proj2 (proj2 (proj2 totalMultiplier_cache))) IEEE g g' E').
    rewrite Ht. exact Hmp.
  - exfalso. vm_compute in E. injection E as <-. vm_compute in E'.
    discriminate.
Defined.

(** C1, as the claim has it, fails: the 120th tick from [NewGame] carries the
    indicator of generator 0 across 2π.  The cache was recomputed at the start
    of that tick and stays at 1.0 while the product of the multipliers is
    1.01 afterwards, a difference a hundred times the tolerance of 0.001. *)
Lemma stale_cache_after_crossing :
  exists g g' : Game (@F IEEE),
    advanceN 119 NewGame = Some g /\ reachable g /\
    advance g = Some g' /\
    manaMultiplier <$> generators g' =
      [IEEE754.const 101 100; 1%float; 1%float; 1%float] /\
    totalMultiplier g' = 1%float /\
    product (generators g') = IEEE754.const 101 100 /\
    multiplierProduct g' = IEEE754.const 101 100 /\
    IEEE754.within (IEEE754.const 1 1000)
                   (totalMultiplier g') (product (generators g')) = false.
Proof.
  eexists; eexists. split; [vm_compute; reflexivity|].
  split; [eapply advanceN_reachable with (n := 119%nat);
          [apply reach_new|vm_compute; reflexivity]|].
  split; [vm_compute; reflexivity|].
  vm_compute. repeat split.
Qed.

(** ** Accrual *)

(** C4: in every [advance] the accumulator is incremented; when it reaches 60
    it is reset to 0, the cache is recomputed as the product of the
    multipliers and, if that product is positive, added to mana; otherwise
    mana and the cache are left alone.  From [NewGame] (mana 0, accumulator
    0, every multiplier 1.0, cache 1.0) mana is still 0.0 after 59 ticks and
    is 1.0, with the accumulator back at 0, after exactly 60.  After 179
    ticks mana is 2.0, the multiplier of generator 0 is 1.01 and the cache
    still 1.0; the 180th tick recomputes the cache to 1.01 and adds that to
    mana, not the 1.0 it held. *)
Theorem accrual_every_sixty_ticks :
  (forall (FL : Float64) (g g' : Game F),
      advance g = Some g' ->
      let ticks := wrap_int (tickCounter g + 1) in
      tickCounter g' = (if 60 <=? ticks then 0 else ticks) /\
      totalMultiplier g' =
        (if 60 <=? ticks then multiplierProduct g else totalMultiplier g) /\
      mana g' =
        (if (60 <=? ticks) && fltb (fconst 0 1) (multiplierProduct g)
         then fadd (mana g) (multiplierProduct g)
         else mana g)) /\
  (exists g59 g60 : Game (@F IEEE),
      mana (NewGame (FL := IEEE)) = 0%float /\
      tickCounter (NewGame (FL := IEEE)) = 0 /\
      manaMultiplier <$> generators (NewGame (FL := IEEE)) =
        [1%float; 1%float; 1%float; 1%float] /\
      totalMultiplier (NewGame (FL := IEEE)) = 1%float /\
      advanceN 59 NewGame = Some g59 /\
      mana g59 = 0%float /\ tickCounter g59 = 59 /\
      advanceN 60 NewGame = Some g60 /\
      mana g60 = 1%float /\ tickCounter g60 = 0) /\
  (exists g179 g180 : Game (@F IEEE),
      advanceN 179 NewGame = Some g179 /\
      tickCounter g179 = 59 /\
      mana g179 = 2%float /\
      manaMultiplier <$> generators g179 =
        [IEEE754.const 101 100; 1%float; 1%float; 1%float] /\
      totalMultiplier g179 = 1%float /\
      advance g179 = Some g180 /\
      tickCounter g180 = 0 /\
      totalMultiplier g180 = IEEE754.const 101 100 /\
      mana g180 = fadd 2%float (IEEE754.const 101 100) /\
      PrimFloat.ltb 3 (mana g180) = true).
Proof.
  split; [|split].
  - intros FL g g' H. cbv zeta.
    rewrite (advance_tickCounter _ _ H), (advance_totalMultiplier _ _ H),
      (advance_mana _ _ H), product_multiplierProduct. auto.
  - eexists; eexists.
    do 4 (split; [reflexivity|]).
    split; [vm_compute; reflexivity|].
    do 2 (split; [reflexivity|]).
    split; [vm_compute; reflexivity|].
    split; reflexivity.
  - eexists; eexists. split; [vm_compute; reflexivity|].
    do 4 (split; [reflexivity|]).
    split; [vm_compute; reflexivity|].
    vm_compute. repeat split.
Qed.

Lemma accrual_every_sixty_ticks_witness :
  exists g g' : Game (@F IEEE),
    advanceN 179 NewGame = Some g /\
    advance g = Some g' /\
    tickCounter g' = 0 /\
    totalMultiplier g' = IEEE754.const 101 100 /\
    mana g' = fadd 2%float (IEEE754.const 101 100).
Proof.
  destruct (advanceN (FL := IEEE) 179 NewGame) as [g|] eqn:E;
    [|vm_compute in E; discriminate].
  assert (Hg : tickCounter g = 59 /\ mana g = 2%float /\
               multiplierProduct g = IEEE754.const 101 100).
  { vm_compute in E. injection E as <-. vm_compute. repeat split. }
  destruct Hg as (Ht & Hm & Hmp).
  destruct (advance g) as [g'|] eqn:E'.
  - exists g, g'. split; [reflexivity|]. split; [exact E'|].
    destruct (proj1 accrual_every_sixty_ticks IEEE g g' E')
      as (Ht' & Htm' & Hm').
    rewrite Ht', Htm', Hm', Ht, Hmp, Hm. vm_compute. repeat split.
  - exfalso. vm_compute in E. injection E as <-. vm_compute in E'.
    discriminate.
Defined.

(** C10: an [advance] whose incremented accumulator is below 60 leaves mana
    (and the cache) unchanged and moves the accumulator up by exactly one.
    In a run of the game mana therefore changes only in the tick that takes
    the accumulator from 59 to the reset. *)
Theorem no_accrual_before_sixty :
  (forall (FL : Float64) (g g' : Game F),
      advance g = Some g' ->
      min_int64 <= tickCounter g ->
      tickCounter g + 1 < 60 ->
      mana g' = mana g /\
      totalMultiplier g' = totalMultiplier g /\
      tickCounter g' = tickCounter g + 1) /\
  (forall (FL : Float64) (g g' : Game F),
      reachable g ->
      advance g = Some g' ->
      mana g' <> mana g ->
      tickCounter g = 59 /\ tickCounter g' = 0).
Proof.
  split.
  - intros FL g g' H Hmin Hlt.
    rewrite (advance_tickCounter _ _ H), (advance_totalMultiplier _ _ H),
      (advance_mana _ _ H).
    rewrite (wrap_int_id (tickCounter g + 1))
      by (unfold min_int64, max_int64 in *; lia).
    apply Z.leb_gt in Hlt. rewrite Hlt. auto.
  - intros FL g g' Hr H Hne.
    destruct (reachable_shape _ Hr) as (_ & _ & Ht).
    rewrite (advance_tickCounter _ _ H).
    rewrite (advance_mana _ _ H) in Hne.
    rewrite (wrap_int_id (tickCounter g + 1)) in *
      by (unfold min_int64, max_int64; lia).
    destruct (60 <=? tickCounter g + 1) eqn:E.
    + apply Z.leb_le in E. split; [lia|reflexivity].
    + simpl in Hne. congruence.
Qed.

Lemma no_accrual_before_sixty_witness :
  exists g' : Game (@F IEEE),
    advance NewGame = Some g' /\
    mana g' = mana (NewGame (FL := IEEE)) /\ tickCounter g' = 1.
Proof.
  destruct (advance (FL := IEEE) NewGame) as [g'|] eqn:E;
    [|vm_compute in E; discriminate].
  exists g'. split; [reflexivity|].
  destruct (proj1 no_accrual_before_sixty IEEE NewGame g' E)
    as (Hm & _ & Ht).
  - vm_compute. discriminate.
  - vm_compute. reflexivity.
  - split; [exact Hm|exact Ht].
Defined.

(** ** Rotation *)

(** C5: in an [advance], the indicator of a generator with [level > 0] is
    moved by [speedPerLevel * level * 2 * Pi / 60]; its multiplier grows by
    0.01 exactly when the old angle was below 2π and the new one is not
    (once per tick, however far the step reaches); then 2π is subtracted from
    the new angle, once, when it is at least 2π.  No other field of the
    generator changes.  With generator 0 at level 1300 one tick adds more
    than two revolutions: the multiplier grows by 0.01 once, the angle left
    after the single subtraction is still above 2π, and the next tick, which
    starts above 2π, increments nothing. *)
Theorem rotation_step :
  (forall (FL : Float64) (i : nat) (g g' : Game F) (p : Generator F)
          (oldAngle : F),
      advance g = Some g' ->
      generators g !! i = Some p ->
      0 < level p ->
      rotationAngles g !! i = Some oldAngle ->
      let step :=
        fdiv (fmul (fmul (fmul (speedPerLevel p) (of_int (level p)))
                         (fconst 2 1))
                   fpi)
             (fconst 60 1) in
      let newAngle := fadd oldAngle step in
      rotationAngles g' !! i =
        Some (if fleb two_pi newAngle then fsub newAngle two_pi
              else newAngle) /\
      exists p' : Generator F,
        generators g' !! i = Some p' /\
        manaMultiplier p' =
          (if fltb oldAngle two_pi && fleb two_pi newAngle
           then fadd (manaMultiplier p) (fconst 1 100)
           else manaMultiplier p) /\
        name p' = name p /\ cost p' = cost p /\
        speedPerLevel p' = speedPerLevel p /\ level p' = level p /\
        description p' = description p /\ timer p' = timer p) /\
  (exists (g' g'' : Game (@F IEEE)) (a' : @F IEEE),
      advance fast_state = Some g' /\
      manaMultiplier <$> generators g' =
        [fadd 1%float (fconst 1 100); 1%float; 1%float; 1%float] /\
      rotationAngles g' !! 0%nat = Some a' /\
      a' = fsub (fadd 0%float
                   (fdiv (fmul (fmul (fmul (fconst 1 10) (of_int 1300))
                                     (fconst 2 1)) fpi) (fconst 60 1)))
                two_pi /\
      fleb two_pi a' = true /\
      advance g' = Some g'' /\
      manaMultiplier <$> generators g'' =
        [fadd 1%float (fconst 1 100); 1%float; 1%float; 1%float]).
Proof.
  split.
  - intros FL i g g' p oldAngle H Hp Hl Ha. cbv zeta.
    destruct (advance_at i g g' H (lookup_lt_Some _ _ _ Hp))
      as (q & Hq & [(Hl' & _)|(_ & a & Ha' & Hg & Hr)]);
      rewrite Hp in Hq; injection Hq as <-; [lia|].
    rewrite Ha in Ha'. injection Ha' as <-.
    split; [exact Hr|].
    eexists. split; [exact Hg|].
    unfold rotatedGenerator, crossing, rotationSpeed. cbv zeta.
    destruct (fltb oldAngle two_pi && _); simpl; repeat split.
  - eexists; eexists; eexists. split; [vm_compute; reflexivity|].
    split; [vm_compute; reflexivity|].
    split; [vm_compute; reflexivity|].
    split; [vm_compute; reflexivity|].
    split; [vm_compute; reflexivity|].
    split; vm_compute; reflexivity.
Qed.

Lemma rotation_step_witness :
  exists (g g' : Game (@F IEEE)) (p' : Generator (@F IEEE)) (a' : @F IEEE),
    advanceN 119 NewGame = Some g /\
    advance g = Some g' /\
    generators g' !! 0%nat = Some p' /\
    manaMultiplier p' = IEEE754.const 101 100 /\
    rotationAngles g' !! 0%nat = Some a' /\
    PrimFloat.ltb a' (IEEE754.const 1 1000) = true.
Proof.
  destruct (advanceN (FL := IEEE) 119 NewGame) as [g|] eqn:E;
    [|vm_compute in E; discriminate].
  assert (Hg : generators g !! 0%nat =
               Some (mkGenerator "Mana Crystal" (fconst 3 1) (fconst 1 10) 5
                       "Basic mana generation crystal" 0 (fconst 1 1)) /\
               rotationAngles g !! 0%nat = Some 0x1.8ec5d805d3549p+2%float).
  { vm_compute in E. injection E as <-. vm_compute. repeat split. }
  destruct Hg as (Hp & Ha).
  destruct (advance g) as [g'|] eqn:E'.
  - destruct (proj1 rotation_step IEEE 0%nat g g' _ _ E' Hp ltac:(simpl; lia)
                Ha)
      as (Hr & p' & Hp' & Hm & _).
    exists g, g', p'. eexists. split; [reflexivity|]. split; [exact E'|].
    split; [exact Hp'|]. split; [rewrite Hm; vm_compute; reflexivity|].
    split; [exact Hr|]. vm_compute. reflexivity.
  - exfalso. vm_compute in E. injection E as <-. vm_compute in E'.
    discriminate.
Defined.

(** C8: an [advance] leaves a generator of level 0, and its indicator,
    exactly as they were; and in every reachable state a generator of level 0
    still has the multiplier 1.0 it was created with. *)
Theorem level_zero_inert :
  (forall (FL : Float64) (i : nat) (g g' : Game F) (p : Generator F),
      advance g = Some g' ->
      generators g !! i = Some p ->
      level p = 0 ->
      generators g' !! i = Some p /\
      rotationAngles g' !! i = rotationAngles g !! i) /\
  (forall (FL : Float64) (i : nat) (g : Game F) (p : Generator F),
      reachable g ->
      generators g !! i = Some p ->
      level p = 0 ->
      manaMultiplier p = fconst 1 1).
Proof.
  split.
  - intros FL i g g' p H Hp Hl.
    destruct (advance_at i g g' H (lookup_lt_Some _ _ _ Hp))
      as (p' & Hp' & [(_ & Hg & Hr)|(Hl' & _)]);
      rewrite Hp in Hp'; injection Hp' as <-; [auto|lia].
  - intros FL i g p Hr. revert i p.
    enough (forall i p, generators g !! i = Some p ->
              0 <= level p /\ (level p = 0 -> manaMultiplier p = fconst 1 1))
      as Hinv by (intros i p Hp; now apply (Hinv i p Hp)).
    induction Hr as [|op g g' _ IH Hstep].
    + intros [|[|[|[|i]]]] p Hp; simpl in Hp; try discriminate;
        injection Hp as <-; simpl; split; (lia || reflexivity || discriminate).
    + intros i q Hq. destruct op as [|k]; simpl in Hstep.
      * assert (Hi : (i < length (generators g))%nat).
        { destruct (advance_lengths _ _ Hstep) as [<- _].
          eauto using lookup_lt_Some. }
        destruct (advance_at i g g' Hstep Hi)
          as (p & Hp & [(_ & Hg & _)|(Hl & a & _ & Hg & _)]);
          rewrite Hq in Hg; injection Hg as ->.
        -- exact (IH i p Hp).
        -- unfold rotatedGenerator.
           destruct (crossing p a); simpl; split; lia.
      * destruct (purchase_cases _ _ _ Hstep)
          as [->|(p & f & Hp & _ & _ & _ & ->)]; [exact (IH i q Hq)|].
        simpl in Hq. destruct (decide (k = i)) as [->|Hne].
        -- rewrite list_lookup_insert_eq in Hq by eauto using lookup_lt_Some.
           injection Hq as <-. simpl.
           destruct (IH i p Hp) as [Hl0 _]. split; lia.
        -- rewrite list_lookup_insert_ne in Hq by exact Hne.
           exact (IH i q Hq).
Qed.

Lemma level_zero_inert_witness :
  exists g' : Game (@F IEEE),
    advance NewGame = Some g' /\
    rotationAngles g' !! 1%nat = Some 0%float.
Proof.
  destruct (advance (FL := IEEE) NewGame) as [g'|] eqn:E;
    [|vm_compute in E; discriminate].
  exists g'. split; [reflexivity|].
  destruct (proj1 level_zero_inert IEEE 1%nat NewGame g'
              (mkGenerator "Arcane Tower" (fconst 50 1) (fconst 8 100) 0
                 "Mystical mana channeling tower" 0 (fconst 1 1)) E)
    as [_ Hr].
  - reflexivity.
  - reflexivity.
  - exact (eq_trans Hr eq_refl).
Defined.

(** ** The display field *)

(** A run of 2760 ticks, a purchase of generator 1 and 779 more ticks: the
    next tick closes a second with two multipliers above 1.0. *)
Definition two_multipliers_run : list Op :=
  replicate 2760 Advance ++ [Purchase 1] ++ replicate 779 Advance.

(** C9: whatever [manaPerSec] holds, [advance] and [purchase] compute the same
    mana and the same other fields (the results agree once [manaPerSec] is
    blanked); at a one-second boundary [manaPerSec] is set to
    [int64(totalMultiplier*100 + 0.5)] while mana receives the float
    [totalMultiplier] itself.  In binary64, at the boundary that ends
    [two_multipliers_run], the cache is 1.29 x 1.01 (about 1.3029),
    [manaPerSec] becomes 130 and mana grows by the cache, not by 1.30. *)
Theorem manaPerSec_display_only :
  (forall (FL : Float64) (m : Z) (g : Game F),
      without_manaPerSec <$> advance (set_manaPerSec m g) =
      without_manaPerSec <$> advance g) /\
  (forall (FL : Float64) (i : nat) (m : Z) (g : Game F),
      without_manaPerSec <$> purchase i (set_manaPerSec m g) =
      without_manaPerSec <$> purchase i g) /\
  (forall (FL : Float64) (g g' : Game F),
      advance g = Some g' ->
      60 <= wrap_int (tickCounter g + 1) ->
      totalMultiplier g' = product (generators g) /\
      manaPerSec g' =
        to_int64 (fadd (fmul (totalMultiplier g') (fconst 100 1))
                       (fconst 5 10)) /\
      mana g' =
        (if fltb (fconst 0 1) (totalMultiplier g')
         then fadd (mana g) (totalMultiplier g') else mana g)) /\
  (exists g g' : Game (@F IEEE),
      run two_multipliers_run NewGame = Some g /\
      advance g = Some g' /\
      tickCounter g = 59 /\
      manaPerSec g' = 130 /\
      mana g' = fadd (mana g) (totalMultiplier g') /\
      fltb (fconst 13028 10000) (totalMultiplier g') = true /\
      fltb (totalMultiplier g') (fconst 13030 10000) = true).
Proof.
  split; [|split; [|split]].
  - intros FL m g. apply advance_manaPerSec_irrelevant.
  - intros FL i m g. apply purchase_manaPerSec_irrelevant.
  - intros FL g g' H Hge.
    rewrite (advance_totalMultiplier _ _ H), (advance_manaPerSec _ _ H),
      (advance_mana _ _ H).
    apply Z.leb_le in Hge. rewrite Hge. auto.
  - eexists; eexists. split; [vm_compute; reflexivity|].
    split; [vm_compute; reflexivity|].
    vm_compute. repeat split.
Qed.

Lemma manaPerSec_display_only_witness :
  exists g g' : Game (@F IEEE),
    advanceN 59 NewGame = Some g /\ advance g = Some g' /\
    manaPerSec g' = 100 /\ mana g' = 1%float.
Proof.
  destruct (advanceN (FL := IEEE) 59 NewGame) as [g|] eqn:E;
    [|vm_compute in E; discriminate].
  assert (Hg : tickCounter g = 59 /\ mana g = 0%float /\
               product (generators g) = 1%float).
  { vm_compute in E. injection E as <-. vm_compute. auto. }
  destruct Hg as (Ht & Hm & Hp).
  destruct (advance g) as [g'|] eqn:E'.
  - exists g, g'. split; [reflexivity|]. split; [exact E'|].
    destruct (proj1 (proj2 (proj2 manaPerSec_display_only)) IEEE g g' E')
      as (Htm & Hps & Hma).
    + rewrite Ht. vm_compute. discriminate.
    + rewrite Hps, Hma, Htm, Hm, Hp. vm_compute. auto.
  - exfalso. vm_compute in E. injection E as <-. vm_compute in E'.
    discriminate.
Defined.

(** * Further code: the orb, the drawing and the layout *)

(** [func (g *Game) isMouseOverOrb(x, y float64) bool]: [orbSize/2] and
    [(orbSize/2)*(orbSize/2)] are integer constant expressions, 50 and 2500,
    converted to [float64]. *)
Definition isMouseOverOrb {FL : Float64} (x y : F) (g : Game F) : bool :=
  let centerX := fadd (orbX g) (fconst (orbSize / 2) 1) in
  let centerY := fadd (orbY g) (fconst (orbSize / 2) 1) in
  let dx := fsub x centerX in
  let dy := fsub y centerY in
  fleb (fadd (fmul dx dx) (fmul dy dy))
       (fconst ((orbSize / 2) * (orbSize / 2)) 1).

(** The test of [isMouseOverOrb] once the centre of the orb, (960, 540), has
    been computed. *)
Definition orbTest (x y : float) : bool :=
  PrimFloat.leb ((x - 960) * (x - 960) + (y - 540) * (y - 540))%float 2500.

(** The integers from 0 up to [n], each with its [float64] conversion and
    its squared distance from [c]. *)
Definition pixelAxis (n : nat) (c : Z) : list (Z * float * Z) :=
  map (fun k => let z := Z.of_nat k in
                (z, IEEE754.of_Z z, (z - c) * (z - c)))
      (seq 0 n).

(** On every pixel of the 1920 by 1080 screen the float test agrees with the
    test of the disc in integers. *)
Definition orb_pixels_checked : bool :=
  let ys := pixelAxis 1080 540 in
  forallb (fun '(_, fx, ax) =>
             forallb (fun '(_, fy, ay) =>
                        Bool.eqb (orbTest fx fy) (ax + ay <=? 2500))
                     ys)
          (pixelAxis 1920 960).

(** The [switch i] of [drawCircularGenerators] that places the text block
    of generator [i]; [textX] and [textY] stay 0 outside the four cases. *)
Definition drawnTextOrigin (i : nat) : Z * Z :=
  match i with
  | 0%nat => (30, 120)
  | 1%nat => (screenWidth - 400, 120)
  | 2%nat => (30, screenHeight - 200)
  | 3%nat => (screenWidth - 400, screenHeight - 200)
  | _ => (0, 0)
  end.

(** [func (g *Game) Layout(outsideWidth, outsideHeight int) (int, int)]. *)
Definition Layout (outsideWidth outsideHeight : Z) : Z * Z :=
  (screenWidth, screenHeight).

(** The number of ticks in a run. *)
Fixpoint ticks (ops : list Op) : Z :=
  match ops with
  | [] => 0
  | Advance :: rest => 1 + ticks rest
  | Purchase _ :: rest => ticks rest
  end.

(** * Further properties: the click handler and the frame loop *)

(** ** The four click areas *)

Lemma inTextArea_spec (i : nat) (x y : Z) :
  inTextArea i x y = true <->
  fst (textOrigin i) <= x <= fst (textOrigin i) + 370 /\
  snd (textOrigin i) <= y <= snd (textOrigin i) + 130.
Proof.
  unfold inTextArea. destruct (textOrigin i) as [tx ty]. simpl.
  rewrite !andb_true_iff, !Z.leb_le. lia.
Qed.

Lemma clickLoop_miss (FL : Float64) (x y : Z) (idx : list nat) (g : Game F) :
  (forall i, i ∈ idx -> inTextArea i x y = false) ->
  clickLoop x y idx g = Some g.
Proof.
  induction idx as [|i idx IH]; simpl; intros H; [reflexivity|].
  rewrite (H i) by left. apply IH. intros j Hj. apply H. now right.
Qed.

Lemma clickLoop_hit (FL : Float64) (x y : Z) (idx : list nat) (g : Game F)
      (i : nat) :
  i ∈ idx -> inTextArea i x y = true ->
  (forall j, j ∈ idx -> inTextArea j x y = true -> j = i) ->
  clickLoop x y idx g = purchase i g.
Proof.
  induction idx as [|k idx IH]; simpl; intros Hi Hin Huniq.
  - now apply elem_of_nil in Hi.
  - destruct (inTextArea k x y) eqn:E.
    + rewrite (Huniq k) by (auto; left). reflexivity.
    + apply elem_of_cons in Hi as [->|Hi]; [congruence|].
      apply IH; auto. intros j Hj. apply Huniq. now right.
Qed.

Lemma inTextArea_unique (i j : nat) (x y : Z) :
  (i < 4)%nat -> (j < 4)%nat ->
  inTextArea i x y = true -> inTextArea j x y = true -> i = j.
Proof.
  intros Hi Hj Hx Hy.
  apply inTextArea_spec in Hx. apply inTextArea_spec in Hy.
  destruct i as [|[|[|[|i]]]]; try lia;
    destruct j as [|[|[|[|j]]]]; try lia;
    unfold textOrigin, screenWidth, screenHeight in *; simpl in *; lia.
Qed.

Lemma handleGeneratorClicks_hit
    (FL : Float64) (x y : Z) (g : Game F) (i : nat) :
  length (generators g) = 4%nat -> (i < 4)%nat -> inTextArea i x y = true ->
  handleGeneratorClicks x y g = purchase i g.
Proof.
  intros Hlen Hi Hin. unfold handleGeneratorClicks. rewrite Hlen.
  apply clickLoop_hit; [apply elem_of_seq; lia|exact Hin|].
  intros j Hj Hjn. apply elem_of_seq in Hj.
  apply (inTextArea_unique j i x y); auto; lia.
Qed.

Lemma handleGeneratorClicks_miss
    (FL : Float64) (x y : Z) (g : Game F) :
  length (generators g) = 4%nat ->
  (forall i, (i < 4)%nat -> inTextArea i x y = false) ->
  handleGeneratorClicks x y g = Some g.
Proof.
  intros Hlen Hout. unfold handleGeneratorClicks. rewrite Hlen.
  apply clickLoop_miss. intros i Hi.
  apply elem_of_seq in Hi. apply Hout. lia.
Qed.

Lemma handleGeneratorClicks_step
    (FL : Float64) (x y : Z) (g : Game F) :
  length (generators g) = 4%nat ->
  handleGeneratorClicks x y g = Some g \/
  exists i, (i < 4)%nat /\ handleGeneratorClicks x y g = purchase i g.
Proof.
  intros Hlen.
  pose proof (handleGeneratorClicks_hit FL x y g) as Hhit.
  destruct (inTextArea 0 x y) eqn:E0;
    [right; exists 0%nat; split; [lia|apply Hhit; auto; lia]|].
  destruct (inTextArea 1 x y) eqn:E1;
    [right; exists 1%nat; split; [lia|apply Hhit; auto; lia]|].
  destruct (inTextArea 2 x y) eqn:E2;
    [right; exists 2%nat; split; [lia|apply Hhit; auto; lia]|].
  destruct (inTextArea 3 x y) eqn:E3;
    [right; exists 3%nat; split; [lia|apply Hhit; auto; lia]|].
  left. apply handleGeneratorClicks_miss; [exact Hlen|].
  intros [|[|[|[|i]]]] Hi; auto; lia.
Qed.

(** X1: the click areas of the four generators are pairwise disjoint: a
    click lies in at most one of them, so the order in which
    [handleGeneratorClicks] tests them does not matter. *)
Theorem click_areas_disjoint (i j : nat) (x y : Z) :
  (i < 4)%nat -> (j < 4)%nat ->
  inTextArea i x y = true -> inTextArea j x y = true -> i = j.
Proof. exact (inTextArea_unique i j x y). Qed.

Lemma click_areas_disjoint_witness :
  inTextArea 0 100 200 = true /\ inTextArea 0 100 200 = true /\ 0%nat = 0%nat.
Proof.
  split; [reflexivity|]. split; [reflexivity|].
  apply (click_areas_disjoint 0 0 100 200); (lia || reflexivity).
Defined.

(** X2: with the four generators in place, a click inside the area of
    generator [i] is exactly [purchase(i)], whichever areas come before it in
    the loop, and a click outside all four areas leaves the game as it is. *)
Theorem handleGeneratorClicks_dispatch
    (FL : Float64) (x y : Z) (g : Game F) :
  length (generators g) = 4%nat ->
  (forall i, (i < 4)%nat -> inTextArea i x y = true ->
             handleGeneratorClicks x y g = purchase i g) /\
  ((forall i, (i < 4)%nat -> inTextArea i x y = false) ->
   handleGeneratorClicks x y g = Some g).
Proof.
  intros Hlen. split.
  - intros i. now apply handleGeneratorClicks_hit.
  - now apply handleGeneratorClicks_miss.
Qed.

Lemma handleGeneratorClicks_dispatch_witness :
  handleGeneratorClicks (FL := IEEE) 1600 200 NewGame = purchase 1 NewGame.
Proof.
  apply (proj1 (handleGeneratorClicks_dispatch IEEE 1600 200 NewGame eq_refl)
           1%nat); [lia|reflexivity].
Defined.

(** ** Frames *)

Lemma Update_reachable
    (FL : Float64) (click : option (Z * Z)) (g : Game F) :
  reachable g -> exists g', Update click g = Some g' /\ reachable g'.
Proof.
  intros Hr. destruct (reachable_shape g Hr) as (Hlen & _ & _).
  assert (H1 : exists g1,
             match click with
             | Some (x, y) => handleGeneratorClicks x y g
             | None => Some g
             end = Some g1 /\ reachable g1).
  { destruct click as [[x y]|]; [|eauto].
    destruct (handleGeneratorClicks_step FL x y g Hlen)
      as [->|(i & Hi & ->)]; [eauto|].
    destruct (reachable_step_total g (Purchase i) Hr Hi) as [g1 H1].
    exists g1. split; [exact H1|]. now apply reach_step with (Purchase i) g. }
  destruct H1 as (g1 & H1 & Hr1).
  destruct (reachable_step_total g1 Advance Hr1 I) as [g' H2].
  exists g'. unfold Update. rewrite H1. simpl. split; [exact H2|].
  now apply reach_step with Advance g1.
Qed.

(** X3: [Update] never panics in a state the game can reach, whatever the
    click of the frame, and leads to a reachable state again: no index of
    [generators], [rotationAngles] or the scaling table is ever out of
    range. *)
Theorem Update_total
    (FL : Float64) (click : option (Z * Z)) (g : Game F) :
  reachable g -> exists g', Update click g = Some g' /\ reachable g'.
Proof. exact (Update_reachable FL click g). Qed.

Lemma Update_total_witness :
  exists g' : Game (@F IEEE),
    Update (Some (1600, 200)) NewGame = Some g' /\ reachable g'.
Proof. exact (Update_total IEEE (Some (1600, 200)) NewGame reach_new). Defined.

(** X4: every reachable state has exactly four generators and four indicator
    angles, and its tick accumulator is between 0 and 59: the accumulator is
    reset in the very tick in which it reaches 60. *)
Theorem reachable_state_shape (FL : Float64) (g : Game F) :
  reachable g ->
  length (generators g) = 4%nat /\ length (rotationAngles g) = 4%nat /\
  0 <= tickCounter g <= 59.
Proof.
  intros Hr. destruct (reachable_shape g Hr) as (H1 & H2 & H3).
  repeat split; (assumption || lia).
Qed.

Lemma reachable_state_shape_witness :
  exists g : Game (@F IEEE),
    advanceN 60 NewGame = Some g /\
    length (generators g) = 4%nat /\ length (rotationAngles g) = 4%nat /\
    0 <= tickCounter g <= 59.
Proof.
  destruct (advanceN (FL := IEEE) 60 NewGame) as [g|] eqn:E;
    [|vm_compute in E; discriminate].
  exists g. split; [reflexivity|].
  apply (reachable_state_shape IEEE g).
  eapply advanceN_reachable; [apply reach_new|exact E].
Defined.

(** ** What the frames never touch *)

Lemma purchase_scalars (FL : Float64) (i : nat) (g g' : Game F) :
  purchase i g = Some g' ->
  orbX g' = orbX g /\ orbY g' = orbY g /\ orbClicked g' = orbClicked g /\
  clickAnimation g' = clickAnimation g /\
  animationTime g' = animationTime g.
Proof.
  intros H.
  destruct (purchase_cases _ _ _ H)
    as [->|(p & f & _ & _ & _ & _ & ->)]; simpl; auto.
Qed.

Lemma advance_orb (FL : Float64) (g g' : Game F) :
  advance g = Some g' ->
  orbX g' = orbX g /\ orbY g' = orbY g /\
  clickAnimation g' =
    (if 0 <? clickAnimation g then clickAnimation g - 1
     else clickAnimation g) /\
  orbClicked g' =
    (if clickAnimation g' =? 0 then false else orbClicked g) /\
  animationTime g' = fadd (animationTime g) (fconst 16 1000).
Proof.
  intros H. apply advance_scalars in H. unfold scalars in H.
  injection H as _ _ -> -> -> -> _ -> _.
  unfold tickStep; cbv zeta.
  destruct (0 <? clickAnimation g); simpl;
    (destruct (_ =? 0) eqn:E; simpl);
    (destruct (60 <=? _); simpl);
    try (destruct (fltb _ _); simpl); rewrite ?E; auto.
Qed.

Lemma reachable_orb (FL : Float64) (g : Game F) :
  reachable g ->
  clickAnimation g = 0 /\ orbClicked g = false /\
  orbX g = of_int 910 /\ orbY g = of_int 490.
Proof.
  induction 1 as [|op g g' _ (Hc & Ho & Hx & Hy) Hstep]; [simpl; auto|].
  destruct op as [|k]; simpl in Hstep.
  - destruct (advance_orb FL g g' Hstep) as (-> & -> & Hc' & -> & _).
    rewrite Hc in Hc'. simpl in Hc'. rewrite Hc'. auto.
  - destruct (purchase_scalars FL k g g' Hstep) as (-> & -> & -> & -> & _).
    auto.
Qed.

(** X5: the orb is idle in every state the game can reach: nothing sets
    [orbClicked] or [clickAnimation], so the animation countdown of [Update]
    never runs, and the orb stays where [NewGame] put it, at (910, 490). *)
Theorem orb_stays_idle (FL : Float64) (g : Game F) :
  reachable g ->
  clickAnimation g = 0 /\ orbClicked g = false /\
  orbX g = of_int 910 /\ orbY g = of_int 490.
Proof. exact (reachable_orb FL g). Qed.

Lemma orb_stays_idle_witness :
  exists g : Game (@F IEEE),
    Update (Some (100, 200)) NewGame = Some g /\
    clickAnimation g = 0 /\ orbClicked g = false /\
    orbX g = of_int 910 /\ orbY g = of_int 490.
Proof.
  destruct (Update_reachable IEEE (Some (100, 200)) NewGame reach_new)
    as (g & Hg & Hr).
  exists g. split; [exact Hg|]. exact (orb_stays_idle IEEE g Hr).
Defined.

(** X6: started by hand from a state with a pending click animation, the
    countdown of [Update] loses one per tick, stops at 0 and clears
    [orbClicked] in the tick in which it reaches 0, not before. *)
Theorem click_animation_runs_down
    (FL : Float64) (n : nat) (g g' : Game F) :
  0 <= clickAnimation g -> advanceN n g = Some g' ->
  clickAnimation g' = Z.max 0 (clickAnimation g - Z.of_nat n) /\
  (clickAnimation g <= Z.of_nat n -> (0 < n)%nat -> orbClicked g' = false) /\
  (Z.of_nat n < clickAnimation g -> orbClicked g' = orbClicked g).
Proof.
  revert g. induction n as [|n IH]; intros g H0 H; simpl in H.
  - injection H as <-. repeat split; lia.
  - destruct (advance g) as [g1|] eqn:H1; simpl in H; [|discriminate].
    destruct (advance_orb FL g g1 H1) as (_ & _ & Hc & Ho & _).
    assert (Hc1 : clickAnimation g1 = Z.max 0 (clickAnimation g - 1)).
    { rewrite Hc. destruct (0 <? clickAnimation g) eqn:E;
        [apply Z.ltb_lt in E|apply Z.ltb_ge in E]; lia. }
    destruct (IH g1 ltac:(lia) H) as (Hc' & Hlow & Hhigh).
    split; [lia|]. split.
    + intros Hle _. destruct n as [|n].
      * simpl in H. injection H as <-. rewrite Ho.
        replace (clickAnimation g1) with 0 by lia. reflexivity.
      * apply Hlow; lia.
    + intros Hlt. rewrite Hhigh by lia. rewrite Ho.
      destruct (clickAnimation g1 =? 0) eqn:E; [|reflexivity].
      apply Z.eqb_eq in E. lia.
Qed.

Lemma click_animation_runs_down_witness :
  exists g' : Game (@F IEEE),
    advanceN 3 (set_clickAnimation 3 (set_orbClicked true NewGame)) = Some g' /\
    clickAnimation g' = 0 /\ orbClicked g' = false.
Proof.
  destruct (advanceN (FL := IEEE) 3
              (set_clickAnimation 3 (set_orbClicked true NewGame)))
    as [g'|] eqn:E; [|vm_compute in E; discriminate].
  exists g'. split; [reflexivity|].
  destruct (click_animation_runs_down IEEE 3
              (set_clickAnimation 3 (set_orbClicked true NewGame)) g'
              ltac:(simpl; lia) E)
    as (Hc & Ho & _).
  split; [exact Hc|]. apply Ho; simpl; lia.
Defined.

(** ** The generators *)

Lemma reachable_generator_fields (FL : Float64) (g : Game F) :
  reachable g ->
  forall i p, generators g !! i = Some p ->
  exists p0, generators NewGame !! i = Some p0 /\
    name p = name p0 /\ description p = description p0 /\
    timer p = timer p0.
Proof.
  induction 1 as [|op g g' _ IH Hstep]; intros i p' Hp'; [eauto|].
  destruct op as [|k]; simpl in Hstep.
  - destruct (advance_generator _ _ _ _ Hstep Hp')
      as (p & Hp & [->|(_ & ->)]); exact (IH i p Hp).
  - destruct (purchase_generator _ _ _ _ _ Hstep Hp')
      as (p & Hp & [->|(f & -> & _ & _ & _ & ->)]); [exact (IH i p Hp)|].
    exact (IH k p Hp).
Qed.

(** X7: whatever is bought and however long the game runs, generator [i]
    keeps the name, the description, the speed per level and the (unused)
    timer that [NewGame] gave it, and its level stays between its initial
    level and the cap of 100. *)
Theorem generator_static_fields
    (FL : Float64) (g : Game F) (i : nat) (p : Generator F) :
  reachable g -> generators g !! i = Some p ->
  exists p0, generators NewGame !! i = Some p0 /\
    name p = name p0 /\ description p = description p0 /\
    speedPerLevel p = speedPerLevel p0 /\ timer p = timer p0 /\
    level p0 <= level p <= 100.
Proof.
  intros Hr Hp.
  destruct (reachable_generator_fields FL g Hr i p Hp)
    as (p0 & H0 & Hn & Hd & Ht).
  destruct (reachable_generators g Hr i p Hp) as (p1 & H1 & Hs & Hl & _).
  assert (p1 = p0) as -> by congruence.
  exists p0. auto 10.
Qed.

Lemma generator_static_fields_witness :
  exists (g : Game (@F IEEE)) (p : Generator (@F IEEE)),
    Update (Some (100, 200)) NewGame = Some g /\
    generators g !! 0%nat = Some p /\
    name p = "Mana Crystal"%string /\ 5 <= level p <= 100.
Proof.
  destruct (Update_reachable IEEE (Some (100, 200)) NewGame reach_new)
    as (g & Hg & Hr).
  destruct (generators g !! 0%nat) as [p|] eqn:Hp.
  - exists g, p. split; [exact Hg|]. split; [exact Hp|].
    destruct (generator_static_fields IEEE g 0 p Hr Hp)
      as (p0 & H0 & Hn & _ & _ & _ & Hl).
    injection H0 as <-. auto.
  - exfalso. apply lookup_ge_None in Hp.
    destruct (reachable_shape g Hr) as (Hl & _). lia.
Defined.

(** X8: the cost of a generator is a function of its level alone: in any
    two reachable states, generator [i] at the same level has the same cost,
    bit for bit, however the two states were reached. *)
Theorem cost_determined_by_level
    (FL : Float64) (g1 g2 : Game F) (i : nat) (p1 p2 : Generator F) :
  reachable g1 -> reachable g2 ->
  generators g1 !! i = Some p1 -> generators g2 !! i = Some p2 ->
  level p1 = level p2 -> cost p1 = cost p2.
Proof.
  intros Hr1 Hr2 Hp1 Hp2 Hl.
  destruct (reachable_generators g1 Hr1 i p1 Hp1) as (q1 & H1 & _ & _ & Hc1).
  destruct (reachable_generators g2 Hr2 i p2 Hp2) as (q2 & H2 & _ & _ & Hc2).
  assert (q2 = q1) as -> by congruence.
  now rewrite Hc1, Hc2, Hl.
Qed.

Lemma cost_determined_by_level_witness :
  exists (g1 g2 : Game (@F IEEE)) (p1 p2 : Generator (@F IEEE)),
    run (replicate 180 Advance ++ [Purchase 0]) NewGame = Some g1 /\
    run (replicate 240 Advance ++ [Purchase 0]) NewGame = Some g2 /\
    generators g1 !! 0%nat = Some p1 /\ generators g2 !! 0%nat = Some p2 /\
    level p1 = 6 /\ level p2 = 6 /\ cost p1 = cost p2.
Proof.
  destruct (run (FL := IEEE) (replicate 180 Advance ++ [Purchase 0]) NewGame)
    as [g1|] eqn:E1; [|vm_compute in E1; discriminate].
  destruct (run (FL := IEEE) (replicate 240 Advance ++ [Purchase 0]) NewGame)
    as [g2|] eqn:E2; [|vm_compute in E2; discriminate].
  pose proof (run_reachable _ _ _ reach_new E1) as Hr1.
  pose proof (run_reachable _ _ _ reach_new E2) as Hr2.
  destruct (generators g1 !! 0%nat) as [p1|] eqn:Hp1;
    [|vm_compute in E1; injection E1 as <-; discriminate].
  destruct (generators g2 !! 0%nat) as [p2|] eqn:Hp2;
    [|vm_compute in E2; injection E2 as <-; discriminate].
  assert (Hl1 : level p1 = 6).
  { vm_compute in E1. injection E1 as <-. vm_compute in Hp1.
    now injection Hp1 as <-. }
  assert (Hl2 : level p2 = 6).
  { vm_compute in E2. injection E2 as <-. vm_compute in Hp2.
    now injection Hp2 as <-. }
  exists g1, g2, p1, p2. repeat (split; [solve [auto]|]).
  apply (cost_determined_by_level IEEE g1 g2 0 p1 p2); auto. congruence.
Defined.

(** X9: no operation lowers a level; a level rises by at most one per
    operation, and only for the generator that is purchased. *)
Theorem levels_never_decrease
    (FL : Float64) (op : Op) (g g' : Game F) (j : nat) (p' : Generator F) :
  step op g = Some g' -> generators g' !! j = Some p' ->
  exists p, generators g !! j = Some p /\
    (level p' = level p \/ level p' = level p + 1 /\ op = Purchase j).
Proof.
  intros Hstep Hp'. destruct op as [|k]; simpl in Hstep.
  - destruct (advance_generator _ _ _ _ Hstep Hp')
      as (p & Hp & [->|(_ & ->)]); exists p; auto.
  - destruct (purchase_generator _ _ _ _ _ Hstep Hp')
      as (p & Hp & [->|(f & -> & _ & _ & _ & ->)]); exists p; auto.
Qed.

Lemma levels_never_decrease_witness :
  exists (g' : Game (@F IEEE)) (p p' : Generator (@F IEEE)),
    step (Purchase 0) scenario_state = Some g' /\
    generators g' !! 0%nat = Some p' /\
    generators scenario_state !! 0%nat = Some p /\
    level p' = level p + 1.
Proof.
  destruct (step (FL := IEEE) (Purchase 0) scenario_state) as [g'|] eqn:E;
    [|vm_compute in E; discriminate].
  destruct (generators g' !! 0%nat) as [p'|] eqn:Hp';
    [|vm_compute in E; injection E as <-; vm_compute in Hp'; discriminate].
  destruct (levels_never_decrease IEEE (Purchase 0) _ g' 0 p' E Hp')
    as (p & Hp & Hl).
  exists g', p, p'. split; [reflexivity|]. split; [exact Hp'|].
  split; [exact Hp|].
  destruct Hl as [Hl|[Hl _]]; [|exact Hl].
  exfalso. vm_compute in E. injection E as <-.
  vm_compute in Hp'. injection Hp' as <-.
  vm_compute in Hp. injection Hp as <-.
  vm_compute in Hl. discriminate.
Defined.

(** ** The tick accumulator *)

Lemma ticks_nonneg (ops : list Op) : 0 <= ticks ops.
Proof. induction ops as [|[|k] ops IH]; simpl; lia. Qed.

Lemma run_tickCounter (FL : Float64) (ops : list Op) :
  forall g g' : Game F,
    0 <= tickCounter g < 60 -> run ops g = Some g' ->
    tickCounter g' = (tickCounter g + ticks ops) mod 60.
Proof.
  induction ops as [|op ops IH]; intros g g' Ht H; simpl in H.
  - injection H as <-. simpl. rewrite Z.add_0_r, Z.mod_small; lia.
  - destruct (step op g) as [g1|] eqn:H1; simpl in H; [|discriminate].
    destruct op as [|k]; simpl in H1.
    + assert (Ht1 : tickCounter g1 = (tickCounter g + 1) mod 60).
      { rewrite (advance_tickCounter _ _ H1).
        rewrite (wrap_int_id (tickCounter g + 1))
          by (unfold min_int64, max_int64; lia).
        destruct (60 <=? tickCounter g + 1) eqn:E;
          [apply Z.leb_le in E|apply Z.leb_gt in E].
        - replace (tickCounter g + 1) with 60 by lia. reflexivity.
        - rewrite Z.mod_small; lia. }
      rewrite (IH g1 g') by (auto; rewrite Ht1; apply Z.mod_pos_bound; lia).
      rewrite Ht1. simpl ticks. rewrite Zplus_mod_idemp_l. f_equal. lia.
    + destruct (purchase_lengths _ _ _ H1) as (_ & _ & Ht1).
      rewrite (IH g1 g') by (auto; lia). simpl. now rewrite Ht1.
Qed.

(** X10: after any run of ticks and purchases from [NewGame], [tickCounter]
    is the number of ticks of the run modulo 60: purchases do not disturb
    the one-second rhythm of the accrual. *)
Theorem tickCounter_counts_ticks
    (FL : Float64) (ops : list Op) (g : Game F) :
  run ops NewGame = Some g -> tickCounter g = ticks ops mod 60.
Proof.
  intros H. rewrite (run_tickCounter FL ops NewGame g); [reflexivity| |exact H].
  simpl. lia.
Qed.

Lemma tickCounter_counts_ticks_witness :
  exists g : Game (@F IEEE),
    run (replicate 61 Advance ++ [Purchase 0]) NewGame = Some g /\
    tickCounter g = 1.
Proof.
  destruct (run (FL := IEEE) (replicate 61 Advance ++ [Purchase 0]) NewGame)
    as [g|] eqn:E; [|vm_compute in E; discriminate].
  exists g. split; [reflexivity|].
  exact (tickCounter_counts_ticks IEEE _ g E).
Defined.

(** ** Generators that were never bought *)

Lemma reachable_unbought (FL : Float64) (g : Game F) :
  reachable g ->
  forall i p, generators g !! i = Some p -> level p = 0 ->
    generators NewGame !! i = Some p /\
    rotationAngles g !! i = Some (fconst 0 1).
Proof.
  induction 1 as [|op g g' Hr IH Hstep]; intros i p' Hp' Hl'.
  - split; [exact Hp'|].
    destruct i as [|[|[|[|i]]]]; simpl in Hp' |- *; try discriminate;
      reflexivity.
  - destruct op as [|k]; simpl in Hstep.
    + assert (Hi : (i < length (generators g))%nat).
      { destruct (advance_lengths _ _ Hstep) as [<- _].
        eauto using lookup_lt_Some. }
      destruct (advance_at i g g' Hstep Hi)
        as (p & Hp & [(_ & Hg & Ha)|(Hpos & a & _ & Hg & _)]);
        rewrite Hp' in Hg; injection Hg as ->.
      * destruct (IH i p Hp Hl') as [H0 Ha0]. split; [exact H0|].
        now rewrite Ha.
      * exfalso. unfold rotatedGenerator in Hl'.
        destruct (crossing p a); simpl in Hl'; lia.
    + destruct (purchase_lengths _ _ _ Hstep) as (_ & -> & _).
      destruct (purchase_generator _ _ _ _ _ Hstep Hp')
        as (p & Hp & [->|(f & -> & _ & _ & _ & ->)]);
        [exact (IH i p Hp Hl')|].
      exfalso. simpl in Hl'.
      destruct (reachable_generators g Hr k p Hp) as (p0 & H0 & _ & Hl & _).
      assert (0 <= level p0).
      { destruct k as [|[|[|[|k]]]]; simpl in H0; try discriminate;
          injection H0 as <-; simpl; lia. }
      lia.
Qed.

(** X25: a generator that was never bought is untouched: in every
    reachable state a generator at level 0 is still the record [NewGame]
    made (initial cost, multiplier 1.0) and its indicator angle is still
    0. *)
Theorem unbought_generator_pristine
    (FL : Float64) (g : Game F) (i : nat) (p : Generator F) :
  reachable g -> generators g !! i = Some p -> level p = 0 ->
  generators NewGame !! i = Some p /\
  rotationAngles g !! i = Some (fconst 0 1).
Proof. intros Hr. exact (reachable_unbought FL g Hr i p). Qed.

Lemma unbought_generator_pristine_witness :
  exists (g : Game (@F IEEE)) (p : Generator (@F IEEE)),
    run (replicate 180 Advance ++ [Purchase 0]) NewGame = Some g /\
    generators g !! 3%nat = Some p /\
    generators NewGame !! 3%nat = Some p /\
    rotationAngles g !! 3%nat = Some (fconst 0 1).
Proof.
  destruct (run (FL := IEEE) (replicate 180 Advance ++ [Purchase 0]) NewGame)
    as [g|] eqn:E; [|vm_compute in E; discriminate].
  destruct (generators g !! 3%nat) as [p|] eqn:Hp;
    [|vm_compute in E; injection E as <-; vm_compute in Hp; discriminate].
  assert (Hl : level p = 0).
  { vm_compute in E. injection E as <-. vm_compute in Hp.
    now injection Hp as <-. }
  exists g, p. split; [reflexivity|]. split; [exact Hp|].
  apply (unbought_generator_pristine IEEE g 3 p); auto.
  exact (run_reachable _ _ _ reach_new E).
Defined.

(** ** The animation clock *)

Lemma run_animationTime (FL : Float64) (ops : list Op) :
  forall g g' : Game F,
    run ops g = Some g' ->
    animationTime g' =
      Nat.iter (Z.to_nat (ticks ops)) (fun t => fadd t (fconst 16 1000))
               (animationTime g).
Proof.
  induction ops as [|op ops IH]; intros g g' H; simpl in H.
  - injection H as <-. reflexivity.
  - destruct (step op g) as [g1|] eqn:H1; simpl in H; [|discriminate].
    rewrite (IH g1 g' H). destruct op as [|k]; simpl in H1.
    + destruct (advance_orb FL g g1 H1) as (_ & _ & _ & _ & ->).
      pose proof (ticks_nonneg ops) as Hn.
      change (ticks (Advance :: ops)) with (1 + ticks ops).
      replace (Z.to_nat (1 + ticks ops)) with (S (Z.to_nat (ticks ops)))
        by lia.
      now rewrite Nat.iter_succ_r.
    + destruct (purchase_scalars FL k g g1 H1) as (_ & _ & _ & _ & ->).
      reflexivity.
Qed.

(** X15: the animation clock after a run from [NewGame] is 0.0 with 0.016
    added once per tick, whatever was purchased on the way: purchases do not
    touch it, and it is never reset.  The sixty additions of one second round
    in binary64: after 60 ticks the clock is 0.96000000000000074, above the
    [float64] 0.96. *)
Theorem animationTime_counts_ticks
    (FL : Float64) (ops : list Op) (g : Game F) :
  run ops NewGame = Some g ->
  animationTime g =
    Nat.iter (Z.to_nat (ticks ops)) (fun t => fadd t (fconst 16 1000))
             (fconst 0 1).
Proof. intros H. exact (run_animationTime FL ops NewGame g H). Qed.

Lemma animationTime_counts_ticks_witness :
  exists g : Game (@F IEEE),
    run (replicate 30 Advance ++ [Purchase 0] ++ replicate 30 Advance) NewGame
      = Some g /\
    animationTime g = 0x1.eb851eb851ebfp-1%float /\
    PrimFloat.ltb (IEEE754.const 96 100) (animationTime g) = true.
Proof.
  destruct (run (FL := IEEE)
              (replicate 30 Advance ++ [Purchase 0] ++ replicate 30 Advance)
              NewGame) as [g|] eqn:E; [|vm_compute in E; discriminate].
  exists g. split; [reflexivity|].
  rewrite (animationTime_counts_ticks IEEE _ g E).
  vm_compute. split; reflexivity.
Defined.

(** * Further properties: the orb and the drawing *)

Lemma Z_disc_box (a b : Z) :
  a * a + b * b <= 2500 -> - 50 <= a <= 50 /\ - 50 <= b <= 50.
Proof.
  intros H.
  assert (Ha : 0 <= a * a) by apply Z.square_nonneg.
  assert (Hb : 0 <= b * b) by apply Z.square_nonneg.
  repeat split; apply Z.nlt_ge; intros Hc; nia.
Qed.

Lemma pixelAxis_spec (n : nat) (c z : Z) :
  0 <= z < Z.of_nat n ->
  In (z, IEEE754.of_Z z, (z - c) * (z - c)) (pixelAxis n c).
Proof.
  intros Hz. unfold pixelAxis. apply in_map_iff.
  exists (Z.to_nat z). cbv zeta. rewrite Z2Nat.id by lia.
  split; [reflexivity|]. apply in_seq. lia.
Qed.

Lemma orb_pixels_checked_spec (x y : Z) :
  orb_pixels_checked = true ->
  0 <= x < 1920 -> 0 <= y < 1080 ->
  orbTest (IEEE754.of_Z x) (IEEE754.of_Z y) =
  ((x - 960) * (x - 960) + (y - 540) * (y - 540) <=? 2500).
Proof.
  unfold orb_pixels_checked. cbv zeta. intros H Hx Hy.
  rewrite forallb_forall in H.
  specialize (H _ (pixelAxis_spec 1920 960 x ltac:(lia))). cbv beta iota in H.
  rewrite forallb_forall in H.
  specialize (H _ (pixelAxis_spec 1080 540 y ltac:(lia))). cbv beta iota in H.
  now apply Bool.eqb_prop in H.
Qed.

Lemma isMouseOverOrb_orbTest (g : Game float) (x y : float) :
  reachable (FL := IEEE) g ->
  isMouseOverOrb (FL := IEEE) x y g = orbTest x y.
Proof.
  intros Hr. destruct (reachable_orb IEEE g Hr) as (_ & _ & Hx & Hy).
  unfold isMouseOverOrb. cbv zeta. rewrite Hx, Hy. reflexivity.
Qed.

(** X16: in binary64, on every pixel (x, y) of the 1920 by 1080 screen and
    in every state the game can reach, [isMouseOverOrb] holds exactly when
    the pixel is in the disc of radius 50 around (960, 540), the centre of
    the screen; a pixel it accepts lies in none of the four purchase
    areas. *)
Theorem orb_hit_test (g : Game float) (x y : Z) :
  reachable (FL := IEEE) g ->
  0 <= x < screenWidth -> 0 <= y < screenHeight ->
  isMouseOverOrb (FL := IEEE) (of_int (Float64 := IEEE) x)
                 (of_int (Float64 := IEEE) y) g =
    ((x - 960) * (x - 960) + (y - 540) * (y - 540) <=? 2500) /\
  (isMouseOverOrb (FL := IEEE) (of_int (Float64 := IEEE) x)
                  (of_int (Float64 := IEEE) y) g = true ->
   forall i, (i < 4)%nat -> inTextArea i x y = false).
Proof.
  intros Hr Hx Hy. unfold screenWidth in Hx. unfold screenHeight in Hy.
  assert (E : isMouseOverOrb (FL := IEEE) (of_int (Float64 := IEEE) x)
                (of_int (Float64 := IEEE) y) g =
              ((x - 960) * (x - 960) + (y - 540) * (y - 540) <=? 2500)).
  { rewrite (isMouseOverOrb_orbTest g _ _ Hr).
    apply orb_pixels_checked_spec; [vm_compute; reflexivity|lia|lia]. }
  split; [exact E|].
  intros H i Hi. rewrite E in H. apply Z.leb_le in H.
  apply Z_disc_box in H.
  destruct (inTextArea i x y) eqn:Ei; [|reflexivity].
  apply inTextArea_spec in Ei.
  destruct i as [|[|[|[|i]]]]; try lia;
    unfold textOrigin, screenWidth, screenHeight in Ei; simpl in Ei; lia.
Qed.

Lemma orb_hit_test_witness :
  isMouseOverOrb (FL := IEEE) (of_int 1000) (of_int 570) NewGame = true /\
  isMouseOverOrb (FL := IEEE) (of_int 1000) (of_int 571) NewGame = false /\
  forall i, (i < 4)%nat -> inTextArea i 1000 570 = false.
Proof.
  destruct (orb_hit_test (NewGame (FL := IEEE)) 1000 570 reach_new
              ltac:(unfold screenWidth; lia) ltac:(unfold screenHeight; lia))
    as [H1 H2].
  split; [exact H1|]. split; [vm_compute; reflexivity|].
  apply H2. exact H1.
Defined.

(** X17: each purchase area is the 370 by 130 rectangle whose top-left
    corner is the point where [drawCircularGenerators] draws the name of
    that generator, and all four rectangles lie inside the 1920 by 1080
    screen that [Layout] reports. *)
Theorem click_areas_follow_drawing (i : nat) (x y : Z) :
  (i < 4)%nat ->
  (inTextArea i x y = true <->
   fst (drawnTextOrigin i) <= x <= fst (drawnTextOrigin i) + 370 /\
   snd (drawnTextOrigin i) <= y <= snd (drawnTextOrigin i) + 130) /\
  (inTextArea i x y = true ->
   0 <= x < fst (Layout 0 0) /\ 0 <= y < snd (Layout 0 0)).
Proof.
  intros Hi.
  assert (Ho : drawnTextOrigin i = textOrigin i) by reflexivity.
  rewrite Ho. split; [apply inTextArea_spec|].
  intros H. apply inTextArea_spec in H.
  destruct i as [|[|[|[|i]]]]; try lia;
    unfold textOrigin, Layout, screenWidth, screenHeight in *; simpl in *; lia.
Qed.

Lemma click_areas_follow_drawing_witness :
  inTextArea 3 1600 900 = true /\ 0 <= 1600 < 1920 /\ 0 <= 900 < 1080.
Proof.
  split; [reflexivity|].
  apply (proj2 (click_areas_follow_drawing 3 1600 900 ltac:(lia))).
  reflexivity.
Defined.

(** * Further properties: binary64 arithmetic

    What the invariants need of the IEEE 754 specification that Rocq's
    primitive floats obey ([SpecFloat], through the [_spec] equations of
    [FloatAxioms]): the order on valid finite numbers is the order of their
    values, a sum or difference whose exact value is not negative does not
    round to a negative number, and rounding keeps a value on the side of a
    power of two on which it is. *)

Module Binary64.

(** The value of a finite float, in units of 2^-1074 (the least positive
    binary64 number), and 0 for the others. *)
Definition SFval (x : spec_float) : Z :=
  match x with
  | S754_finite s m e => cond_Zopp s (Zpos m * 2 ^ (e + 1074))
  | _ => 0
  end.

(** Zero or finite. *)
Definition SFfinite (x : spec_float) : bool :=
  match x with
  | S754_zero _ | S754_finite _ _ _ => true
  | _ => false
  end.

(** Not NaN and not negative: a zero of either sign, a positive finite
    number or +infinity. *)
Definition SFnonneg (x : spec_float) : bool :=
  match x with
  | S754_zero _ | S754_finite false _ _ | S754_infinity false => true
  | _ => false
  end.

(** A positive finite number. *)
Definition SFpositive (x : spec_float) : bool :=
  match x with
  | S754_finite false _ _ => true
  | _ => false
  end.

Lemma digits2_pos_size (p : positive) : digits2_pos p = Pos.size p.
Proof. induction p; simpl; congruence. Qed.

Lemma digits2_bounds (m : positive) :
  2 ^ (Zpos (digits2_pos m) - 1) <= Zpos m < 2 ^ Zpos (digits2_pos m).
Proof.
  rewrite digits2_pos_size.
  pose proof (Pos.size_gt m) as Hgt. pose proof (Pos.size_le m) as Hle.
  apply Pos2Z.pos_lt_pos in Hgt. apply Pos2Z.pos_le_pos in Hle.
  rewrite Pos2Z.inj_pow in Hgt, Hle.
  change (Zpos m~0) with (2 * Zpos m) in Hle.
  assert (E : 2 ^ Zpos (Pos.size m) = 2 * 2 ^ (Zpos (Pos.size m) - 1)).
  { rewrite <- Z.pow_succ_r by lia. f_equal. lia. }
  split; lia.
Qed.

Lemma valid_finite (s : bool) (m : positive) (e : Z) :
  valid_binary (S754_finite s m e) = true ->
  -1074 <= e <= 971 /\ Zpos (digits2_pos m) <= 53 /\
  (-1074 < e -> Zpos (digits2_pos m) = 53).
Proof.
  unfold SpecFloat.valid_binary, bounded, canonical_mantissa, fexp,
    SpecFloat.emin.
  change prec with 53. change emax with 1024.
  intros H. apply andb_true_iff in H as [H1 H2].
  apply Z.eqb_eq in H1. apply Z.leb_le in H2. lia.
Qed.

Lemma pow2_pos (k : Z) : 0 <= k -> 0 < 2 ^ k.
Proof. intros H. apply Z.pow_pos_nonneg; lia. Qed.

Lemma pow2_split (a b : Z) : 0 <= a -> 0 <= b -> 2 ^ (a + b) = 2 ^ a * 2 ^ b.
Proof. intros Ha Hb. apply Z.pow_add_r; assumption. Qed.

Lemma mag_lt (m1 m2 : positive) (e1 e2 : Z) :
  Zpos (digits2_pos m1) <= 53 -> Zpos (digits2_pos m2) = 53 ->
  -1074 <= e1 -> e1 < e2 ->
  Zpos m1 * 2 ^ (e1 + 1074) < Zpos m2 * 2 ^ (e2 + 1074).
Proof.
  intros H1 H2 He1 He.
  pose proof (digits2_bounds m1) as [_ Hm1].
  pose proof (digits2_bounds m2) as [Hm2 _]. rewrite H2 in Hm2.
  assert (Hm1' : Zpos m1 < 2 ^ 53).
  { eapply Z.lt_le_trans; [exact Hm1|]. apply Z.pow_le_mono_r; lia. }
  replace (e2 + 1074) with ((e2 - e1 - 1) + (1 + (e1 + 1074))) by lia.
  rewrite (pow2_split (e2 - e1 - 1)) by lia.
  rewrite (pow2_split 1) by lia. change (2 ^ 1) with 2.
  pose proof (pow2_pos (e1 + 1074) ltac:(lia)) as HA.
  pose proof (pow2_pos (e2 - e1 - 1) ltac:(lia)) as HB.
  change (53 - 1) with 52 in Hm2. change (2 ^ 53) with (2 * 2 ^ 52) in Hm1'.
  set (A := 2 ^ (e1 + 1074)) in *. set (B := 2 ^ (e2 - e1 - 1)) in *.
  apply Z.lt_le_trans with (2 * Zpos m2 * A).
  - apply Z.mul_lt_mono_pos_r; lia.
  - replace (Zpos m2 * (B * (2 * A))) with (B * (2 * Zpos m2 * A)) by ring.
    assert (0 <= 2 * Zpos m2 * A) by (apply Z.mul_nonneg_nonneg; lia).
    nia.
Qed.

Lemma SFcompare_val (x y : spec_float) :
  valid_binary x = true -> valid_binary y = true ->
  SFfinite x = true -> SFfinite y = true ->
  match SFcompare x y with
  | Some Lt => SFval x < SFval y
  | Some Eq => SFval x = SFval y
  | Some Gt => SFval y < SFval x
  | None => False
  end.
Proof.
  intros Vx Vy Fx Fy.
  destruct x as [sx|sx| |sx mx ex], y as [sy|sy| |sy my ey];
    try discriminate; simpl SFcompare.
  - reflexivity.
  - destruct (valid_finite _ _ _ Vy) as (He & _).
    assert (0 < Zpos my * 2 ^ (ey + 1074))
      by (apply Z.mul_pos_pos; [lia|apply pow2_pos; lia]).
    destruct sy; cbn [SFval cond_Zopp]; lia.
  - destruct (valid_finite _ _ _ Vx) as (He & _).
    assert (0 < Zpos mx * 2 ^ (ex + 1074))
      by (apply Z.mul_pos_pos; [lia|apply pow2_pos; lia]).
    destruct sx; cbn [SFval cond_Zopp]; lia.
  - destruct (valid_finite _ _ _ Vx) as (Hex & Hdx & Hnx).
    destruct (valid_finite _ _ _ Vy) as (Hey & Hdy & Hny).
    pose proof (pow2_pos (ex + 1074) ltac:(lia)) as Px.
    pose proof (pow2_pos (ey + 1074) ltac:(lia)) as Py.
    assert (Hlt : ex < ey ->
                  Zpos mx * 2 ^ (ex + 1074) < Zpos my * 2 ^ (ey + 1074))
      by (intros H; apply mag_lt; lia).
    assert (Hgt : ey < ex ->
                  Zpos my * 2 ^ (ey + 1074) < Zpos mx * 2 ^ (ex + 1074))
      by (intros H; apply mag_lt; lia).
    assert (Vx0 : 0 < Zpos mx * 2 ^ (ex + 1074))
      by (apply Z.mul_pos_pos; lia).
    assert (Vy0 : 0 < Zpos my * 2 ^ (ey + 1074))
      by (apply Z.mul_pos_pos; lia).
    cbn [SFval].
    change (Pos.compare_cont Eq mx my) with (Zpos mx ?= Zpos my).
    destruct sx, sy; cbn [cond_Zopp]; try lia;
      destruct (Z.compare_spec ex ey) as [->|H|H];
      try (specialize (Hlt H)); try (specialize (Hgt H)); try lia;
      destruct (Z.compare_spec (Zpos mx) (Zpos my)) as [E|E|E];
      cbn [CompOpp]; try (rewrite E); try lia;
      try (apply Z.mul_lt_mono_pos_r; lia);
      (apply -> Z.opp_lt_mono; apply Z.mul_lt_mono_pos_r; lia).
Qed.

(** *** Right shifts *)

Lemma shr_1_m (mrs : shr_record) :
  0 <= shr_m mrs -> shr_m (shr_1 mrs) = shr_m mrs / 2.
Proof.
  destruct mrs as [m r s]. cbn [shr_m]. intros H.
  destruct m as [|[p|p|]|p]; cbn [shr_1 shr_m].
  - reflexivity.
  - apply (Z.div_unique (Zpos p~1) 2 (Zpos p) 1); lia.
  - apply (Z.div_unique (Zpos p~0) 2 (Zpos p) 0); lia.
  - reflexivity.
  - lia.
Qed.

Lemma pow2_xO (p : positive) : 2 ^ Zpos p~0 = 2 ^ Zpos p * 2 ^ Zpos p.
Proof. rewrite <- pow2_split by lia. f_equal. lia. Qed.

Lemma pow2_xI (p : positive) :
  2 ^ Zpos p~1 = 2 * (2 ^ Zpos p * 2 ^ Zpos p).
Proof.
  rewrite <- pow2_split by lia.
  replace (Zpos p~1) with (Z.succ (Zpos p + Zpos p)) by lia.
  apply Z.pow_succ_r. lia.
Qed.

Lemma iter_shr_m (p : positive) :
  forall mrs, 0 <= shr_m mrs ->
    shr_m (SpecFloat.iter_pos shr_1 p mrs) = shr_m mrs / 2 ^ Zpos p.
Proof.
  induction p as [p IH|p IH|]; intros mrs H; cbn [SpecFloat.iter_pos].
  - assert (H1 : 0 <= shr_m (shr_1 mrs))
      by (rewrite shr_1_m by exact H; apply Z.div_pos; lia).
    assert (H2 : 0 <= shr_m (SpecFloat.iter_pos shr_1 p (shr_1 mrs)))
      by (rewrite IH by exact H1; apply Z.div_pos; [lia|apply pow2_pos; lia]).
    rewrite IH by exact H2. rewrite IH by exact H1. rewrite shr_1_m by exact H.
    pose proof (pow2_pos (Zpos p) ltac:(lia)) as Hp.
    rewrite pow2_xI, !Z.div_div by lia. reflexivity.
  - assert (H1 : 0 <= shr_m (SpecFloat.iter_pos shr_1 p mrs))
      by (rewrite IH by exact H; apply Z.div_pos; [lia|apply pow2_pos; lia]).
    rewrite IH by exact H1. rewrite IH by exact H.
    pose proof (pow2_pos (Zpos p) ltac:(lia)) as Hp.
    rewrite pow2_xO, Z.div_div by lia. reflexivity.
  - rewrite shr_1_m by exact H. reflexivity.
Qed.

Lemma shr_spec (mrs : shr_record) (e n : Z) :
  0 <= shr_m mrs ->
  shr_m (fst (shr mrs e n)) = shr_m mrs / 2 ^ Z.max 0 n /\
  snd (shr mrs e n) = e + Z.max 0 n /\
  (n <= 0 -> fst (shr mrs e n) = mrs).
Proof.
  intros H. destruct n as [|p|p]; cbn [shr fst snd].
  - change (Z.max 0 0) with 0. rewrite Z.div_1_r. repeat split; lia.
  - rewrite iter_shr_m by exact H.
    replace (Z.max 0 (Zpos p)) with (Zpos p) by lia. repeat split; lia.
  - replace (Z.max 0 (Zneg p)) with 0 by lia. rewrite Z.div_1_r.
    repeat split; lia.
Qed.

Lemma shr_record_of_loc_m (m : Z) (l : location) :
  shr_m (shr_record_of_loc m l) = m.
Proof. destruct l as [|[]]; reflexivity. Qed.

Lemma round_nearest_even_bounds (m : Z) (l : location) :
  m <= round_nearest_even m l <= m + 1.
Proof.
  destruct l as [|[]]; cbn [round_nearest_even]; try lia.
  destruct (Z.even m); lia.
Qed.

Lemma Zdigits2_pos_bounds (m : Z) :
  0 < m -> 2 ^ (Zdigits2 m - 1) <= m < 2 ^ Zdigits2 m.
Proof.
  destruct m as [|p|p]; try lia. intros _. apply digits2_bounds.
Qed.

(** *** Rounding *)

(** The sign of a rounded number is the sign it was given; rounding a
    non-negative mantissa never yields NaN. *)
Lemma binary_round_aux_sign (sx : bool) (mx ex : Z) (lx : location) :
  0 <= mx ->
  match binary_round_aux prec emax sx mx ex lx with
  | S754_zero s | S754_infinity s | S754_finite s _ _ => s = sx
  | S754_nan => False
  end.
Proof.
  intros H. unfold binary_round_aux, shr_fexp.
  destruct (shr (shr_record_of_loc mx lx) ex
              (fexp prec emax (Zdigits2 mx + ex) - ex)) as [mrs1 e1] eqn:E1.
  pose proof (shr_spec (shr_record_of_loc mx lx) ex
                (fexp prec emax (Zdigits2 mx + ex) - ex)) as S1.
  rewrite shr_record_of_loc_m, E1 in S1. cbn [fst snd] in S1.
  destruct (S1 H) as (Hm1 & _ & _).
  assert (H1 : 0 <= shr_m mrs1)
    by (rewrite Hm1; apply Z.div_pos; [lia|apply pow2_pos; lia]).
  set (m2 := round_nearest_even (shr_m mrs1) (loc_of_shr_record mrs1)).
  assert (H2 : 0 <= m2)
    by (pose proof (round_nearest_even_bounds (shr_m mrs1)
                      (loc_of_shr_record mrs1)); unfold m2; lia).
  destruct (shr (shr_record_of_loc m2 loc_Exact) e1
              (fexp prec emax (Zdigits2 m2 + e1) - e1)) as [mrs3 e3] eqn:E3.
  pose proof (shr_spec (shr_record_of_loc m2 loc_Exact) e1
                (fexp prec emax (Zdigits2 m2 + e1) - e1)) as S3.
  rewrite E3 in S3. cbn [fst snd shr_record_of_loc shr_m] in S3.
  destruct (S3 H2) as (Hm3 & _ & _).
  assert (H3 : 0 <= shr_m mrs3)
    by (rewrite Hm3; apply Z.div_pos; [lia|apply pow2_pos; lia]).
  destruct (shr_m mrs3) as [|p|p]; [reflexivity| |lia].
  destruct (e3 <=? emax - prec); reflexivity.
Qed.

Lemma fexp_64 (x : Z) : fexp prec emax x = Z.max (x - 53) (-1074).
Proof. reflexivity. Qed.

Lemma round_up_bound (m1 e1 K : Z) :
  0 <= m1 -> -1074 <= e1 <= K ->
  m1 * 2 ^ (e1 + 1074) < 2 ^ (K + 1074) ->
  (m1 + 1) * 2 ^ (e1 + 1074) <= 2 ^ (K + 1074).
Proof.
  intros H0 He H.
  replace (K + 1074) with ((K - e1) + (e1 + 1074)) in H |- * by lia.
  rewrite (pow2_split (K - e1) (e1 + 1074)) in H |- * by lia.
  pose proof (pow2_pos (e1 + 1074) ltac:(lia)) as HA.
  apply Z.mul_lt_mono_pos_r in H; [|exact HA].
  apply Z.mul_le_mono_nonneg_r; lia.
Qed.

Lemma shift_le (m N e : Z) :
  0 <= m -> 0 <= N -> -1074 <= e ->
  (m / 2 ^ N) * 2 ^ (e + N + 1074) <= m * 2 ^ (e + 1074).
Proof.
  intros Hm HN He.
  replace (e + N + 1074) with (N + (e + 1074)) by lia.
  rewrite (pow2_split N (e + 1074)) by lia.
  pose proof (pow2_pos N HN) as HP.
  pose proof (pow2_pos (e + 1074) ltac:(lia)) as HA.
  pose proof (Z.mul_div_le m (2 ^ N) HP) as Hd.
  rewrite Z.mul_assoc. apply Z.mul_le_mono_nonneg_r; lia.
Qed.

Lemma digits_le_of_bound (mx ex K : Z) :
  0 < mx -> -1074 <= ex -> -1074 <= K ->
  mx * 2 ^ (ex + 1074) < 2 ^ (K + 1074) -> Zdigits2 mx + ex <= K.
Proof.
  intros Hm He HK H.
  pose proof (Zdigits2_pos_bounds mx Hm) as [Hd _].
  assert (Hd1 : 1 <= Zdigits2 mx) by (destruct mx; simpl; lia).
  pose proof (pow2_pos (ex + 1074) ltac:(lia)) as HA.
  assert (H1 : 2 ^ (Zdigits2 mx - 1 + (ex + 1074)) < 2 ^ (K + 1074)).
  { rewrite (pow2_split (Zdigits2 mx - 1) (ex + 1074)) by lia.
    eapply Z.le_lt_trans; [|exact H].
    apply Z.mul_le_mono_nonneg_r; lia. }
  apply Z.pow_lt_mono_r_iff in H1; lia.
Qed.

(** Rounding an exact non-negative value below a power of two gives a finite
    number of at most that power of two. *)
Lemma binary_round_aux_bound (sx : bool) (mx ex K : Z) :
  0 <= mx -> -1074 <= ex -> -1074 <= K <= 971 ->
  mx * 2 ^ (ex + 1074) < 2 ^ (K + 1074) ->
  match binary_round_aux prec emax sx mx ex loc_Exact with
  | S754_zero s => s = sx
  | S754_finite s m e =>
      s = sx /\ -1074 <= e /\ Zpos m * 2 ^ (e + 1074) <= 2 ^ (K + 1074)
  | _ => False
  end.
Proof.
  intros H He HK Hb. unfold binary_round_aux, shr_fexp.
  set (n1 := fexp prec emax (Zdigits2 mx + ex) - ex).
  destruct (shr (shr_record_of_loc mx loc_Exact) ex n1) as [mrs1 e1] eqn:E1.
  pose proof (shr_spec (shr_record_of_loc mx loc_Exact) ex n1) as S1.
  rewrite E1 in S1. cbn [fst snd shr_record_of_loc shr_m] in S1.
  destruct (S1 H) as (Hm1 & He1 & Hid).
  assert (H1 : 0 <= shr_m mrs1)
    by (rewrite Hm1; apply Z.div_pos; [lia|apply pow2_pos; lia]).
  set (m2 := round_nearest_even (shr_m mrs1) (loc_of_shr_record mrs1)).
  assert (H2 : 0 <= m2)
    by (pose proof (round_nearest_even_bounds (shr_m mrs1)
                      (loc_of_shr_record mrs1)); unfold m2; lia).
  assert (He1' : -1074 <= e1) by lia.
  assert (HA : m2 * 2 ^ (e1 + 1074) <= 2 ^ (K + 1074)).
  { destruct (Z_le_gt_dec n1 0) as [Hn|Hn].
    - assert (Hm2 : m2 = mx) by (unfold m2; rewrite (Hid Hn); reflexivity).
      rewrite Hm2. replace e1 with ex by lia. lia.
    - assert (Hpos : 0 < mx).
      { destruct (Z.eq_dec mx 0) as [E|E]; [|lia]. exfalso.
        unfold n1 in Hn. rewrite E, fexp_64 in Hn. simpl Zdigits2 in Hn.
        lia. }
      pose proof (digits_le_of_bound mx ex K Hpos He (proj1 HK) Hb) as HD.
      assert (HeK : e1 <= K).
      { rewrite He1. unfold n1 in Hn |- *. rewrite fexp_64 in Hn |- *. lia. }
      pose proof (round_nearest_even_bounds (shr_m mrs1)
                    (loc_of_shr_record mrs1)) as [_ Hr].
      fold m2 in Hr.
      pose proof (pow2_pos (e1 + 1074) ltac:(lia)) as HP.
      apply Z.le_trans with ((shr_m mrs1 + 1) * 2 ^ (e1 + 1074));
        [apply Z.mul_le_mono_nonneg_r; lia|].
      apply round_up_bound; [exact H1|lia|].
      eapply Z.le_lt_trans; [|exact Hb].
      rewrite Hm1, He1. apply shift_le; lia. }
  set (n3 := fexp prec emax (Zdigits2 m2 + e1) - e1).
  destruct (shr (shr_record_of_loc m2 loc_Exact) e1 n3) as [mrs3 e3] eqn:E3.
  pose proof (shr_spec (shr_record_of_loc m2 loc_Exact) e1 n3) as S3.
  rewrite E3 in S3. cbn [fst snd shr_record_of_loc shr_m] in S3.
  destruct (S3 H2) as (Hm3 & He3 & _).
  assert (HB : shr_m mrs3 * 2 ^ (e3 + 1074) <= 2 ^ (K + 1074)).
  { eapply Z.le_trans; [|exact HA].
    rewrite Hm3, He3. apply shift_le; lia. }
  assert (H3 : 0 <= shr_m mrs3)
    by (rewrite Hm3; apply Z.div_pos; [lia|apply pow2_pos; lia]).
  destruct (shr_m mrs3) as [|p|p]; [reflexivity| |lia].
  assert (He3K : e3 <= K).
  { pose proof (pow2_pos (e3 + 1074) ltac:(lia)) as HP.
    assert (Hle : 2 ^ (e3 + 1074) <= 2 ^ (K + 1074)) by nia.
    apply Z.pow_le_mono_r_iff in Hle; lia. }
  change (emax - prec) with 971.
  destruct (e3 <=? 971) eqn:E; [|apply Z.leb_gt in E; lia].
  repeat split; (lia || exact HB).
Qed.

(** *** Alignment *)

Lemma iter_xO (m d : positive) :
  Zpos (Pos.iter xO m d) = Zpos m * 2 ^ Zpos d.
Proof.
  induction d as [|d IH] using Pos.peano_ind.
  - cbn [Pos.iter]. rewrite Pos2Z.inj_xO. change (2 ^ 1) with 2. ring.
  - rewrite Pos.iter_succ, Pos2Z.inj_xO, IH, Pos2Z.inj_succ.
    rewrite Z.pow_succ_r by lia. ring.
Qed.

Lemma shl_align_spec (mx : positive) (ex ex' : Z) :
  snd (shl_align mx ex ex') = Z.min ex ex' /\
  Zpos (fst (shl_align mx ex ex')) = Zpos mx * 2 ^ (ex - Z.min ex ex').
Proof.
  unfold shl_align. destruct (ex' - ex) as [|d|d] eqn:E; cbn [fst snd].
  - replace (Z.min ex ex') with ex by lia. rewrite Z.sub_diag. lia.
  - replace (Z.min ex ex') with ex by lia. rewrite Z.sub_diag. lia.
  - replace (Z.min ex ex') with ex' by lia. split; [reflexivity|].
    rewrite iter_xO. f_equal. f_equal. lia.
Qed.

Lemma aligned_val (m : positive) (e ez : Z) :
  -1074 <= ez -> ez <= e ->
  Zpos (fst (shl_align m e ez)) * 2 ^ (ez + 1074) = Zpos m * 2 ^ (e + 1074).
Proof.
  intros H0 H1. destruct (shl_align_spec m e ez) as [_ ->].
  replace (Z.min e ez) with ez by lia.
  replace (e + 1074) with ((e - ez) + (ez + 1074)) by lia.
  rewrite (pow2_split (e - ez) (ez + 1074)) by lia. ring.
Qed.

Lemma binary_round_sign (sx : bool) (mx : positive) (ex : Z) :
  match binary_round prec emax sx mx ex with
  | S754_zero s | S754_infinity s | S754_finite s _ _ => s = sx
  | S754_nan => False
  end.
Proof.
  unfold binary_round.
  destruct (shl_align mx ex (fexp prec emax (Zpos (digits2_pos mx) + ex)))
    as [mz ez].
  apply binary_round_aux_sign. lia.
Qed.

Lemma binary_round_bound (sx : bool) (mx : positive) (ex K : Z) :
  -1074 <= ex -> -1074 <= K <= 971 ->
  Zpos mx * 2 ^ (ex + 1074) < 2 ^ (K + 1074) ->
  match binary_round prec emax sx mx ex with
  | S754_zero s => s = sx
  | S754_finite s m e =>
      s = sx /\ -1074 <= e /\ Zpos m * 2 ^ (e + 1074) <= 2 ^ (K + 1074)
  | _ => False
  end.
Proof.
  intros He HK Hb. unfold binary_round.
  set (f := fexp prec emax (Zpos (digits2_pos mx) + ex)).
  assert (Hf : -1074 <= f) by (unfold f; rewrite fexp_64; lia).
  pose proof (shl_align_spec mx ex f) as [Hs _].
  pose proof (aligned_val mx ex (Z.min ex f) ltac:(lia) ltac:(lia)) as Hv.
  assert (E : shl_align mx ex (Z.min ex f) = shl_align mx ex f).
  { unfold shl_align. destruct (Z.min_spec ex f) as [[H ->]|[H ->]];
      [|reflexivity].
    destruct (ex - ex) eqn:E1; try lia.
    destruct (f - ex) eqn:E2; try lia; reflexivity. }
  rewrite E in Hv.
  destruct (shl_align mx ex f) as [mz ez]. cbn [fst snd] in Hs, Hv.
  apply binary_round_aux_bound; [lia|lia|exact HK|].
  rewrite Hs, Hv. exact Hb.
Qed.

(** *** Sums and differences *)

Lemma SFnonneg_of_sign (r : spec_float) :
  match r with
  | S754_zero s | S754_infinity s | S754_finite s _ _ => s = false
  | S754_nan => False
  end -> SFnonneg r = true.
Proof. destruct r as [s|s| |s m e]; simpl; intros H; subst; tauto. Qed.

Lemma binary_normalize_nonneg (m e : Z) :
  0 <= m -> SFnonneg (binary_normalize prec emax m e false) = true.
Proof.
  intros H. destruct m as [|p|p]; [reflexivity| |lia].
  cbn [binary_normalize]. apply SFnonneg_of_sign, binary_round_sign.
Qed.

Lemma binary_normalize_bound (m e K : Z) :
  -1074 <= e -> -1074 <= K <= 971 ->
  0 <= m * 2 ^ (e + 1074) < 2 ^ (K + 1074) ->
  SFfinite (binary_normalize prec emax m e false) = true /\
  SFnonneg (binary_normalize prec emax m e false) = true /\
  SFval (binary_normalize prec emax m e false) <= 2 ^ (K + 1074).
Proof.
  intros He HK [H0 Hb].
  pose proof (pow2_pos (e + 1074) ltac:(lia)) as HP.
  pose proof (pow2_pos (K + 1074) ltac:(lia)) as HQ.
  destruct m as [|p|p]; cbn [binary_normalize].
  - simpl. repeat split; lia.
  - pose proof (binary_round_bound false p e K He HK Hb) as Hr.
    destruct (binary_round prec emax false p e) as [s|s| |s m' e'];
      try contradiction; cbn [SFfinite SFnonneg SFval].
    + subst s. repeat split; lia.
    + destruct Hr as (-> & He' & Hv). cbn [cond_Zopp]. auto.
  - exfalso. assert (Zneg p * 2 ^ (e + 1074) < 0)
      by (apply Z.mul_neg_pos; lia). lia.
Qed.

Lemma SFval_nonneg_sign (s : bool) (m : positive) (e : Z) :
  -1074 <= e -> 0 <= SFval (S754_finite s m e) -> s = false.
Proof.
  intros He H. destruct s; [|reflexivity]. exfalso.
  cbn [SFval cond_Zopp] in H.
  assert (0 < Zpos m * 2 ^ (e + 1074))
    by (apply Z.mul_pos_pos; [lia|apply pow2_pos; lia]).
  lia.
Qed.

Lemma SFadd_val (sx sy : bool) (mx my : positive) (ex ey : Z) :
  -1074 <= ex -> -1074 <= ey ->
  (cond_Zopp sx (Zpos (fst (shl_align mx ex (Z.min ex ey)))) +
   cond_Zopp sy (Zpos (fst (shl_align my ey (Z.min ex ey))))) *
  2 ^ (Z.min ex ey + 1074) =
  SFval (S754_finite sx mx ex) + SFval (S754_finite sy my ey).
Proof.
  intros Hx Hy. cbn [SFval].
  rewrite <- (aligned_val mx ex (Z.min ex ey)) by lia.
  rewrite <- (aligned_val my ey (Z.min ex ey)) by lia.
  destruct sx, sy; cbn [cond_Zopp]; ring.
Qed.

Lemma SFsub_val (sx sy : bool) (mx my : positive) (ex ey : Z) :
  -1074 <= ex -> -1074 <= ey ->
  (cond_Zopp sx (Zpos (fst (shl_align mx ex (Z.min ex ey)))) -
   cond_Zopp sy (Zpos (fst (shl_align my ey (Z.min ex ey))))) *
  2 ^ (Z.min ex ey + 1074) =
  SFval (S754_finite sx mx ex) - SFval (S754_finite sy my ey).
Proof.
  intros Hx Hy. cbn [SFval].
  rewrite <- (aligned_val mx ex (Z.min ex ey)) by lia.
  rewrite <- (aligned_val my ey (Z.min ex ey)) by lia.
  destruct sx, sy; cbn [cond_Zopp]; ring.
Qed.

(** The sum of two numbers that are not negative is not negative (and not
    NaN). *)
Lemma SFadd_nonneg (x y : spec_float) :
  SFnonneg x = true -> SFnonneg y = true ->
  SFnonneg (SFadd prec emax x y) = true.
Proof.
  destruct x as [sx|[|]| |[|] mx ex], y as [sy|[|]| |[|] my ey];
    try discriminate; intros _ _; try reflexivity.
  - destruct sx, sy; reflexivity.
  - cbn [SFadd cond_Zopp]. apply binary_normalize_nonneg. lia.
Qed.

(** A difference that is not negative as a number is not negative as a
    float, whatever the rounding. *)
Lemma SFsub_nonneg (x y : spec_float) :
  valid_binary x = true -> valid_binary y = true ->
  SFpositive y = true -> SFleb y x = true ->
  SFnonneg (SFsub prec emax x y) = true.
Proof.
  intros Vx Vy Py Hle.
  destruct y as [sy|sy| |[|] my ey]; try discriminate.
  destruct x as [sx|[|]| |[|] mx ex]; try discriminate; try reflexivity.
  pose proof (SFcompare_val _ _ Vy Vx eq_refl eq_refl) as Hc.
  unfold SFleb in Hle.
  destruct (valid_finite _ _ _ Vx) as (Hex & _).
  destruct (valid_finite _ _ _ Vy) as (Hey & _).
  cbn [SFsub]. apply binary_normalize_nonneg.
  pose proof (SFsub_val false false mx my ex ey ltac:(lia) ltac:(lia)) as Hv.
  pose proof (pow2_pos (Z.min ex ey + 1074) ltac:(lia)) as HP.
  destruct (SFcompare (S754_finite false my ey) (S754_finite false mx ex))
    as [[| |]|]; try discriminate; nia.
Qed.

(** The sum of two finite numbers whose exact sum is in [0, 2^K) is finite,
    not negative and at most 2^K. *)
Lemma SFadd_bound (x y : spec_float) (K : Z) :
  valid_binary x = true -> valid_binary y = true ->
  SFfinite x = true -> SFfinite y = true ->
  -1074 <= K <= 971 ->
  0 <= SFval x + SFval y < 2 ^ (K + 1074) ->
  SFfinite (SFadd prec emax x y) = true /\
  SFnonneg (SFadd prec emax x y) = true /\
  SFval (SFadd prec emax x y) <= 2 ^ (K + 1074).
Proof.
  intros Vx Vy Fx Fy HK Hb.
  pose proof (pow2_pos (K + 1074) ltac:(lia)) as HQ.
  destruct x as [sx|sx| |sx mx ex], y as [sy|sy| |sy my ey];
    try discriminate.
  - destruct sx, sy; simpl; repeat split; lia.
  - destruct (valid_finite _ _ _ Vy) as (Hey & _).
    assert (sy = false) as ->
      by (apply (SFval_nonneg_sign _ my ey); cbn [SFval] in *; lia).
    cbn [SFadd SFfinite SFnonneg]. cbn [SFval cond_Zopp] in Hb |- *.
    repeat split; lia.
  - destruct (valid_finite _ _ _ Vx) as (Hex & _).
    assert (sx = false) as ->
      by (apply (SFval_nonneg_sign _ mx ex); cbn [SFval] in *; lia).
    cbn [SFadd SFfinite SFnonneg]. cbn [SFval cond_Zopp] in Hb |- *.
    repeat split; lia.
  - destruct (valid_finite _ _ _ Vx) as (Hex & _).
    destruct (valid_finite _ _ _ Vy) as (Hey & _).
    cbn [SFadd]. apply binary_normalize_bound; [lia|exact HK|].
    rewrite SFadd_val by lia. exact Hb.
Qed.

(** The same for a difference. *)
Lemma SFsub_bound (x y : spec_float) (K : Z) :
  valid_binary x = true -> valid_binary y = true ->
  SFfinite x = true -> SFfinite y = true ->
  -1074 <= K <= 971 ->
  0 <= SFval x - SFval y < 2 ^ (K + 1074) ->
  SFfinite (SFsub prec emax x y) = true /\
  SFnonneg (SFsub prec emax x y) = true /\
  SFval (SFsub prec emax x y) <= 2 ^ (K + 1074).
Proof.
  intros Vx Vy Fx Fy HK Hb.
  pose proof (pow2_pos (K + 1074) ltac:(lia)) as HQ.
  destruct x as [sx|sx| |sx mx ex], y as [sy|sy| |sy my ey];
    try discriminate.
  - destruct sx, sy; simpl; repeat split; lia.
  - destruct (valid_finite _ _ _ Vy) as (Hey & _).
    assert (sy = true) as ->.
    { destruct sy; [reflexivity|]. exfalso. cbn [SFval cond_Zopp] in Hb.
      assert (0 < Zpos my * 2 ^ (ey + 1074))
        by (apply Z.mul_pos_pos; [lia|apply pow2_pos; lia]).
      lia. }
    cbn [SFsub SFfinite SFnonneg negb SFval cond_Zopp] in *.
    repeat split; lia.
  - destruct (valid_finite _ _ _ Vx) as (Hex & _).
    assert (sx = false) as ->
      by (apply (SFval_nonneg_sign _ mx ex); cbn [SFval] in *; lia).
    cbn [SFsub SFfinite SFnonneg]. cbn [SFval cond_Zopp] in Hb |- *.
    repeat split; lia.
  - destruct (valid_finite _ _ _ Vx) as (Hex & _).
    destruct (valid_finite _ _ _ Vy) as (Hey & _).
    cbn [SFsub]. apply binary_normalize_bound; [lia|exact HK|].
    rewrite SFsub_val by lia. exact Hb.
Qed.

(** *** Order *)

Lemma SFleb_zero (x : spec_float) :
  SFleb (S754_zero false) x = SFnonneg x.
Proof. destruct x as [s|[|]| |[|] m e]; reflexivity. Qed.

Lemma SFltb_zero (x : spec_float) :
  SFltb (S754_zero false) x = true -> SFnonneg x = true.
Proof.
  destruct x as [s|[|]| |[|] m e]; cbv; intros H;
    (reflexivity || discriminate).
Qed.

Lemma SFltb_of_val (x y : spec_float) :
  valid_binary x = true -> valid_binary y = true ->
  SFfinite x = true -> SFfinite y = true ->
  SFval x < SFval y -> SFltb x y = true.
Proof.
  intros Vx Vy Fx Fy H. pose proof (SFcompare_val x y Vx Vy Fx Fy) as Hc.
  unfold SFltb. destruct (SFcompare x y) as [[| |]|]; (reflexivity || lia).
Qed.

Lemma SFleb_val (x y : spec_float) :
  valid_binary x = true -> valid_binary y = true ->
  SFfinite x = true -> SFfinite y = true ->
  SFleb x y = (SFval x <=? SFval y).
Proof.
  intros Vx Vy Fx Fy. pose proof (SFcompare_val x y Vx Vy Fx Fy) as Hc.
  unfold SFleb. destruct (SFcompare x y) as [[| |]|];
    symmetry; [apply Z.leb_le|apply Z.leb_le|apply Z.leb_gt|]; lia.
Qed.

Lemma SFltb_val (x y : spec_float) :
  valid_binary x = true -> valid_binary y = true ->
  SFfinite x = true -> SFfinite y = true ->
  SFltb x y = (SFval x <? SFval y).
Proof.
  intros Vx Vy Fx Fy. pose proof (SFcompare_val x y Vx Vy Fx Fy) as Hc.
  unfold SFltb. destruct (SFcompare x y) as [[| |]|];
    symmetry; [apply Z.ltb_ge|apply Z.ltb_lt|apply Z.ltb_ge|]; lia.
Qed.

(** A number below a finite one and not negative is finite. *)
Lemma SFfinite_below (x y : spec_float) :
  SFnonneg x = true -> SFfinite y = true -> SFltb x y = true ->
  SFfinite x = true.
Proof.
  destruct x as [sx|[|]| |[|] mx ex], y as [sy|sy| |sy my ey];
    try discriminate; try reflexivity.
Qed.

(** *** Lower bounds *)

(** At least 1, or +infinity. *)
Definition SFge1 (x : spec_float) : bool :=
  match x with
  | S754_infinity false => true
  | S754_finite false m e => 2 ^ 1074 <=? Zpos m * 2 ^ (e + 1074)
  | _ => false
  end.

Lemma shr_lower (m e K : Z) :
  0 < m -> -1074 <= e -> -1074 <= K ->
  2 ^ (K + 1074) <= m * 2 ^ (e + 1074) ->
  0 < m / 2 ^ Z.max 0 (fexp prec emax (Zdigits2 m + e) - e) /\
  2 ^ (K + 1074) <=
  (m / 2 ^ Z.max 0 (fexp prec emax (Zdigits2 m + e) - e)) *
  2 ^ (e + Z.max 0 (fexp prec emax (Zdigits2 m + e) - e) + 1074).
Proof.
  intros Hm He HK Hb. rewrite fexp_64.
  pose proof (Zdigits2_pos_bounds m Hm) as [Hd _].
  assert (Hd1 : 1 <= Zdigits2 m) by (destruct m; simpl; lia).
  set (N := Z.max 0 (Z.max (Zdigits2 m + e - 53) (-1074) - e)).
  destruct (Z.eq_dec N 0) as [E0|E0].
  - rewrite E0. change (2 ^ 0) with 1. rewrite Z.div_1_r, Z.add_0_r.
    split; assumption.
  - assert (HN : N = Zdigits2 m - 53 /\ 0 < N) by lia.
    destruct HN as [HN HN0].
    pose proof (pow2_pos N ltac:(lia)) as HP.
    pose proof (pow2_pos (e + 1074) ltac:(lia)) as HA.
    assert (H52 : 2 ^ 52 <= m / 2 ^ N).
    { apply Z.div_le_lower_bound; [exact HP|].
      rewrite <- pow2_split by lia.
      replace (N + 52) with (Zdigits2 m - 1) by lia. exact Hd. }
    assert (H52' : 0 < 2 ^ 52) by reflexivity.
    split; [lia|].
    destruct (Z_le_gt_dec (e + N) K) as [HeK|HeK].
    + replace (K + 1074) with ((K - (e + N)) + (e + N + 1074)) in Hb |- *
        by lia.
      rewrite (pow2_split (K - (e + N)) (e + N + 1074)) in Hb |- * by lia.
      apply Z.mul_le_mono_nonneg_r; [apply Z.pow_nonneg; lia|].
      apply Z.div_le_lower_bound; [exact HP|].
      replace (e + N + 1074) with (N + (e + 1074)) in Hb by lia.
      rewrite (pow2_split N (e + 1074)) in Hb by lia.
      rewrite Z.mul_assoc in Hb.
      apply Z.mul_le_mono_pos_r in Hb; [|exact HA].
      rewrite Z.mul_comm. exact Hb.
    + apply Z.le_trans with (1 * 2 ^ (e + N + 1074)).
      * rewrite Z.mul_1_l. apply Z.pow_le_mono_r; lia.
      * apply Z.mul_le_mono_nonneg_r; [apply Z.pow_nonneg; lia|lia].
Qed.

(** Rounding an exact value of at least a power of two gives at least that
    power of two, or overflows to infinity. *)
Lemma binary_round_aux_lower (sx : bool) (mx ex K : Z) (lx : location) :
  0 < mx -> -1074 <= ex -> -1074 <= K ->
  2 ^ (K + 1074) <= mx * 2 ^ (ex + 1074) ->
  match binary_round_aux prec emax sx mx ex lx with
  | S754_infinity s => s = sx
  | S754_finite s m e =>
      s = sx /\ -1074 <= e /\ 2 ^ (K + 1074) <= Zpos m * 2 ^ (e + 1074)
  | _ => False
  end.
Proof.
  intros H He HK Hb. unfold binary_round_aux, shr_fexp.
  set (n1 := fexp prec emax (Zdigits2 mx + ex) - ex).
  destruct (shr (shr_record_of_loc mx lx) ex n1) as [mrs1 e1] eqn:E1.
  pose proof (shr_spec (shr_record_of_loc mx lx) ex n1) as S1.
  rewrite E1, shr_record_of_loc_m in S1. cbn [fst snd] in S1.
  destruct (S1 ltac:(lia)) as (Hm1 & He1 & _).
  destruct (shr_lower mx ex K H He HK Hb) as [Hp1 Hl1].
  fold n1 in Hp1, Hl1. rewrite <- Hm1, <- He1 in Hl1. rewrite <- Hm1 in Hp1.
  set (m2 := round_nearest_even (shr_m mrs1) (loc_of_shr_record mrs1)).
  pose proof (round_nearest_even_bounds (shr_m mrs1)
                (loc_of_shr_record mrs1)) as [Hr _].
  fold m2 in Hr.
  assert (He1' : -1074 <= e1) by lia.
  assert (Hl2 : 2 ^ (K + 1074) <= m2 * 2 ^ (e1 + 1074)).
  { eapply Z.le_trans; [exact Hl1|].
    apply Z.mul_le_mono_nonneg_r; [apply Z.pow_nonneg; lia|lia]. }
  set (n3 := fexp prec emax (Zdigits2 m2 + e1) - e1).
  destruct (shr (shr_record_of_loc m2 loc_Exact) e1 n3) as [mrs3 e3] eqn:E3.
  pose proof (shr_spec (shr_record_of_loc m2 loc_Exact) e1 n3) as S3.
  rewrite E3 in S3. cbn [fst snd shr_record_of_loc shr_m] in S3.
  destruct (S3 ltac:(lia)) as (Hm3 & He3 & _).
  destruct (shr_lower m2 e1 K ltac:(lia) He1' HK Hl2) as [Hp3 Hl3].
  fold n3 in Hp3, Hl3. rewrite <- Hm3, <- He3 in Hl3. rewrite <- Hm3 in Hp3.
  destruct (shr_m mrs3) as [|p|p]; try lia.
  destruct (e3 <=? emax - prec); [|reflexivity].
  repeat split; (lia || exact Hl3).
Qed.

Lemma SFge1_finite (s : bool) (m : positive) (e : Z) :
  valid_binary (S754_finite s m e) = true ->
  SFge1 (S754_finite s m e) = true ->
  s = false /\ -52 <= e /\ 2 ^ 1074 <= Zpos m * 2 ^ (e + 1074).
Proof.
  intros V H. destruct (valid_finite _ _ _ V) as (He & Hd & _).
  destruct s; [discriminate|]. cbn [SFge1] in H. apply Z.leb_le in H.
  split; [reflexivity|]. split; [|exact H].
  pose proof (digits2_bounds m) as [_ Hm].
  assert (Hm' : Zpos m < 2 ^ 53).
  { eapply Z.lt_le_trans; [exact Hm|]. apply Z.pow_le_mono_r; lia. }
  apply Z.nlt_ge. intros Hc.
  pose proof (pow2_pos (e + 1074) ltac:(lia)) as HA.
  assert (Hlt : Zpos m * 2 ^ (e + 1074) < 2 ^ 53 * 2 ^ (e + 1074))
    by (apply Z.mul_lt_mono_pos_r; lia).
  rewrite <- pow2_split in Hlt by lia.
  assert (Hle : 2 ^ (53 + (e + 1074)) <= 2 ^ 1074)
    by (apply Z.pow_le_mono_r; lia).
  lia.
Qed.

(** The sum of a number that is at least 1 and one that is not negative is
    at least 1. *)
Lemma SFadd_ge1 (x y : spec_float) :
  valid_binary x = true -> valid_binary y = true ->
  SFge1 x = true -> SFnonneg y = true ->
  SFge1 (SFadd prec emax x y) = true.
Proof.
  intros Vx Vy Hx Hy.
  destruct x as [sx|[|]| |sx mx ex]; try discriminate.
  - destruct y as [sy|[|]| |[|] my ey]; try discriminate; reflexivity.
  - destruct (SFge1_finite _ _ _ Vx Hx) as (-> & Hex & Hvx).
    destruct y as [sy|[|]| |[|] my ey]; try discriminate;
      try reflexivity; try exact Hx.
    destruct (valid_finite _ _ _ Vy) as (Hey & _).
    cbn [SFadd cond_Zopp].
    pose proof (SFadd_val false false mx my ex ey ltac:(lia) ltac:(lia))
      as Hv.
    cbn [cond_Zopp SFval] in Hv.
    assert (Hy0 : 0 < Zpos my * 2 ^ (ey + 1074))
      by (apply Z.mul_pos_pos; [lia|apply pow2_pos; lia]).
    set (mz := Zpos (fst (shl_align mx ex (Z.min ex ey))) +
               Zpos (fst (shl_align my ey (Z.min ex ey)))) in *.
    assert (Hmz : 0 < mz) by (unfold mz; lia).
    destruct mz as [|pz|pz] eqn:Ez; try lia.
    cbn [binary_normalize]. unfold binary_round.
    set (f := fexp prec emax (Zpos (digits2_pos pz) + Z.min ex ey)).
    assert (Hf : -1074 <= f) by (unfold f; rewrite fexp_64; lia).
    pose proof (shl_align_spec pz (Z.min ex ey) f) as [Hs _].
    pose proof (aligned_val pz (Z.min ex ey) (Z.min (Z.min ex ey) f)
                  ltac:(lia) ltac:(lia)) as Ha.
    assert (E : shl_align pz (Z.min ex ey) (Z.min (Z.min ex ey) f)
                = shl_align pz (Z.min ex ey) f).
    { unfold shl_align.
      destruct (Z.min_spec (Z.min ex ey) f) as [[H ->]|[H ->]];
        [|reflexivity].
      destruct (Z.min ex ey - Z.min ex ey) eqn:E1; try lia.
      destruct (f - Z.min ex ey) eqn:E2; try lia; reflexivity. }
    rewrite E in Ha.
    destruct (shl_align pz (Z.min ex ey) f) as [mz' ez']. cbn [fst snd] in *.
    subst ez'.
    pose proof (binary_round_aux_lower false (Zpos mz')
                  (Z.min (Z.min ex ey) f) 0 loc_Exact
                  ltac:(lia) ltac:(lia) ltac:(lia)) as Hr.
    change (2 ^ (0 + 1074)) with (2 ^ 1074) in Hr.
    rewrite Ha in Hr. specialize (Hr ltac:(lia)).
    destruct (binary_round_aux prec emax false (Zpos mz')
                (Z.min (Z.min ex ey) f) loc_Exact) as [s|s| |s m e];
      try contradiction.
    + now subst s.
    + destruct Hr as (-> & _ & Hr). cbn [SFge1].
      now apply Z.leb_le.
Qed.

(** The product of two numbers that are at least 1 is at least 1. *)
Lemma SFmul_ge1 (x y : spec_float) :
  valid_binary x = true -> valid_binary y = true ->
  SFge1 x = true -> SFge1 y = true ->
  SFge1 (SFmul prec emax x y) = true.
Proof.
  intros Vx Vy Hx Hy.
  destruct x as [sx|[|]| |sx mx ex]; try discriminate.
  - destruct y as [sy|[|]| |[|] my ey]; try discriminate; reflexivity.
  - destruct (SFge1_finite _ _ _ Vx Hx) as (-> & Hex & Hvx).
    destruct y as [sy|[|]| |sy my ey]; try discriminate; try reflexivity.
    destruct (SFge1_finite _ _ _ Vy Hy) as (-> & Hey & Hvy).
    cbn [SFmul xorb].
    pose proof (binary_round_aux_lower false (Zpos (mx * my)) (ex + ey) 0
                  loc_Exact ltac:(lia) ltac:(lia) ltac:(lia)) as Hr.
    change (2 ^ (0 + 1074)) with (2 ^ 1074) in Hr.
    assert (Hb : 2 ^ 1074 <= Zpos (mx * my) * 2 ^ (ex + ey + 1074)).
    { rewrite Pos2Z.inj_mul.
      replace (ex + 1074) with ((ex + 52) + 1022) in Hvx by lia.
      replace (ey + 1074) with ((ey + 52) + 1022) in Hvy by lia.
      replace (ex + ey + 1074) with ((ex + 52) + ((ey + 52) + 970)) by lia.
      rewrite (pow2_split (ex + 52) 1022) in Hvx by lia.
      rewrite (pow2_split (ey + 52) 1022) in Hvy by lia.
      rewrite (pow2_split (ex + 52)), (pow2_split (ey + 52) 970) by lia.
      pose proof (pow2_pos (ex + 52) ltac:(lia)) as HX.
      pose proof (pow2_pos (ey + 52) ltac:(lia)) as HY.
      set (X := Zpos mx * 2 ^ (ex + 52)) in *.
      set (Y := Zpos my * 2 ^ (ey + 52)) in *.
      change (2 ^ 1074) with (2 ^ 52 * 2 ^ 1022) in Hvx, Hvy.
      assert (HX1 : 2 ^ 52 <= X).
      { replace (Zpos mx * (2 ^ (ex + 52) * 2 ^ 1022))
          with (X * 2 ^ 1022) in Hvx by (unfold X; ring).
        apply Z.mul_le_mono_pos_r in Hvx; [exact Hvx|reflexivity]. }
      assert (HY1 : 2 ^ 52 <= Y).
      { replace (Zpos my * (2 ^ (ey + 52) * 2 ^ 1022))
          with (Y * 2 ^ 1022) in Hvy by (unfold Y; ring).
        apply Z.mul_le_mono_pos_r in Hvy; [exact Hvy|reflexivity]. }
      replace (Zpos mx * Zpos my *
               (2 ^ (ex + 52) * (2 ^ (ey + 52) * 2 ^ 970)))
        with ((X * Y) * 2 ^ 970) by (unfold X, Y; ring).
      change (2 ^ 1074) with ((2 ^ 52 * 2 ^ 52) * 2 ^ 970).
      apply Z.mul_le_mono_nonneg_r; [apply Z.pow_nonneg; lia|].
      apply Z.mul_le_mono_nonneg; lia. }
    specialize (Hr Hb).
    destruct (binary_round_aux prec emax false (Zpos (mx * my)) (ex + ey)
                loc_Exact) as [s|s| |s m e]; try contradiction.
    + now subst s.
    + destruct Hr as (-> & _ & Hr). cbn [SFge1]. now apply Z.leb_le.
Qed.

Lemma SFge1_pos (x : spec_float) :
  SFge1 x = true -> SFltb (S754_zero false) x = true.
Proof. destruct x as [s|[|]| |[|] m e]; try discriminate; reflexivity. Qed.

(** *** Rounding against a representable number *)

Lemma valid_val_multiple (mb : positive) (eb e1 : Z) :
  -1074 <= e1 <= eb ->
  Zpos mb * 2 ^ (eb + 1074) = (Zpos mb * 2 ^ (eb - e1)) * 2 ^ (e1 + 1074).
Proof.
  intros H. replace (eb + 1074) with ((eb - e1) + (e1 + 1074)) by lia.
  rewrite (pow2_split (eb - e1) (e1 + 1074)) by lia. ring.
Qed.

Lemma shr_lower_valid (m e : Z) (sb : bool) (mb : positive) (eb : Z) :
  0 < m -> -1074 <= e ->
  valid_binary (S754_finite sb mb eb) = true ->
  Zpos mb * 2 ^ (eb + 1074) <= m * 2 ^ (e + 1074) ->
  0 < m / 2 ^ Z.max 0 (fexp prec emax (Zdigits2 m + e) - e) /\
  Zpos mb * 2 ^ (eb + 1074) <=
  (m / 2 ^ Z.max 0 (fexp prec emax (Zdigits2 m + e) - e)) *
  2 ^ (e + Z.max 0 (fexp prec emax (Zdigits2 m + e) - e) + 1074).
Proof.
  intros Hm He Vb Hb. rewrite fexp_64.
  destruct (valid_finite _ _ _ Vb) as (Heb & Hdb & _).
  pose proof (Zdigits2_pos_bounds m Hm) as [Hd _].
  assert (Hd1 : 1 <= Zdigits2 m) by (destruct m; simpl; lia).
  set (N := Z.max 0 (Z.max (Zdigits2 m + e - 53) (-1074) - e)).
  destruct (Z.eq_dec N 0) as [E0|E0].
  - rewrite E0. change (2 ^ 0) with 1. rewrite Z.div_1_r, Z.add_0_r.
    split; assumption.
  - assert (HN : N = Zdigits2 m - 53 /\ 0 < N) by lia.
    destruct HN as [HN HN0].
    pose proof (pow2_pos N ltac:(lia)) as HP.
    pose proof (pow2_pos (e + 1074) ltac:(lia)) as HA.
    assert (H52 : 2 ^ 52 <= m / 2 ^ N).
    { apply Z.div_le_lower_bound; [exact HP|].
      rewrite <- pow2_split by lia.
      replace (N + 52) with (Zdigits2 m - 1) by lia. exact Hd. }
    assert (H52' : 0 < 2 ^ 52) by reflexivity.
    split; [lia|].
    destruct (Z_le_gt_dec (e + N) eb) as [HeK|HeK].
    + rewrite (valid_val_multiple mb eb (e + N)) in Hb |- * by lia.
      apply Z.mul_le_mono_nonneg_r; [apply Z.pow_nonneg; lia|].
      apply Z.div_le_lower_bound; [exact HP|].
      replace (e + N + 1074) with (N + (e + 1074)) in Hb by lia.
      rewrite (pow2_split N (e + 1074)) in Hb by lia.
      rewrite Z.mul_assoc in Hb.
      apply Z.mul_le_mono_pos_r in Hb; [|exact HA].
      rewrite Z.mul_comm. exact Hb.
    + pose proof (digits2_bounds mb) as [_ Hmb].
      assert (Hmb' : Zpos mb < 2 ^ 53).
      { eapply Z.lt_le_trans; [exact Hmb|]. apply Z.pow_le_mono_r; lia. }
      pose proof (pow2_pos (eb + 1074) ltac:(lia)) as HB.
      apply Z.le_trans with (2 ^ 53 * 2 ^ (eb + 1074));
        [apply Z.mul_le_mono_nonneg_r; lia|].
      rewrite <- pow2_split by lia.
      apply Z.le_trans with (2 ^ 52 * 2 ^ (e + N + 1074)).
      * rewrite <- pow2_split by lia. apply Z.pow_le_mono_r; lia.
      * apply Z.mul_le_mono_nonneg_r; [apply Z.pow_nonneg; lia|lia].
Qed.

(** Rounding an exact value of at least a representable number gives at
    least that number, or overflows to infinity. *)
Lemma binary_round_aux_lower_valid
    (sx : bool) (mx ex : Z) (lx : location)
    (sb : bool) (mb : positive) (eb : Z) :
  0 < mx -> -1074 <= ex ->
  valid_binary (S754_finite sb mb eb) = true ->
  Zpos mb * 2 ^ (eb + 1074) <= mx * 2 ^ (ex + 1074) ->
  match binary_round_aux prec emax sx mx ex lx with
  | S754_infinity s => s = sx
  | S754_finite s m e =>
      s = sx /\ -1074 <= e /\
      Zpos mb * 2 ^ (eb + 1074) <= Zpos m * 2 ^ (e + 1074)
  | _ => False
  end.
Proof.
  intros H He Vb Hb. unfold binary_round_aux, shr_fexp.
  set (n1 := fexp prec emax (Zdigits2 mx + ex) - ex).
  destruct (shr (shr_record_of_loc mx lx) ex n1) as [mrs1 e1] eqn:E1.
  pose proof (shr_spec (shr_record_of_loc mx lx) ex n1) as S1.
  rewrite E1, shr_record_of_loc_m in S1. cbn [fst snd] in S1.
  destruct (S1 ltac:(lia)) as (Hm1 & He1 & _).
  destruct (shr_lower_valid mx ex sb mb eb H He Vb Hb) as [Hp1 Hl1].
  fold n1 in Hp1, Hl1. rewrite <- Hm1, <- He1 in Hl1. rewrite <- Hm1 in Hp1.
  set (m2 := round_nearest_even (shr_m mrs1) (loc_of_shr_record mrs1)).
  pose proof (round_nearest_even_bounds (shr_m mrs1)
                (loc_of_shr_record mrs1)) as [Hr _].
  fold m2 in Hr.
  assert (He1' : -1074 <= e1) by lia.
  assert (Hl2 : Zpos mb * 2 ^ (eb + 1074) <= m2 * 2 ^ (e1 + 1074)).
  { eapply Z.le_trans; [exact Hl1|].
    apply Z.mul_le_mono_nonneg_r; [apply Z.pow_nonneg; lia|lia]. }
  set (n3 := fexp prec emax (Zdigits2 m2 + e1) - e1).
  destruct (shr (shr_record_of_loc m2 loc_Exact) e1 n3) as [mrs3 e3] eqn:E3.
  pose proof (shr_spec (shr_record_of_loc m2 loc_Exact) e1 n3) as S3.
  rewrite E3 in S3. cbn [fst snd shr_record_of_loc shr_m] in S3.
  destruct (S3 ltac:(lia)) as (Hm3 & He3 & _).
  destruct (shr_lower_valid m2 e1 sb mb eb ltac:(lia) He1' Vb Hl2)
    as [Hp3 Hl3].
  fold n3 in Hp3, Hl3. rewrite <- Hm3, <- He3 in Hl3. rewrite <- Hm3 in Hp3.
  destruct (shr_m mrs3) as [|p|p]; try lia.
  destruct (e3 <=? emax - prec); [|reflexivity].
  repeat split; (lia || exact Hl3).
Qed.

Lemma digits_lt_of_val_lt (m : Z) (e : Z) (mb : positive) (eb : Z) :
  0 < m -> -1074 <= e -> -1074 <= eb ->
  m * 2 ^ (e + 1074) < Zpos mb * 2 ^ (eb + 1074) ->
  Zdigits2 m + e <= Zpos (digits2_pos mb) + eb.
Proof.
  intros Hm He Heb H.
  pose proof (Zdigits2_pos_bounds m Hm) as [Hd _].
  assert (Hd1 : 1 <= Zdigits2 m) by (destruct m; simpl; lia).
  pose proof (digits2_bounds mb) as [_ Hmb].
  pose proof (pow2_pos (e + 1074) ltac:(lia)) as HA.
  pose proof (pow2_pos (eb + 1074) ltac:(lia)) as HB.
  assert (H1 : 2 ^ (Zdigits2 m - 1 + (e + 1074))
               < 2 ^ (Zpos (digits2_pos mb) + (eb + 1074))).
  { rewrite (pow2_split (Zdigits2 m - 1) (e + 1074)) by lia.
    rewrite (pow2_split (Zpos (digits2_pos mb)) (eb + 1074)) by lia.
    eapply Z.le_lt_trans; [|eapply Z.lt_trans; [exact H|]].
    - apply Z.mul_le_mono_nonneg_r; lia.
    - apply Z.mul_lt_mono_pos_r; lia. }
  apply Z.pow_lt_mono_r_iff in H1; lia.
Qed.

(** Rounding an exact positive value, aligned as [binary_round] aligns it,
    that is below a representable number gives a finite number of at most
    that number. *)
Lemma binary_round_aux_upper_valid
    (sx : bool) (mx ex : Z) (sb : bool) (mb : positive) (eb : Z) :
  0 < mx -> -1074 <= ex ->
  ex <= fexp prec emax (Zdigits2 mx + ex) ->
  valid_binary (S754_finite sb mb eb) = true ->
  mx * 2 ^ (ex + 1074) < Zpos mb * 2 ^ (eb + 1074) ->
  match binary_round_aux prec emax sx mx ex loc_Exact with
  | S754_zero s => s = sx
  | S754_finite s m e =>
      s = sx /\ -1074 <= e /\
      Zpos m * 2 ^ (e + 1074) <= Zpos mb * 2 ^ (eb + 1074)
  | _ => False
  end.
Proof.
  intros H He Hal Vb Hb. unfold binary_round_aux, shr_fexp.
  destruct (valid_finite _ _ _ Vb) as (Heb & Hdb & _).
  assert (Hcan : fexp prec emax (Zpos (digits2_pos mb) + eb) = eb).
  { unfold SpecFloat.valid_binary, bounded, canonical_mantissa in Vb.
    apply andb_true_iff in Vb as [Vb _]. now apply Z.eqb_eq in Vb. }
  rewrite fexp_64 in Hcan, Hal.
  pose proof (digits_lt_of_val_lt mx ex mb eb H He ltac:(lia) Hb) as HD.
  set (B := Zpos mb * 2 ^ (eb + 1074)) in *.
  set (n1 := fexp prec emax (Zdigits2 mx + ex) - ex).
  assert (Hn1 : 0 <= n1) by (unfold n1; rewrite fexp_64; lia).
  destruct (shr (shr_record_of_loc mx loc_Exact) ex n1) as [mrs1 e1] eqn:E1.
  pose proof (shr_spec (shr_record_of_loc mx loc_Exact) ex n1) as S1.
  rewrite E1 in S1. cbn [fst snd shr_record_of_loc shr_m] in S1.
  destruct (S1 ltac:(lia)) as (Hm1 & He1 & _).
  replace (Z.max 0 n1) with n1 in Hm1, He1 by lia.
  assert (He1eb : -1074 <= e1 <= eb).
  { rewrite He1. unfold n1. rewrite fexp_64. lia. }
  pose proof (pow2_pos n1 Hn1) as HPn.
  pose proof (pow2_pos (e1 + 1074) ltac:(lia)) as HP.
  assert (H1 : 0 < shr_m mrs1).
  { rewrite Hm1. apply Z.div_str_pos. split; [exact HPn|].
    pose proof (Zdigits2_pos_bounds mx H) as [Hd _].
    assert (Hd1 : 1 <= Zdigits2 mx) by (destruct mx; simpl; lia).
    eapply Z.le_trans; [|exact Hd].
    apply Z.pow_le_mono_r; [lia|].
    unfold n1. rewrite fexp_64. lia. }
  set (m2 := round_nearest_even (shr_m mrs1) (loc_of_shr_record mrs1)).
  pose proof (round_nearest_even_bounds (shr_m mrs1)
                (loc_of_shr_record mrs1)) as [Hr0 Hr1].
  fold m2 in Hr0, Hr1.
  assert (Hlt : shr_m mrs1 * 2 ^ (e1 + 1074) < B).
  { eapply Z.le_lt_trans; [|exact Hb].
    rewrite Hm1, He1. apply shift_le; lia. }
  assert (HA : m2 * 2 ^ (e1 + 1074) <= B).
  { apply Z.le_trans with ((shr_m mrs1 + 1) * 2 ^ (e1 + 1074));
      [apply Z.mul_le_mono_nonneg_r; lia|].
    unfold B in Hlt |- *.
    rewrite (valid_val_multiple mb eb e1) in Hlt |- * by lia.
    apply Z.mul_lt_mono_pos_r in Hlt; [|exact HP].
    apply Z.mul_le_mono_nonneg_r; lia. }
  assert (Hm2 : 0 < m2) by lia.
  assert (HD2 : Zdigits2 m2 + e1 <= Zpos (digits2_pos mb) + eb).
  { destruct (Z_le_gt_dec (Zdigits2 m2 + e1)
                (Zpos (digits2_pos mb) + eb)) as [Hle|Hgt];
      [exact Hle|exfalso].
    pose proof (Zdigits2_pos_bounds m2 Hm2) as [Hd2 _].
    pose proof (digits2_bounds mb) as [_ Hmb].
    pose proof (pow2_pos (eb + 1074) ltac:(lia)) as HPB.
    assert (Hd21 : 1 <= Zdigits2 m2) by (destruct m2; simpl; lia).
    assert (Hc : B < 2 ^ (Zdigits2 m2 - 1) * 2 ^ (e1 + 1074)).
    { eapply Z.lt_le_trans;
        [unfold B; apply Z.mul_lt_mono_pos_r; [lia|exact Hmb]|].
      rewrite <- !pow2_split by lia. apply Z.pow_le_mono_r; lia. }
    assert (Hc2 : 2 ^ (Zdigits2 m2 - 1) * 2 ^ (e1 + 1074)
                  <= m2 * 2 ^ (e1 + 1074))
      by (apply Z.mul_le_mono_nonneg_r; lia).
    lia. }
  set (n3 := fexp prec emax (Zdigits2 m2 + e1) - e1).
  destruct (shr (shr_record_of_loc m2 loc_Exact) e1 n3) as [mrs3 e3] eqn:E3.
  pose proof (shr_spec (shr_record_of_loc m2 loc_Exact) e1 n3) as S3.
  rewrite E3 in S3. cbn [fst snd shr_record_of_loc shr_m] in S3.
  destruct (S3 ltac:(lia)) as (Hm3 & He3 & _).
  assert (HB3 : shr_m mrs3 * 2 ^ (e3 + 1074) <= B).
  { eapply Z.le_trans; [|exact HA].
    rewrite Hm3, He3. apply shift_le; lia. }
  assert (H3 : 0 <= shr_m mrs3)
    by (rewrite Hm3; apply Z.div_pos; [lia|apply pow2_pos; lia]).
  assert (He3K : -1074 <= e3 <= 971).
  { rewrite He3. unfold n3. rewrite fexp_64. lia. }
  destruct (shr_m mrs3) as [|p|p] eqn:E3m; [reflexivity| |lia].
  change (emax - prec) with 971.
  destruct (e3 <=? 971) eqn:E; [|apply Z.leb_gt in E; lia].
  repeat split; (lia || exact HB3).
Qed.

Lemma Zdigits2_shift (m : positive) (d : Z) :
  0 <= d -> Zdigits2 (Zpos m * 2 ^ d) = Zpos (digits2_pos m) + d.
Proof.
  intros Hd. pose proof (pow2_pos d Hd) as HP.
  assert (Hm : 0 < Zpos m * 2 ^ d) by (apply Z.mul_pos_pos; lia).
  pose proof (Zdigits2_pos_bounds _ Hm) as [H1 H2].
  pose proof (digits2_bounds m) as [H3 H4].
  assert (Hd1 : 1 <= Zdigits2 (Zpos m * 2 ^ d))
    by (destruct (Zpos m * 2 ^ d); simpl; lia).
  assert (Ha : Zpos m * 2 ^ d < 2 ^ (Zpos (digits2_pos m) + d)).
  { rewrite pow2_split by lia. apply Z.mul_lt_mono_pos_r; lia. }
  assert (Hb : 2 ^ (Zpos (digits2_pos m) - 1 + d) <= Zpos m * 2 ^ d).
  { rewrite pow2_split by lia. apply Z.mul_le_mono_nonneg_r; lia. }
  assert (Hc : 2 ^ (Zdigits2 (Zpos m * 2 ^ d) - 1)
               < 2 ^ (Zpos (digits2_pos m) + d)) by lia.
  assert (Hc' : 2 ^ (Zpos (digits2_pos m) - 1 + d)
                < 2 ^ Zdigits2 (Zpos m * 2 ^ d)) by lia.
  apply Z.pow_lt_mono_r_iff in Hc; [|lia|lia].
  apply Z.pow_lt_mono_r_iff in Hc'; lia.
Qed.

(** [binary_round] hands [binary_round_aux] the same value, aligned. *)
Lemma binary_round_aligned (sx : bool) (mx : positive) (ex : Z) :
  -1074 <= ex ->
  exists (mz : positive) (ez : Z),
    binary_round prec emax sx mx ex
    = binary_round_aux prec emax sx (Zpos mz) ez loc_Exact /\
    -1074 <= ez /\
    ez <= fexp prec emax (Zdigits2 (Zpos mz) + ez) /\
    Zpos mz * 2 ^ (ez + 1074) = Zpos mx * 2 ^ (ex + 1074).
Proof.
  intros He. unfold binary_round.
  set (f := fexp prec emax (Zpos (digits2_pos mx) + ex)).
  assert (Hf : -1074 <= f) by (unfold f; rewrite fexp_64; lia).
  pose proof (shl_align_spec mx ex f) as [Hs Hm].
  pose proof (aligned_val mx ex (Z.min ex f) ltac:(lia) ltac:(lia)) as Hv.
  assert (E : shl_align mx ex (Z.min ex f) = shl_align mx ex f).
  { unfold shl_align. destruct (Z.min_spec ex f) as [[H ->]|[H ->]];
      [|reflexivity].
    destruct (ex - ex) eqn:E1; try lia.
    destruct (f - ex) eqn:E2; try lia; reflexivity. }
  rewrite E in Hv.
  destruct (shl_align mx ex f) as [mz ez]. cbn [fst snd] in Hs, Hm, Hv.
  exists mz, ez. split; [reflexivity|]. split; [lia|].
  split; [|rewrite Hs; exact Hv].
  rewrite Hm, Hs.
  rewrite Zdigits2_shift by lia.
  replace (Zpos (digits2_pos mx) + (ex - Z.min ex f) + Z.min ex f)
    with (Zpos (digits2_pos mx) + ex) by lia.
  fold f. lia.
Qed.

Lemma binary_round_lower_valid
    (sx : bool) (mx : positive) (ex : Z)
    (sb : bool) (mb : positive) (eb : Z) :
  -1074 <= ex ->
  valid_binary (S754_finite sb mb eb) = true ->
  Zpos mb * 2 ^ (eb + 1074) <= Zpos mx * 2 ^ (ex + 1074) ->
  match binary_round prec emax sx mx ex with
  | S754_infinity s => s = sx
  | S754_finite s m e =>
      s = sx /\ -1074 <= e /\
      Zpos mb * 2 ^ (eb + 1074) <= Zpos m * 2 ^ (e + 1074)
  | _ => False
  end.
Proof.
  intros He Vb Hb.
  destruct (binary_round_aligned sx mx ex He) as (mz & ez & -> & Hez & _ & Hv).
  apply binary_round_aux_lower_valid with sb; [lia|exact Hez|exact Vb|].
  rewrite Hv. exact Hb.
Qed.

Lemma binary_round_upper_valid
    (sx : bool) (mx : positive) (ex : Z)
    (sb : bool) (mb : positive) (eb : Z) :
  -1074 <= ex ->
  valid_binary (S754_finite sb mb eb) = true ->
  Zpos mx * 2 ^ (ex + 1074) < Zpos mb * 2 ^ (eb + 1074) ->
  match binary_round prec emax sx mx ex with
  | S754_zero s => s = sx
  | S754_finite s m e =>
      s = sx /\ -1074 <= e /\
      Zpos m * 2 ^ (e + 1074) <= Zpos mb * 2 ^ (eb + 1074)
  | _ => False
  end.
Proof.
  intros He Vb Hb.
  destruct (binary_round_aligned sx mx ex He)
    as (mz & ez & -> & Hez & Hal & Hv).
  apply binary_round_aux_upper_valid with sb;
    [lia|exact Hez|exact Hal|exact Vb|].
  rewrite Hv. exact Hb.
Qed.

(** Less or equal, for a result that is known to be valid only later: as
    values, with +infinity above everything. *)
Definition SFle_val (x y : spec_float) : Prop :=
  match y with
  | S754_infinity false => True
  | S754_zero _ | S754_finite false _ _ => SFval x <= SFval y
  | _ => False
  end.

Lemma SFleb_of_le_val (x y : spec_float) :
  valid_binary x = true -> valid_binary y = true ->
  SFfinite x = true -> SFle_val x y -> SFleb x y = true.
Proof.
  intros Vx Vy Fx H.
  destruct y as [sy|[|]| |[|] my ey]; try contradiction.
  - rewrite SFleb_val by (auto; reflexivity). now apply Z.leb_le.
  - destruct x as [sx|sx| |sx mx ex]; try discriminate; reflexivity.
  - rewrite SFleb_val by (auto; reflexivity). now apply Z.leb_le.
Qed.

(** A sum of two positive numbers is at least the first. *)
Lemma SFadd_lower (mx my : positive) (ex ey : Z) :
  valid_binary (S754_finite false mx ex) = true ->
  valid_binary (S754_finite false my ey) = true ->
  SFle_val (S754_finite false mx ex)
    (SFadd prec emax (S754_finite false mx ex) (S754_finite false my ey)).
Proof.
  intros Vx Vy.
  destruct (valid_finite _ _ _ Vx) as (Hex & _).
  destruct (valid_finite _ _ _ Vy) as (Hey & _).
  cbn [SFadd cond_Zopp].
  pose proof (SFadd_val false false mx my ex ey ltac:(lia) ltac:(lia)) as Hv.
  cbn [cond_Zopp SFval] in Hv.
  assert (Hy0 : 0 < Zpos my * 2 ^ (ey + 1074))
    by (apply Z.mul_pos_pos; [lia|apply pow2_pos; lia]).
  set (mz := Zpos (fst (shl_align mx ex (Z.min ex ey))) +
             Zpos (fst (shl_align my ey (Z.min ex ey)))) in *.
  assert (Hmz : 0 < mz) by (unfold mz; lia).
  destruct mz as [|pz|pz] eqn:Ez; try lia.
  cbn [binary_normalize].
  pose proof (binary_round_lower_valid false pz (Z.min ex ey) false mx ex
                ltac:(lia) Vx ltac:(lia)) as Hr.
  destruct (binary_round prec emax false pz (Z.min ex ey))
    as [s|s| |s m e]; try contradiction.
  - subst s. exact I.
  - destruct Hr as (-> & _ & Hr). exact Hr.
Qed.

(** A difference of two positive numbers, the second at most the first, is
    at most the first. *)
Lemma SFsub_upper (mx my : positive) (ex ey : Z) :
  valid_binary (S754_finite false mx ex) = true ->
  valid_binary (S754_finite false my ey) = true ->
  SFleb (S754_finite false my ey) (S754_finite false mx ex) = true ->
  SFfinite (SFsub prec emax (S754_finite false mx ex)
              (S754_finite false my ey)) = true /\
  SFle_val (SFsub prec emax (S754_finite false mx ex)
              (S754_finite false my ey))
    (S754_finite false mx ex).
Proof.
  intros Vx Vy Hle.
  destruct (valid_finite _ _ _ Vx) as (Hex & _).
  destruct (valid_finite _ _ _ Vy) as (Hey & _).
  rewrite SFleb_val in Hle by (auto; reflexivity). apply Z.leb_le in Hle.
  cbn [SFval cond_Zopp] in Hle.
  cbn [SFsub cond_Zopp SFle_val SFval].
  pose proof (SFsub_val false false mx my ex ey ltac:(lia) ltac:(lia)) as Hv.
  cbn [cond_Zopp SFval] in Hv.
  assert (Hx0 : 0 < Zpos mx * 2 ^ (ex + 1074))
    by (apply Z.mul_pos_pos; [lia|apply pow2_pos; lia]).
  assert (Hy0 : 0 < Zpos my * 2 ^ (ey + 1074))
    by (apply Z.mul_pos_pos; [lia|apply pow2_pos; lia]).
  pose proof (pow2_pos (Z.min ex ey + 1074) ltac:(lia)) as HP.
  set (mz := Zpos (fst (shl_align mx ex (Z.min ex ey))) -
             Zpos (fst (shl_align my ey (Z.min ex ey)))) in *.
  destruct mz as [|pz|pz] eqn:Ez.
  - cbn [binary_normalize SFfinite SFval]. split; [reflexivity|lia].
  - cbn [binary_normalize].
    pose proof (binary_round_upper_valid false pz (Z.min ex ey) false mx ex
                  ltac:(lia) Vx ltac:(lia)) as Hr.
    destruct (binary_round prec emax false pz (Z.min ex ey))
      as [s|s| |s m e]; try contradiction.
    + cbn [SFfinite SFval]. split; [reflexivity|lia].
    + destruct Hr as (-> & _ & Hr). cbn [SFfinite SFval cond_Zopp].
      split; [reflexivity|exact Hr].
  - exfalso. assert (Zneg pz * 2 ^ (Z.min ex ey + 1074) < 0)
      by (apply Z.mul_neg_pos; lia). lia.
Qed.

Lemma SFleb_zero_any (s : bool) (x : spec_float) :
  SFleb (S754_zero s) x = SFnonneg x.
Proof. destruct x as [sx|[|]| |[|] m e]; reflexivity. Qed.

Lemma SFleb_refl (x : spec_float) :
  valid_binary x = true -> SFnonneg x = true -> SFleb x x = true.
Proof.
  intros V H. destruct x as [s|[|]| |[|] m e]; try discriminate;
    try reflexivity.
  rewrite SFleb_val by (auto; reflexivity). apply Z.leb_refl.
Qed.

(** The sum of two numbers that are not negative is at least the first. *)
Lemma SFadd_ge_left (x y r : spec_float) :
  valid_binary x = true -> valid_binary y = true -> valid_binary r = true ->
  SFnonneg x = true -> SFnonneg y = true ->
  r = SFadd prec emax x y -> SFleb x r = true.
Proof.
  intros Vx Vy Vr Hx Hy ->.
  destruct x as [sx|[|]| |[|] mx ex]; try discriminate.
  - rewrite SFleb_zero_any. now apply SFadd_nonneg.
  - destruct y as [sy|[|]| |[|] my ey]; try discriminate; reflexivity.
  - destruct y as [sy|[|]| |[|] my ey]; try discriminate.
    + cbn [SFadd]. apply SFleb_refl; auto.
    + reflexivity.
    + apply SFleb_of_le_val; auto. now apply SFadd_lower.
Qed.

(** Subtracting a positive number that is at most the first gives at most
    the first. *)
Lemma SFsub_le_left (x y r : spec_float) :
  valid_binary x = true -> valid_binary y = true -> valid_binary r = true ->
  SFpositive y = true -> SFleb y x = true ->
  r = SFsub prec emax x y -> SFleb r x = true.
Proof.
  intros Vx Vy Vr Py Hle ->.
  destruct y as [sy|sy| |[|] my ey]; try discriminate.
  destruct x as [sx|[|]| |[|] mx ex]; try discriminate; try reflexivity.
  destruct (SFsub_upper mx my ex ey Vx Vy Hle) as [Hf Hv].
  apply SFleb_of_le_val; auto.
Qed.

End Binary64.

(** * Further properties: the invariants in binary64 *)

Lemma SFnonneg_val (x : spec_float) :
  Binary64.SFnonneg x = true -> 0 <= Binary64.SFval x.
Proof.
  destruct x as [s|s| |[|] m e]; cbn [Binary64.SFnonneg Binary64.SFval];
    try lia; try discriminate.
  intros _. cbn [cond_Zopp].
  apply Z.mul_nonneg_nonneg; [lia|apply Z.pow_nonneg; lia].
Qed.

Lemma ieee_leb_zero (a : float) :
  PrimFloat.leb (fconst (Float64 := IEEE) 0 1) a
  = Binary64.SFnonneg (Prim2SF a).
Proof.
  rewrite FloatAxioms.leb_spec.
  change (Prim2SF (fconst (Float64 := IEEE) 0 1)) with (S754_zero false).
  apply Binary64.SFleb_zero.
Qed.

Lemma ieee_add_nonneg (a t : float) :
  fleb (Float64 := IEEE) (fconst 0 1) a = true ->
  fltb (Float64 := IEEE) (fconst 0 1) t = true ->
  fleb (Float64 := IEEE) (fconst 0 1) (fadd (Float64 := IEEE) a t) = true.
Proof.
  intros Ha Ht.
  change (PrimFloat.leb (fconst (Float64 := IEEE) 0 1) a = true) in Ha.
  change (PrimFloat.ltb (fconst (Float64 := IEEE) 0 1) t = true) in Ht.
  change (PrimFloat.leb (fconst (Float64 := IEEE) 0 1) (a + t)%float = true).
  rewrite ieee_leb_zero in Ha |- *.
  rewrite FloatAxioms.ltb_spec in Ht.
  change (Prim2SF (fconst (Float64 := IEEE) 0 1)) with (S754_zero false) in Ht.
  apply Binary64.SFltb_zero in Ht.
  rewrite add_spec. now apply Binary64.SFadd_nonneg.
Qed.

Lemma ieee_sub_nonneg (a c : float) :
  Binary64.SFpositive (Prim2SF c) = true ->
  fleb (Float64 := IEEE) c a = true ->
  fleb (Float64 := IEEE) (fconst 0 1) (fsub (Float64 := IEEE) a c) = true.
Proof.
  intros Hc Hle.
  change (PrimFloat.leb c a = true) in Hle.
  change (PrimFloat.leb (fconst (Float64 := IEEE) 0 1) (a - c)%float = true).
  rewrite ieee_leb_zero, sub_spec. rewrite FloatAxioms.leb_spec in Hle.
  apply Binary64.SFsub_nonneg; auto using Prim2SF_valid.
Qed.

(** The costs of generator [i] for every number of purchases up to 100 are
    positive finite numbers: checked by running the 101 products. *)
Definition costs_checked (i : nat) (c : float) : bool :=
  forallb (fun n => Binary64.SFpositive
                      (Prim2SF (costAfter (FL := IEEE) i c n)))
          (seq 0 101).

Lemma costs_checked_spec (i : nat) (c : float) (n : nat) :
  costs_checked i c = true -> (n <= 100)%nat ->
  Binary64.SFpositive (Prim2SF (costAfter (FL := IEEE) i c n)) = true.
Proof.
  intros H Hn. unfold costs_checked in H.
  rewrite forallb_forall in H. apply H. apply in_seq. lia.
Qed.

Lemma ieee_costs_safe (i : nat) (p : Generator float) :
  generator_inv (FL := IEEE) i p ->
  Binary64.SFpositive (Prim2SF (cost p)) = true.
Proof.
  intros (p0 & H0 & _ & Hl & Hc).
  change (cost p = costAfter (FL := IEEE) i (cost p0)
                     (Z.to_nat (level p - level p0))) in Hc.
  rewrite Hc.
  destruct i as [|[|[|[|i]]]]; simpl in H0; try discriminate;
    injection H0 as <-; simpl in Hl |- *;
    (apply costs_checked_spec; [vm_compute; reflexivity|lia]).
Qed.

Lemma ieee_mana_nonneg (g : Game float) :
  reachable (FL := IEEE) g -> PrimFloat.leb 0 (mana g) = true.
Proof.
  intros Hr.
  change (fleb (Float64 := IEEE) (fconst 0 1) (mana g) = true).
  apply (reachable_mana_nonneg (FL := IEEE)
           (fun c => Binary64.SFpositive (Prim2SF c) = true)).
  - reflexivity.
  - exact ieee_add_nonneg.
  - exact ieee_sub_nonneg.
  - exact ieee_costs_safe.
  - exact Hr.
Qed.

(** *** The indicator angles *)

(** [rotationSpeed] as a function of the two fields it reads. *)
Definition speedAt (s : float) (l : Z) : float :=
  fdiv (Float64 := IEEE)
    (fmul (Float64 := IEEE)
       (fmul (Float64 := IEEE)
          (fmul (Float64 := IEEE) s (of_int (Float64 := IEEE) l))
          (fconst (Float64 := IEEE) 2 1))
       (fpi (Float64 := IEEE)))
    (fconst (Float64 := IEEE) 60 1).

(** 2π in binary64, in units of 2^-1074. *)
Definition two_pi_val : Z := Binary64.SFval (Prim2SF (two_pi (FL := IEEE))).

(** A speed is safe when it is finite, not negative, and so small that an
    angle below 2π plus the speed stays below 8. *)
Definition speed_ok (r : float) : bool :=
  match Prim2SF r with
  | S754_zero _ => true
  | S754_finite false m e =>
      Zpos m * 2 ^ (e + 1074) <=? 2 ^ 1077 - two_pi_val
  | _ => false
  end.

Definition speeds_checked (s : float) : bool :=
  forallb (fun l => speed_ok (speedAt s (Z.of_nat l))) (seq 1 100).

Lemma speed_ok_spec (r : float) :
  speed_ok r = true ->
  Binary64.SFfinite (Prim2SF r) = true /\
  0 <= Binary64.SFval (Prim2SF r) <= 2 ^ 1077 - two_pi_val.
Proof.
  unfold speed_ok. intros H.
  assert (H0 : 0 <= 2 ^ 1077 - two_pi_val) by (vm_compute; discriminate).
  destruct (Prim2SF r) as [s|s| |[|] m e]; try discriminate.
  - simpl. split; [reflexivity|lia].
  - apply Z.leb_le in H. cbn [Binary64.SFfinite Binary64.SFval cond_Zopp].
    split; [reflexivity|]. split; [|exact H].
    apply Z.mul_nonneg_nonneg; [lia|apply Z.pow_nonneg; lia].
Qed.

Lemma speeds_checked_spec (s : float) (l : Z) :
  speeds_checked s = true -> 1 <= l <= 100 ->
  speed_ok (speedAt s l) = true.
Proof.
  intros H Hl. unfold speeds_checked in H. rewrite forallb_forall in H.
  replace l with (Z.of_nat (Z.to_nat l)) by lia.
  apply H. apply in_seq. lia.
Qed.

Lemma ieee_speed_safe (i : nat) (p : Generator float) :
  generator_inv (FL := IEEE) i p -> 0 < level p ->
  speed_ok (rotationSpeed (FL := IEEE) p) = true.
Proof.
  intros (p0 & H0 & Hs & Hl & _) Hpos.
  change (rotationSpeed (FL := IEEE) p)
    with (speedAt (speedPerLevel p) (level p)).
  change (speedPerLevel p = speedPerLevel p0) in Hs. rewrite Hs.
  change (level p0 <= level p <= 100) in Hl.
  apply speeds_checked_spec; [|lia].
  destruct i as [|[|[|[|i]]]]; simpl in H0; try discriminate;
    injection H0 as <-; vm_compute; reflexivity.
Qed.

Lemma ieee_step_in_turn
    (i : nat) (p : Generator float) (a : float) :
  generator_inv (FL := IEEE) i p -> 0 < level p ->
  in_turn (FL := IEEE) a ->
  in_turn (FL := IEEE) (rotatedAngle (FL := IEEE) p a).
Proof.
  intros Hinv Hpos [Ha0 Ha1].
  destruct (speed_ok_spec _ (ieee_speed_safe i p Hinv Hpos))
    as (HRf & HR0 & HR1).
  set (r := rotationSpeed (FL := IEEE) p) in *.
  change (PrimFloat.leb (fconst (Float64 := IEEE) 0 1) a = true) in Ha0.
  change (PrimFloat.ltb a (two_pi (FL := IEEE)) = true) in Ha1.
  rewrite ieee_leb_zero in Ha0. rewrite FloatAxioms.ltb_spec in Ha1.
  set (T := Prim2SF (two_pi (FL := IEEE))) in *.
  assert (VT : valid_binary T = true) by apply Prim2SF_valid.
  assert (FT : Binary64.SFfinite T = true) by reflexivity.
  assert (HT1 : 2 ^ 1077 - two_pi_val < 2 ^ 1075)
    by (vm_compute; reflexivity).
  assert (HT2 : 2 ^ 1075 < two_pi_val) by (vm_compute; reflexivity).
  assert (ET : Binary64.SFval T = two_pi_val) by reflexivity.
  pose proof (Prim2SF_valid a) as VA. pose proof (Prim2SF_valid r) as VR.
  assert (FA : Binary64.SFfinite (Prim2SF a) = true)
    by (apply (Binary64.SFfinite_below _ T); assumption).
  pose proof (SFnonneg_val _ Ha0) as HA0.
  assert (HA1 : Binary64.SFval (Prim2SF a) < two_pi_val).
  { rewrite Binary64.SFltb_val in Ha1 by assumption.
    apply Z.ltb_lt in Ha1. rewrite ET in Ha1. exact Ha1. }
  destruct (Binary64.SFadd_bound (Prim2SF a) (Prim2SF r) 3 VA VR FA HRf
              ltac:(lia))
    as (FX & NX & HX).
  { change (2 ^ (3 + 1074)) with (2 ^ 1077).
    revert HA0 HA1 HR0 HR1. generalize (Binary64.SFval (Prim2SF a)),
      (Binary64.SFval (Prim2SF r)), two_pi_val, (2 ^ 1077). lia. }
  change (2 ^ (3 + 1074)) with (2 ^ 1077) in HX.
  change (SFadd prec emax (Prim2SF a) (Prim2SF r))
    with (SF64add (Prim2SF a) (Prim2SF r)) in FX, NX, HX.
  rewrite <- add_spec in FX, NX, HX.
  pose proof (Prim2SF_valid (a + r)) as VX.
  unfold in_turn, rotatedAngle. cbv zeta.
  change (fadd (Float64 := IEEE) a (rotationSpeed (FL := IEEE) p))
    with (a + r)%float.
  change (fleb (Float64 := IEEE) (two_pi (FL := IEEE)) (a + r)%float)
    with (PrimFloat.leb (two_pi (FL := IEEE)) (a + r)%float).
  destruct (PrimFloat.leb (two_pi (FL := IEEE)) (a + r)%float) eqn:E;
    rewrite FloatAxioms.leb_spec in E; fold T in E;
    rewrite (Binary64.SFleb_val T _ VT VX FT FX), ET in E.
  - apply Z.leb_le in E.
    change (fsub (Float64 := IEEE) (a + r)%float (two_pi (FL := IEEE)))
      with ((a + r) - two_pi (FL := IEEE))%float.
    destruct (Binary64.SFsub_bound (Prim2SF (a + r)) T 1 VX VT FX FT
                ltac:(lia))
      as (FY & NY & HY).
    { change (2 ^ (1 + 1074)) with (2 ^ 1075). rewrite ET.
      revert E HX HT1. generalize (Binary64.SFval (Prim2SF (a + r))),
        two_pi_val, (2 ^ 1077), (2 ^ 1075). lia. }
    change (2 ^ (1 + 1074)) with (2 ^ 1075) in HY.
    change (SFsub prec emax (Prim2SF (a + r)) T)
      with (SF64sub (Prim2SF (a + r)) (Prim2SF (two_pi (FL := IEEE))))
      in FY, NY, HY.
    rewrite <- sub_spec in FY, NY, HY.
    split.
    + change (PrimFloat.leb (fconst (Float64 := IEEE) 0 1)
                ((a + r) - two_pi (FL := IEEE)) = true).
      rewrite ieee_leb_zero. exact NY.
    + change (PrimFloat.ltb ((a + r) - two_pi (FL := IEEE))
                (two_pi (FL := IEEE)) = true).
      rewrite FloatAxioms.ltb_spec. fold T.
      apply Binary64.SFltb_of_val; auto using Prim2SF_valid.
      rewrite ET. revert HY HT2.
      generalize (Binary64.SFval (Prim2SF ((a + r) - two_pi (FL := IEEE)))),
        two_pi_val, (2 ^ 1075). lia.
  - apply Z.leb_gt in E. split.
    + change (PrimFloat.leb (fconst (Float64 := IEEE) 0 1) (a + r) = true).
      rewrite ieee_leb_zero. exact NX.
    + change (PrimFloat.ltb (a + r) (two_pi (FL := IEEE)) = true).
      rewrite FloatAxioms.ltb_spec. fold T.
      apply Binary64.SFltb_of_val; [exact VX|exact VT|exact FX|exact FT|].
      rewrite ET. exact E.
Qed.

Lemma ieee_angles (g : Game float) (i : nat) (a : float) :
  reachable (FL := IEEE) g -> rotationAngles g !! i = Some a ->
  PrimFloat.leb 0 a = true /\ PrimFloat.ltb a (two_pi (FL := IEEE)) = true.
Proof.
  intros Hr Ha.
  exact (reachable_angles_in_turn (FL := IEEE)
           (conj eq_refl eq_refl) ieee_step_in_turn g Hr i a Ha).
Qed.

(** *** The invariants of the reachable states *)

(** C6, in binary64 as the program computes: mana starts at 0.0; an [advance]
    leaves it alone or adds the cache to it, and only a cache above 0; a
    [purchase] leaves it alone or subtracts the cost of a generator from
    mana that is at least that cost; and in every state the game can reach
    [0 <= mana] holds (so mana is not NaN either). *)
Theorem mana_nonnegative :
  mana (NewGame (FL := IEEE)) = 0%float /\
  (forall g g' : Game float,
      advance (FL := IEEE) g = Some g' ->
      mana g' = mana g \/
      (PrimFloat.ltb 0 (totalMultiplier g') = true /\
       mana g' = (mana g + totalMultiplier g')%float)) /\
  (forall (i : nat) (g g' : Game float),
      purchase (FL := IEEE) i g = Some g' ->
      mana g' = mana g \/
      (exists p : Generator float,
          generators g !! i = Some p /\
          PrimFloat.leb (cost p) (mana g) = true /\
          mana g' = (mana g - cost p)%float)) /\
  (forall g : Game float,
      reachable (FL := IEEE) g -> PrimFloat.leb 0 (mana g) = true).
Proof.
  split; [reflexivity|]. split; [|split].
  - intros g g' H.
    pose proof (advance_mana (FL := IEEE) g g' H) as Hm.
    pose proof (advance_totalMultiplier (FL := IEEE) g g' H) as Ht.
    revert Hm Ht. destruct (60 <=? _);
      cbn [andb]; [|intros Hm _; left; exact Hm].
    destruct (fltb _ _) eqn:E; intros Hm Ht; [|left; exact Hm].
    right. split.
    + exact (eq_trans (f_equal (PrimFloat.ltb 0) Ht) E).
    + exact (eq_trans Hm (f_equal (PrimFloat.add (mana g)) (eq_sym Ht))).
  - intros i g g' H.
    destruct (purchase_cases (FL := IEEE) _ _ _ H)
      as [->|(p & f & Hp & Hc & _ & _ & ->)]; [left; reflexivity|].
    right. exists p. split; [exact Hp|]. split; [exact Hc|reflexivity].
  - exact ieee_mana_nonneg.
Qed.

Lemma mana_nonnegative_witness :
  exists g : Game float,
    run (FL := IEEE) (replicate 240 Advance ++ [Purchase 0]) NewGame = Some g /\
    cost <$> generators g !! 0%nat = Some 0x1.b999999999999p+1%float /\
    PrimFloat.leb 0 (mana g) = true.
Proof.
  destruct (run (FL := IEEE) (replicate 240 Advance ++ [Purchase 0]) NewGame)
    as [g|] eqn:E; [|vm_compute in E; discriminate].
  exists g. split; [reflexivity|]. split.
  - vm_compute in E. injection E as <-. reflexivity.
  - apply (proj2 (proj2 (proj2 mana_nonnegative)) g).
    exact (run_reachable (FL := IEEE) _ _ _ reach_new E).
Defined.

(** C7, in binary64 as the program computes: in every state the game can
    reach a generator has a level of at most 100 and a speed per level of at
    most 0.1; under these bounds the angle an [advance] computes for an
    indicator in [0, 2π), the old angle plus the step, less 2π once when the
    sum is at least 2π, is in [0, 2π) again; and so every indicator angle of
    a reachable state satisfies [0 <= angle] and [angle < 2π]. *)
Theorem angles_in_turn :
  (forall (g : Game float) (i : nat) (p : Generator float),
      reachable (FL := IEEE) g ->
      generators g !! i = Some p ->
      level p <= 100 /\
      PrimFloat.leb (speedPerLevel p) (IEEE754.const 1 10) = true) /\
  (forall (g : Game float) (i : nat) (p : Generator float) (a : float),
      reachable (FL := IEEE) g ->
      generators g !! i = Some p ->
      rotationAngles g !! i = Some a ->
      0 < level p ->
      let newAngle := (a + rotationSpeed (FL := IEEE) p)%float in
      let wrapped :=
        if PrimFloat.leb (two_pi (FL := IEEE)) newAngle
        then (newAngle - two_pi (FL := IEEE))%float else newAngle in
      PrimFloat.leb 0 wrapped = true /\
      PrimFloat.ltb wrapped (two_pi (FL := IEEE)) = true) /\
  (forall (g : Game float) (i : nat) (a : float),
      reachable (FL := IEEE) g ->
      rotationAngles g !! i = Some a ->
      PrimFloat.leb 0 a = true /\
      PrimFloat.ltb a (two_pi (FL := IEEE)) = true).
Proof.
  split; [|split].
  - intros g i p Hr Hp.
    destruct (reachable_generators (FL := IEEE) g Hr i p Hp)
      as (p0 & H0 & Hs & Hl & _).
    change (speedPerLevel p = speedPerLevel p0) in Hs.
    change (level p0 <= level p <= 100) in Hl.
    split; [lia|]. rewrite Hs.
    destruct i as [|[|[|[|i]]]]; simpl in H0; try discriminate;
      injection H0 as <-; vm_compute; reflexivity.
  - intros g i p a Hr Hp Ha Hl.
    exact (ieee_step_in_turn i p a
             (reachable_generators (FL := IEEE) g Hr i p Hp) Hl
             (ieee_angles g i a Hr Ha)).
  - exact ieee_angles.
Qed.

Lemma angles_in_turn_witness :
  exists (g : Game float) (a : float),
    run (FL := IEEE)
        (replicate 2760 Advance ++ [Purchase 1] ++ replicate 750 Advance)
        NewGame = Some g /\
    rotationAngles g !! 1%nat = Some a /\
    PrimFloat.leb 0 a = true /\ PrimFloat.ltb a (two_pi (FL := IEEE)) = true /\
    PrimFloat.ltb a (IEEE754.const 1 1000) = true.
Proof.
  assert (Ha : (g ← run (FL := IEEE)
                      (replicate 2760 Advance ++ [Purchase 1] ++
                       replicate 750 Advance) NewGame;
                rotationAngles g !! 1%nat) = Some 0x1.4cp-44%float)
    by (vm_compute; reflexivity).
  destruct (run (FL := IEEE)
              (replicate 2760 Advance ++ [Purchase 1] ++ replicate 750 Advance)
              NewGame) as [g|] eqn:E; [|discriminate].
  assert (Hr : reachable (FL := IEEE) g)
    by exact (run_reachable (FL := IEEE) _ _ _ reach_new E).
  simpl in Ha.
  exists g. eexists. split; [reflexivity|]. split; [exact Ha|].
  destruct (proj2 (proj2 angles_in_turn) g 1%nat _ Hr Ha) as [H0 H1].
  split; [exact H0|]. split; [exact H1|]. vm_compute. reflexivity.
Defined.

(** X19: in binary64, as the program computes, mana is never negative and
    never NaN in a state the game can reach: the comparison [0 <= mana],
    false for a NaN, holds.  The accrual adds a positive number to a
    non-negative one, and a purchase subtracts a cost, one of 404 positive
    finite numbers, from mana that is at least that cost; neither rounds
    below zero. *)
Theorem ieee_mana_nonnegative (g : Game float) :
  reachable (FL := IEEE) g -> PrimFloat.leb 0 (mana g) = true.
Proof. exact (ieee_mana_nonneg g). Qed.

Lemma ieee_mana_nonnegative_witness :
  exists g : Game float,
    run (FL := IEEE) (replicate 180 Advance ++ [Purchase 0]) NewGame = Some g /\
    PrimFloat.leb 0 (mana g) = true.
Proof.
  destruct (run (FL := IEEE) (replicate 180 Advance ++ [Purchase 0]) NewGame)
    as [g|] eqn:E; [|vm_compute in E; discriminate].
  exists g. split; [reflexivity|].
  apply (ieee_mana_nonnegative g).
  exact (run_reachable (FL := IEEE) _ _ _ reach_new E).
Defined.

(** X20: in binary64, as the program computes, every indicator angle of a
    reachable state satisfies [0 <= angle] and [angle < 2π] (so it is not
    NaN): one tick adds at most about 1.05 to an angle below 2π, the sum
    rounds to at most 8, and the difference to 2π rounds to at most 2. *)
Theorem ieee_angles_in_turn (g : Game float) (i : nat) (a : float) :
  reachable (FL := IEEE) g -> rotationAngles g !! i = Some a ->
  PrimFloat.leb 0 a = true /\ PrimFloat.ltb a (two_pi (FL := IEEE)) = true.
Proof. exact (ieee_angles g i a). Qed.

Lemma ieee_angles_in_turn_witness :
  exists (g : Game float) (a : float),
    advanceN (FL := IEEE) 120 NewGame = Some g /\
    rotationAngles g !! 0%nat = Some a /\
    PrimFloat.leb 0 a = true /\ PrimFloat.ltb a (two_pi (FL := IEEE)) = true.
Proof.
  destruct (advanceN (FL := IEEE) 120 NewGame) as [g|] eqn:E;
    [|vm_compute in E; discriminate].
  assert (Hr : reachable (FL := IEEE) g)
    by (eapply advanceN_reachable; [apply reach_new|exact E]).
  destruct (rotationAngles g !! 0%nat) as [a|] eqn:Ha.
  - exists g, a. split; [reflexivity|]. split; [exact Ha|].
    exact (ieee_angles_in_turn g 0 a Hr Ha).
  - exfalso. apply lookup_ge_None in Ha.
    destruct (reachable_shape (FL := IEEE) g Hr) as (_ & Hl & _).
    change (length (rotationAngles g) = 4%nat) in Hl. lia.
Defined.

(** *** The multipliers *)

Lemma ieee_leb_one (x : float) :
  PrimFloat.leb 1 x = Binary64.SFge1 (Prim2SF x).
Proof.
  rewrite FloatAxioms.leb_spec.
  pose proof (Prim2SF_valid x) as V. pose proof (Prim2SF_valid 1) as V1.
  destruct (Prim2SF x) as [s|[|]| |s m e] eqn:E; try reflexivity.
  rewrite (Binary64.SFleb_val _ _ V1 V eq_refl eq_refl).
  change (Binary64.SFval (Prim2SF 1)) with (2 ^ 1074).
  destruct s; [|reflexivity].
  cbn [Binary64.SFval Binary64.SFge1 cond_Zopp].
  apply Z.leb_gt.
  assert (0 <= Zpos m * 2 ^ (e + 1074))
    by (apply Z.mul_nonneg_nonneg; [lia|apply Z.pow_nonneg; lia]).
  assert (0 < 2 ^ 1074) by reflexivity. lia.
Qed.

Lemma ieee_multiplier_ge_1 (g : Game float) :
  reachable (FL := IEEE) g ->
  forall i p, generators g !! i = Some p ->
              Binary64.SFge1 (Prim2SF (manaMultiplier p)) = true.
Proof.
  induction 1 as [|op g g' _ IH Hstep]; intros i p' Hp'.
  - destruct i as [|[|[|[|i]]]]; simpl in Hp'; try discriminate;
      injection Hp' as <-; reflexivity.
  - destruct op as [|k]; simpl in Hstep.
    + destruct (advance_generator (FL := IEEE) _ _ _ _ Hstep Hp')
        as (p & Hp & [->|(_ & ->)]); [exact (IH i p Hp)|].
      change (Binary64.SFge1
                (Prim2SF (manaMultiplier p + fconst (Float64 := IEEE) 1 100))
              = true).
      rewrite add_spec.
      apply Binary64.SFadd_ge1; auto using Prim2SF_valid.
      exact (IH i p Hp).
    + destruct (purchase_generator (FL := IEEE) _ _ _ _ _ Hstep Hp')
        as (p & Hp & [->|(f & -> & _ & _ & _ & ->)]); exact (IH _ p Hp).
Qed.

Lemma ieee_fold_ge_1 (gs : list (Generator float)) (acc : float) :
  Binary64.SFge1 (Prim2SF acc) = true ->
  (forall i p, gs !! i = Some p ->
               Binary64.SFge1 (Prim2SF (manaMultiplier p)) = true) ->
  Binary64.SFge1
    (Prim2SF (fold_left (fun acc p => fmul (Float64 := IEEE) acc
                                         (manaMultiplier p)) gs acc)) = true.
Proof.
  revert acc. induction gs as [|p gs IH]; intros acc Hacc H; [exact Hacc|].
  simpl. apply IH.
  - change (Binary64.SFge1 (Prim2SF (acc * manaMultiplier p)) = true).
    rewrite mul_spec. apply Binary64.SFmul_ge1; auto using Prim2SF_valid.
    exact (H 0%nat p eq_refl).
  - intros i q Hq. exact (H (S i) q Hq).
Qed.

Lemma ieee_product_ge_1 (g : Game float) :
  reachable (FL := IEEE) g ->
  Binary64.SFge1 (Prim2SF (product (FL := IEEE) (generators g))) = true.
Proof.
  intros Hr. apply ieee_fold_ge_1; [reflexivity|].
  exact (ieee_multiplier_ge_1 g Hr).
Qed.

(** X21: in binary64, as the program computes, every multiplier and the
    product of the multipliers is at least 1 (or +infinity, never NaN) in a
    state the game can reach, so the guard [totalMultiplier > 0] of the
    accrual never blocks: the tick taken at [tickCounter] = 59 sets mana to
    the float sum of mana and the product. *)
Theorem ieee_accrual_never_blocked (g g' : Game float) :
  reachable (FL := IEEE) g -> advance (FL := IEEE) g = Some g' ->
  (forall i p, generators g !! i = Some p ->
               PrimFloat.leb 1 (manaMultiplier p) = true) /\
  PrimFloat.leb 1 (product (FL := IEEE) (generators g)) = true /\
  (tickCounter g = 59 ->
   mana g' = (mana g + product (FL := IEEE) (generators g))%float).
Proof.
  intros Hr H. pose proof (ieee_product_ge_1 g Hr) as Hp.
  split; [|split].
  - intros i p Hi. rewrite ieee_leb_one.
    exact (ieee_multiplier_ge_1 g Hr i p Hi).
  - rewrite ieee_leb_one. exact Hp.
  - intros Ht.
    etransitivity; [exact (advance_mana (FL := IEEE) _ _ H)|].
    assert (Ht' : @tickCounter (@F IEEE) g = 59) by exact Ht.
    rewrite Ht'.
    change (60 <=? wrap_int (59 + 1)) with true. cbn [andb].
    change (fltb (Float64 := IEEE) (fconst 0 1)
              (product (FL := IEEE) (generators g)))
      with (PrimFloat.ltb (fconst (Float64 := IEEE) 0 1)
              (product (FL := IEEE) (generators g))).
    rewrite FloatAxioms.ltb_spec.
    change (Prim2SF (fconst (Float64 := IEEE) 0 1)) with (S754_zero false).
    rewrite (Binary64.SFge1_pos _ Hp). reflexivity.
Qed.

Lemma ieee_accrual_never_blocked_witness :
  exists g g' : Game float,
    advanceN (FL := IEEE) 179 NewGame = Some g /\
    advance (FL := IEEE) g = Some g' /\
    mana g' = (mana g + product (FL := IEEE) (generators g))%float.
Proof.
  destruct (advanceN (FL := IEEE) 179 NewGame) as [g|] eqn:E;
    [|vm_compute in E; discriminate].
  assert (Ht : tickCounter g = 59)
    by (vm_compute in E; injection E as <-; reflexivity).
  assert (Hr : reachable (FL := IEEE) g)
    by (eapply advanceN_reachable; [apply reach_new|exact E]).
  destruct (advance (FL := IEEE) g) as [g'|] eqn:E'.
  - exists g, g'. split; [reflexivity|]. split; [exact E'|].
    exact (proj2 (proj2 (ieee_accrual_never_blocked g g' Hr E')) Ht).
  - exfalso. destruct (reachable_step_total (FL := IEEE) g Advance Hr I)
      as [g' H']. simpl in H'. congruence.
Defined.

(** *** The costs *)

(** Each of the first 100 purchases of generator [i] raises its cost:
    checked by running the products. *)
Definition cost_steps_checked (i : nat) (c : float) : bool :=
  forallb (fun n => PrimFloat.ltb (costAfter (FL := IEEE) i c n)
                      (costAfter (FL := IEEE) i c (S n)))
          (seq 0 100).

Lemma cost_steps_checked_spec (i : nat) (c : float) (n : nat) :
  cost_steps_checked i c = true -> (n < 100)%nat ->
  PrimFloat.ltb (costAfter (FL := IEEE) i c n)
    (costAfter (FL := IEEE) i c (S n)) = true.
Proof.
  intros H Hn. unfold cost_steps_checked in H.
  rewrite forallb_forall in H. apply H. apply in_seq. lia.
Qed.

Lemma ieee_cost_step (i : nat) (p : Generator float) (f : float) :
  generator_inv (FL := IEEE) i p -> level p < 100 ->
  scalingFactors (FL := IEEE) !! i = Some f ->
  PrimFloat.ltb (cost p) (cost p * f) = true.
Proof.
  intros (p0 & H0 & _ & Hl & Hc) Hlt Hf.
  change (cost p = costAfter (FL := IEEE) i (cost p0)
                     (Z.to_nat (level p - level p0))) in Hc.
  change (level p0 <= level p <= 100) in Hl.
  assert (Hs : (cost p * f)%float
               = costAfter (FL := IEEE) i (cost p0)
                   (S (Z.to_nat (level p - level p0)))).
  { assert (Hd : scalingFactor (FL := IEEE) i = f)
      by exact (f_equal (default (fconst (Float64 := IEEE) 1 1)) Hf).
    change (costAfter (FL := IEEE) i (cost p0)
              (S (Z.to_nat (level p - level p0))))
      with (PrimFloat.mul
              (costAfter (FL := IEEE) i (cost p0)
                 (Z.to_nat (level p - level p0)))
              (scalingFactor (FL := IEEE) i)).
    exact (f_equal2 PrimFloat.mul Hc (eq_sym Hd)). }
  rewrite Hs, Hc.
  destruct i as [|[|[|[|i]]]]; simpl in H0; try discriminate;
    injection H0 as <-; simpl in Hl |- *;
    (apply cost_steps_checked_spec; [vm_compute; reflexivity|lia]).
Qed.

(** X22: in binary64, as the program computes, the cost of every generator
    of a reachable state is positive, and a purchase that succeeds strictly
    raises the cost of the generator it buys: the rounded products
    3.0 * 1.15^n and c * 1.2^n grow with n up to level 100. *)
Theorem ieee_cost_grows
    (i : nat) (g g' : Game float) (p p' : Generator float) :
  reachable (FL := IEEE) g -> purchase (FL := IEEE) i g = Some g' ->
  generators g !! i = Some p -> generators g' !! i = Some p' ->
  PrimFloat.ltb 0 (cost p) = true /\
  (p' = p \/ PrimFloat.ltb (cost p) (cost p') = true).
Proof.
  intros Hr H Hp Hp'.
  pose proof (reachable_generators (FL := IEEE) g Hr i p Hp) as Hinv.
  split.
  - pose proof (ieee_costs_safe i p Hinv) as Hc.
    rewrite FloatAxioms.ltb_spec.
    change (Prim2SF 0) with (S754_zero false).
    destruct (Prim2SF (cost p)) as [s|s| |[|] m e]; try discriminate.
    reflexivity.
  - destruct (purchase_generator (FL := IEEE) _ _ _ _ _ H Hp')
      as (q & Hq & [->|(f & _ & Hf & Hl & _ & ->)]).
    + left. pose proof (eq_trans (eq_sym Hq) Hp) as Heq.
      now injection Heq.
    + right. pose proof (eq_trans (eq_sym Hq) Hp) as Heq.
      injection Heq as ->.
      exact (ieee_cost_step i p f Hinv Hl Hf).
Qed.

Lemma ieee_cost_grows_witness :
  exists (g g' : Game float) (p p' : Generator float),
    advanceN (FL := IEEE) 180 NewGame = Some g /\
    purchase (FL := IEEE) 0 g = Some g' /\
    generators g !! 0%nat = Some p /\ generators g' !! 0%nat = Some p' /\
    PrimFloat.ltb (cost p) (cost p') = true.
Proof.
  destruct (advanceN (FL := IEEE) 180 NewGame) as [g|] eqn:E;
    [|vm_compute in E; discriminate].
  destruct (purchase (FL := IEEE) 0 g) as [g'|] eqn:E';
    [|vm_compute in E; injection E as <-; vm_compute in E'; discriminate].
  destruct (generators g !! 0%nat) as [p|] eqn:Hp;
    [|vm_compute in E; injection E as <-; vm_compute in Hp; discriminate].
  destruct (generators g' !! 0%nat) as [p'|] eqn:Hp';
    [|vm_compute in E; injection E as <-; vm_compute in E';
      injection E' as <-; vm_compute in Hp'; discriminate].
  assert (Hr : reachable (FL := IEEE) g)
    by (eapply advanceN_reachable; [apply reach_new|exact E]).
  exists g, g', p, p'. repeat (split; [solve [auto]|]).
  destruct (ieee_cost_grows 0 g g' p p' Hr E' Hp Hp') as [_ [Heq|Hlt]];
    [|exact Hlt].
  exfalso. clear Hr. vm_compute in E. injection E as <-.
  vm_compute in E'. injection E' as <-.
  vm_compute in Hp. injection Hp as <-.
  vm_compute in Hp'. injection Hp' as <-. discriminate.
Defined.

(** *** Revolutions *)

(** X23: in binary64, as the program computes, a revolution is never
    missed: in a reachable state the test [oldAngle < 2π] of the crossing
    detection always holds, so for a generator of positive level the
    multiplier grows by 0.01 in exactly the ticks in which the angle wraps,
    those with [oldAngle + rotationSpeed >= 2π]. *)
Theorem ieee_wrap_counts
    (j : nat) (g g' : Game float) (p : Generator float) (a : float) :
  reachable (FL := IEEE) g -> advance (FL := IEEE) g = Some g' ->
  generators g !! j = Some p -> rotationAngles g !! j = Some a ->
  0 < level p ->
  let wraps :=
    PrimFloat.leb (two_pi (FL := IEEE)) (a + rotationSpeed (FL := IEEE) p) in
  generators g' !! j =
    Some (if wraps
          then set_manaMultiplier (FL := IEEE)
                 (manaMultiplier p + fconst (Float64 := IEEE) 1 100)%float p
          else p) /\
  rotationAngles g' !! j =
    Some (if wraps
          then (a + rotationSpeed (FL := IEEE) p - two_pi (FL := IEEE))%float
          else (a + rotationSpeed (FL := IEEE) p)%float).
Proof.
  intros Hr H Hp Ha Hl wraps.
  destruct (ieee_angles g j a Hr Ha) as [_ Hlt].
  destruct (advance_at (FL := IEEE) j g g' H (lookup_lt_Some _ _ _ Hp))
    as (q & Hq & [(Hle & _)|(_ & a0 & Ha0 & Hg & Hang)]);
    pose proof (eq_trans (eq_sym Hq) Hp) as Heq; injection Heq as ->;
    [exfalso; exact (Z.lt_irrefl _ (Z.lt_le_trans _ _ _ Hl Hle))|].
  pose proof (eq_trans (eq_sym Ha0) Ha) as Heq. injection Heq as ->.
  split.
  - etransitivity; [exact Hg|]. f_equal.
    unfold rotatedGenerator, crossing.
    change (fltb (Float64 := IEEE) a (two_pi (FL := IEEE)))
      with (PrimFloat.ltb a (two_pi (FL := IEEE))).
    rewrite Hlt. reflexivity.
  - etransitivity; [exact Hang|]. reflexivity.
Qed.

Lemma ieee_wrap_counts_witness :
  exists (g g' : Game float) (p' : Generator float) (a' : float),
    advanceN (FL := IEEE) 119 NewGame = Some g /\
    advance (FL := IEEE) g = Some g' /\
    generators g' !! 0%nat = Some p' /\
    rotationAngles g' !! 0%nat = Some a' /\
    manaMultiplier p' = (1 + fconst (Float64 := IEEE) 1 100)%float /\
    PrimFloat.ltb a' 0x1p-40 = true.
Proof.
  destruct (advanceN (FL := IEEE) 119 NewGame) as [g|] eqn:E;
    [|vm_compute in E; discriminate].
  destruct (advance (FL := IEEE) g) as [g'|] eqn:E';
    [|vm_compute in E; injection E as <-; vm_compute in E'; discriminate].
  destruct (generators g !! 0%nat) as [p|] eqn:Hp;
    [|vm_compute in E; injection E as <-; vm_compute in Hp; discriminate].
  destruct (rotationAngles g !! 0%nat) as [a|] eqn:Ha;
    [|vm_compute in E; injection E as <-; vm_compute in Ha; discriminate].
  assert (Hr : reachable (FL := IEEE) g)
    by (eapply advanceN_reachable; [apply reach_new|exact E]).
  assert (Hl : 0 < level p).
  { clear Hr E'. vm_compute in E. injection E as <-. vm_compute in Hp.
    injection Hp as <-. reflexivity. }
  destruct (ieee_wrap_counts 0 g g' p a Hr E' Hp Ha Hl) as [Hg Hang].
  clear Hr. vm_compute in E. injection E as <-.
  vm_compute in Hp. injection Hp as <-. vm_compute in Ha. injection Ha as <-.
  eexists _, g', _, _. split; [reflexivity|]. split; [exact E'|].
  split; [exact Hg|]. split; [exact Hang|].
  split; vm_compute; reflexivity.
Defined.

(** *** Mana moves one way per operation *)

Lemma ieee_leb_refl (a : float) :
  PrimFloat.leb 0 a = true -> PrimFloat.leb a a = true.
Proof.
  intros H. change 0%float with (fconst (Float64 := IEEE) 0 1) in H.
  rewrite ieee_leb_zero in H. rewrite FloatAxioms.leb_spec.
  apply Binary64.SFleb_refl; auto using Prim2SF_valid.
Qed.

Lemma ieee_add_ge (a t : float) :
  PrimFloat.leb 0 a = true -> PrimFloat.leb 1 t = true ->
  PrimFloat.leb a (a + t) = true.
Proof.
  intros Ha Ht. change 0%float with (fconst (Float64 := IEEE) 0 1) in Ha.
  rewrite ieee_leb_zero in Ha. rewrite ieee_leb_one in Ht.
  rewrite FloatAxioms.leb_spec.
  apply (Binary64.SFadd_ge_left _ (Prim2SF t));
    auto using Prim2SF_valid, add_spec.
  apply Binary64.SFltb_zero, Binary64.SFge1_pos, Ht.
Qed.

Lemma ieee_sub_le (a c : float) :
  Binary64.SFpositive (Prim2SF c) = true -> PrimFloat.leb c a = true ->
  PrimFloat.leb (a - c) a = true.
Proof.
  intros Hc Hle. rewrite FloatAxioms.leb_spec in Hle |- *.
  apply (Binary64.SFsub_le_left _ (Prim2SF c));
    auto using Prim2SF_valid, sub_spec.
Qed.

(** X24: in binary64, as the program computes, mana moves one way per
    operation in a state the game can reach: a tick never lowers it and a
    purchase never raises it, whatever the rounding of the sum or of the
    difference. *)
Theorem ieee_mana_monotone (op : Op) (g g' : Game float) :
  reachable (FL := IEEE) g -> step (FL := IEEE) op g = Some g' ->
  match op with
  | Advance => PrimFloat.leb (mana g) (mana g') = true
  | Purchase _ => PrimFloat.leb (mana g') (mana g) = true
  end.
Proof.
  intros Hr H. pose proof (ieee_mana_nonneg g Hr) as H0.
  destruct op as [|k]; simpl in H.
  - replace (mana g') with
      (if (60 <=? wrap_int (tickCounter g + 1))
          && PrimFloat.ltb (fconst (Float64 := IEEE) 0 1)
               (product (FL := IEEE) (generators g))
       then (mana g + product (FL := IEEE) (generators g))%float
       else mana g)
      by (symmetry; exact (advance_mana (FL := IEEE) _ _ H)).
    destruct ((60 <=? wrap_int (tickCounter g + 1))
              && PrimFloat.ltb (fconst (Float64 := IEEE) 0 1)
                   (product (FL := IEEE) (generators g)));
      [|exact (ieee_leb_refl _ H0)].
    apply ieee_add_ge; [exact H0|].
    rewrite ieee_leb_one. exact (ieee_product_ge_1 g Hr).
  - destruct (purchase_cases (FL := IEEE) _ _ _ H)
      as [->|(p & f & Hp & Hc & Hl & Hf & ->)];
      [exact (ieee_leb_refl _ H0)|].
    change (PrimFloat.leb (mana g - cost p) (mana g) = true).
    apply ieee_sub_le; [|exact Hc].
    apply (ieee_costs_safe k).
    exact (reachable_generators (FL := IEEE) g Hr k p Hp).
Qed.

Lemma ieee_mana_monotone_witness :
  exists g g1 g2 : Game float,
    advanceN (FL := IEEE) 179 NewGame = Some g /\
    step (FL := IEEE) Advance g = Some g1 /\
    step (FL := IEEE) (Purchase 0) g1 = Some g2 /\
    PrimFloat.leb (mana g) (mana g1) = true /\
    PrimFloat.leb (mana g2) (mana g1) = true.
Proof.
  destruct (advanceN (FL := IEEE) 179 NewGame) as [g|] eqn:E;
    [|vm_compute in E; discriminate].
  assert (Hr : reachable (FL := IEEE) g)
    by (eapply advanceN_reachable; [apply reach_new|exact E]).
  destruct (reachable_step_total (FL := IEEE) g Advance Hr I) as [g1 H1].
  assert (Hr1 : reachable (FL := IEEE) g1)
    by (now apply reach_step with Advance g).
  destruct (reachable_step_total (FL := IEEE) g1 (Purchase 0) Hr1
              ltac:(simpl; lia)) as [g2 H2].
  exists g, g1, g2. split; [reflexivity|]. split; [exact H1|].
  split; [exact H2|]. split.
  - exact (ieee_mana_monotone Advance g g1 Hr H1).
  - exact (ieee_mana_monotone (Purchase 0) g1 g2 Hr1 H2).
Defined.
